(** * URI and IRI handling of [lib/index.js]: recognisers, parsers,
      normalisation, reference resolution and relativisation.

    The JavaScript module builds its grammars as regular expressions and runs
    them with the backtracking matcher of the language.  The development
    below embeds that matcher (ordered alternation, greedy and lazy
    quantifiers, named capture groups, anchors and negative lookahead), the
    regular expressions of the module, and the string functions built on top
    of them.

    Strings are [string]: sequences of code units in the range 0..255.  The
    character classes of the URI grammar are sets of ASCII characters, so a
    string with a code unit outside that range is rejected by every URI
    pattern, as one with a code unit in 128..255 is here; and the character
    that [String.fromCharCode] makes of a two-digit hexadecimal code is in
    the range.  The IRI patterns are embedded on the same strings, that is
    for identifiers whose code points are below 256. *)

From Stdlib Require Import Ascii.
From stdpp Require Import gmap strings list fin_maps.

Set Default Proof Using "Type".
Local Open Scope stdpp_scope.

(** ** JavaScript string primitives *)

Module JsString.

(** [s.slice(n)] *)
Fixpoint drop (n : nat) (s : string) : string :=
  match n, s with
  | S n', String _ s' => drop n' s'
  | _, _ => s
  end.

(** [s.slice(0, n)] *)
Fixpoint take (n : nat) (s : string) : string :=
  match n, s with
  | S n', String c s' => String c (take n' s')
  | _, _ => ""
  end.

(** [s.slice(from)] and [s.slice(from, to)] for non-negative indices. *)
Definition slice (s : string) (from : nat) : string := drop from s.
Definition slice2 (s : string) (from to : nat) : string :=
  take (to - from) (drop from s).

(** Position of the first occurrence of the character [c] in [s]. *)
Fixpoint find (c : ascii) (s : string) : option nat :=
  match s with
  | "" => None
  | String d s' => if Ascii.eqb d c then Some 0 else S <$> find c s'
  end.

(** [s.indexOf(c, from)] for a one-character needle; [None] stands for -1. *)
Definition indexOf (c : ascii) (from : nat) (s : string) : option nat :=
  if decide (from ≤ String.length s)
  then (λ i, from + i) <$> find c (drop from s)
  else None.

(** [s.lastIndexOf(c)] for a one-character needle. *)
Fixpoint lastIndexOf (c : ascii) (s : string) : option nat :=
  match s with
  | "" => None
  | String d s' =>
      match lastIndexOf c s' with
      | Some i => Some (S i)
      | None => if Ascii.eqb d c then Some 0 else None
      end
  end.

(** [s.startsWith(c)] for a one-character prefix. *)
Definition startsWith (c : ascii) (s : string) : bool :=
  match s with
  | String d _ => Ascii.eqb d c
  | "" => false
  end.

Definition map (f : ascii → ascii) : string → string :=
  fix go s := match s with "" => "" | String c s' => String (f c) (go s') end.

Definition between (lo hi c : ascii) : bool :=
  ((nat_of_ascii lo <=? nat_of_ascii c) && (nat_of_ascii c <=? nat_of_ascii hi))%nat.

(** Case mapping on one code unit.  Lower-casing is the mapping of
    [toLowerCase] on the code units 0..255 (the letters A-Z, and the
    Latin-1 capitals 192..222 except the multiplication sign 215);
    upper-casing is only ever applied to a percent-encoded triplet, where
    the ASCII letters are the only ones that occur. *)
Definition lower (c : ascii) : ascii :=
  let n := nat_of_ascii c in
  if between "A" "Z" c || ((192 <=? n) && (n <=? 222) && negb (n =? 215))%nat
  then ascii_of_nat (n + 32) else c.

Definition upper (c : ascii) : ascii :=
  if between "a" "z" c then ascii_of_nat (nat_of_ascii c - 32) else c.

Definition toLowerCase : string → string := map lower.
Definition toUpperCase : string → string := map upper.

(** [s.split(c)] for a one-character separator: never the empty list. *)
Fixpoint split (c : ascii) (s : string) : list string :=
  match s with
  | "" => [""]
  | String d s' =>
      if Ascii.eqb d c then "" :: split c s'
      else match split c s' with
           | x :: xs => String d x :: xs
           | [] => [String d ""]
           end
  end.

(** [a.join(sep)] *)
Fixpoint join (sep : string) (a : list string) : string :=
  match a with
  | [] => ""
  | [x] => x
  | x :: xs => x +:+ sep +:+ join sep xs
  end.

(** Value of a hexadecimal digit, as [parseInt(_, 16)] reads it. *)
Definition hexValue (c : ascii) : option nat :=
  let n := nat_of_ascii c in
  if between "0" "9" c then Some (n - 48)
  else if between "a" "f" c then Some (n - 87)
  else if between "A" "F" c then Some (n - 55)
  else None.

(** [parseInt(s, 16)]: the longest prefix of hexadecimal digits, [None]
    (NaN) when there is none. *)
Fixpoint parseHex (acc : option nat) (s : string) : option nat :=
  match s with
  | "" => acc
  | String c s' =>
      match hexValue c with
      | Some d => parseHex (Some (16 * default 0 acc + d)) s'
      | None => acc
      end
  end.
Definition parseInt16 (s : string) : option nat := parseHex None s.

(** [String.fromCharCode(n)] for [n < 256]. *)
Definition fromCharCode (n : nat) : string := String (ascii_of_nat n) "".

End JsString.

Import JsString.

(** ** Regular expressions and the backtracking matcher *)

Module RegExp.

Inductive regex : Type :=
| Empty                                   (* the empty pattern *)
| Chr (p : ascii → bool)                  (* a character or a class *)
| Bos                                     (* ^ *)
| Eos                                     (* $ *)
| Seq (a b : regex)                       (* ab *)
| Alt (a b : regex)                       (* a|b *)
| Quant (min : nat) (max : option nat) (greedy : bool) (a : regex)
                                          (* a{min,max} and a{min,max}? *)
| Group (name : string) (a : regex)       (* (?<name>a) *)
| NotAhead (a : regex).                   (* (?!a) *)

(** The captures: one property per named group, [None] for [undefined]. *)
Abbreviation captures := (gmap string (option string)).

Definition state : Type := string * captures.
Definition cont : Type := string → captures → option state.

(** Names of the groups of a pattern, in source order. *)
Fixpoint names (r : regex) : list string :=
  match r with
  | Empty | Chr _ | Bos | Eos => []
  | Seq a b | Alt a b => names a ++ names b
  | Quant _ _ _ a | NotAhead a => names a
  | Group g a => g :: names a
  end.

Definition reset (gs : list string) (e : captures) : captures :=
  foldr (λ g e, <[g := None]> e) e gs.

Definition orElse (x y : option state) : option state :=
  match x with Some _ => x | None => y end.

Definition accept : cont := λ s e, Some (s, e).

(** RepeatMatcher: [step] matches the atom once and [gs] are the groups of
    the atom.  The captures of the atom are cleared before each iteration,
    an iteration beyond [min] that consumes nothing is rejected, and [n]
    bounds the iterations that remain: [min] mandatory ones, then one per
    remaining character (see [repeatMatcher_enough]). *)
Fixpoint repeatMatcher (step : cont → cont) (gs : list string) (greedy : bool)
    (k : cont) (n min : nat) (max : option nat) (s : string) (e : captures)
    {struct n} : option state :=
  match n, max with
  | 0, _ | _, Some 0 => k s e
  | S n', _ =>
      let iter :=
        step (λ s' e',
                if (min =? 0) && (String.length s' =? String.length s)
                then None
                else repeatMatcher step gs greedy k n' (pred min) (pred <$> max) s' e')
             s (reset gs e) in
      if 0 <? min then iter
      else if greedy then orElse iter (k s e)
      else orElse (k s e) iter
  end.

(** [run len r k s e]: match [r] at the front of the remaining input [s]
    with captures [e], then continue with [k]; [len] is the length of the
    whole input.  Alternatives are tried in order and the first success
    is returned, as the matcher of the language does. *)
Fixpoint run (len : nat) (r : regex) (k : cont) (s : string) (e : captures)
    {struct r} : option state :=
  match r with
  | Empty => k s e
  | Chr p =>
      match s with
      | String c s' => if p c then k s' e else None
      | "" => None
      end
  | Bos => if String.length s =? len then k s e else None
  | Eos => match s with "" => k s e | _ => None end
  | Seq a b => run len a (run len b k) s e
  | Alt a b => orElse (run len a k s e) (run len b k s e)
  | Group g a =>
      run len a
        (λ s' e', k s' (<[g := Some (take (String.length s - String.length s') s)]> e'))
        s e
  | NotAhead a =>
      match run len a accept s e with
      | Some _ => None
      | None => k s e
      end
  | Quant min max greedy a =>
      repeatMatcher (run len a) (names a) greedy k (min + String.length s) min max s e
  end.

(** [r.exec(s)] for a pattern without the [g] and [y] flags: the first
    start index at which the pattern matches.  The resulting [groups]
    object has one property per named group of the pattern. *)
Fixpoint search (len : nat) (r : regex) (s : string) : option captures :=
  match run len r accept s (reset (names r) ∅) with
  | Some (_, e) => Some e
  | None =>
      match s with
      | String _ s' => search len r s'
      | "" => None
      end
  end.

Definition exec (r : regex) (s : string) : option captures :=
  search (String.length s) r s.

(** [r.test(s)] *)
Definition test (r : regex) (s : string) : bool := bool_decide (is_Some (exec r s)).

(** [s.replaceAll(r, f)] for a pattern with the [g] flag and a replacer
    that only looks at the matched text.  After an empty match the scan
    moves on by one character. *)
Fixpoint replaceAllFrom (n len : nat) (r : regex) (f : string → string)
    (s : string) : string :=
  match n with
  | 0 => s
  | S n' =>
      match run len r accept s (reset (names r) ∅) with
      | Some (s', _) =>
          let w := take (String.length s - String.length s') s in
          match w, s with
          | "", String c s1 => f w +:+ String c (replaceAllFrom n' len r f s1)
          | "", "" => f w
          | _, _ => f w +:+ replaceAllFrom n' len r f s'
          end
      | None =>
          match s with
          | String c s1 => String c (replaceAllFrom n' len r f s1)
          | "" => ""
          end
      end
  end.

Definition replaceAll (r : regex) (f : string → string) (s : string) : string :=
  replaceAllFrom (S (String.length s)) (String.length s) r f s.

(** Pattern combinators, for the template literals of the module. *)
Definition seqs (rs : list regex) : regex := foldr Seq Empty rs.
Fixpoint alts (rs : list regex) : regex :=
  match rs with
  | [] => NotAhead Empty
  | [r] => r
  | r :: rs' => Alt r (alts rs')
  end.
Definition lit (c : ascii) : regex := Chr (Ascii.eqb c).
Definition oneOf (cs : string) : ascii → bool :=
  λ c, bool_decide (is_Some (find c cs)).
Definition star (a : regex) : regex := Quant 0 None true a.
Definition lazyStar (a : regex) : regex := Quant 0 None false a.
Definition plus (a : regex) : regex := Quant 1 None true a.
Definition opt (a : regex) : regex := Quant 0 (Some 1) true a.
Definition times (lo hi : nat) (a : regex) : regex := Quant lo (Some hi) true a.

End RegExp.

Import RegExp.

(** ** The grammars (lines 25-78 of [lib/index.js]) *)

Module Grammar.

Definition str (s : string) : regex :=
  (fix go s := match s with "" => Empty | String c s' => Seq (lit c) (go s') end) s.

(** Common *)
Definition isHexdig (c : ascii) : bool :=
  between "a" "f" c || between "A" "F" c || between "0" "9" c.
Definition isUnreserved (c : ascii) : bool :=
  between "a" "z" c || between "A" "Z" c || between "0" "9" c || oneOf "-._~" c.
Definition isSubDelim : ascii → bool := oneOf "!$&'()*+,;=".

Definition hexdig : regex := Chr isHexdig.
Definition unreserved : regex := Chr isUnreserved.
Definition subDelims : regex := Chr isSubDelim.
Definition pctEncoded : regex := seqs [lit "%"; hexdig; hexdig].
Definition digit : regex := Chr (between "0" "9").

Definition decOctet : regex :=
  alts [digit;
        seqs [Chr (between "1" "9"); digit];
        seqs [lit "1"; digit; digit];
        seqs [lit "2"; Chr (between "0" "4"); digit];
        seqs [lit "2"; lit "5"; Chr (between "0" "5")]].
Definition ipV4Address : regex :=
  seqs [decOctet; lit "."; decOctet; lit "."; decOctet; lit "."; decOctet].
Definition h16 : regex := times 1 4 hexdig.
Definition ls32 : regex := alts [seqs [h16; lit ":"; h16]; ipV4Address].
Definition h16Colon : regex := seqs [h16; lit ":"].
Definition ipV6Address : regex :=
  alts [seqs [times 6 6 h16Colon; ls32];
        seqs [str "::"; times 5 5 h16Colon; ls32];
        seqs [opt h16; str "::"; times 4 4 h16Colon; ls32];
        seqs [opt (seqs [times 0 1 h16Colon; h16]); str "::"; times 3 3 h16Colon; ls32];
        seqs [opt (seqs [times 0 2 h16Colon; h16]); str "::"; times 2 2 h16Colon; ls32];
        seqs [opt (seqs [times 0 3 h16Colon; h16]); str "::"; times 1 1 h16Colon; ls32];
        seqs [opt (seqs [times 0 4 h16Colon; h16]); str "::"; ls32];
        seqs [opt (seqs [times 0 5 h16Colon; h16]); str "::"; h16];
        seqs [opt (seqs [times 0 6 h16Colon; h16]); str "::"]].
Definition ipVFuture : regex :=
  seqs [lit "v"; plus hexdig; lit "."; plus (alts [unreserved; subDelims; lit ":"])].
Definition ipLiteral : regex :=
  seqs [lit "["; alts [ipV6Address; ipVFuture]; lit "]"].
Definition scheme : regex :=
  Group "scheme"
    (seqs [Chr (λ c, between "a" "z" c || between "A" "Z" c);
           star (Chr (λ c, between "a" "z" c || between "A" "Z" c
                           || between "0" "9" c || oneOf "-+." c))]).
Definition port : regex := seqs [lit ":"; Group "port" (star digit)].

(** URI *)
Definition regName : regex := lazyStar (alts [unreserved; pctEncoded; subDelims]).
Definition host : regex := Group "host" (alts [ipLiteral; ipV4Address; regName]).
Definition userinfo : regex :=
  Group "userinfo" (star (alts [unreserved; pctEncoded; subDelims; lit ":"])).
Definition pchar : regex := alts [unreserved; pctEncoded; subDelims; lit ":"; lit "@"].
Definition segment : regex := lazyStar pchar.
Definition pathAbEmpty : regex := star (seqs [lit "/"; segment]).

Definition authority : regex :=
  Group "authority" (seqs [opt (seqs [userinfo; lit "@"]); host; opt port]).
Definition path : regex := Group "path" pathAbEmpty.
Definition pathWithoutAuthority : regex :=
  Group "path2" (seqs [NotAhead (str "//"); segment; pathAbEmpty]).
Definition query : regex :=
  opt (seqs [lit "?"; Group "query" (star (alts [pchar; lit "/"; lit "?"]))]).
Definition fragment : regex :=
  opt (seqs [lit "#"; Group "fragment" (star (alts [pchar; lit "/"; lit "?"]))]).

Definition uri : regex :=
  seqs [Bos; scheme; lit ":";
        alts [seqs [str "//"; authority; path]; pathWithoutAuthority];
        query; fragment; Eos].
Definition uriReference : regex :=
  seqs [Bos; alts [seqs [scheme; lit ":"]; Empty];
        alts [seqs [str "//"; authority; path]; pathWithoutAuthority];
        query; fragment; Eos].
Definition absoluteUri : regex :=
  seqs [Bos; scheme; lit ":";
        alts [seqs [str "//"; authority; path]; pathWithoutAuthority];
        query; Eos].

(** IRI.  On code units 0..255 the class [iunreserved] adds the range
    A0..FF to [unreserved], and the class [iprivate], whose ranges
    (E000-F8FF, F0000-FFFFD, 100000-10FFFD) start at E000, holds none of
    them. *)
Definition isIunreserved (c : ascii) : bool :=
  between "a" "z" c || between "A" "Z" c || between "0" "9" c || oneOf "-._~" c
  || (160 <=? nat_of_ascii c).
Definition isIprivate (c : ascii) : bool := false.
Definition iunreserved : regex := Chr isIunreserved.
Definition iprivate : regex := Chr isIprivate.

Definition iregName : regex := lazyStar (alts [iunreserved; pctEncoded; subDelims]).
Definition ihost : regex := Group "host" (alts [ipLiteral; ipV4Address; iregName]).
Definition iuserinfo : regex :=
  Group "userinfo" (star (alts [iunreserved; pctEncoded; subDelims; lit ":"])).
Definition ipchar : regex := alts [iunreserved; pctEncoded; subDelims; lit ":"; lit "@"].
Definition isegment : regex := lazyStar ipchar.
Definition ipathAbEmpty : regex := star (seqs [lit "/"; isegment]).

Definition iauthority : regex :=
  Group "authority" (seqs [opt (seqs [iuserinfo; lit "@"]); ihost; opt port]).
Definition ipath : regex := Group "path" ipathAbEmpty.
Definition ipathWithoutAuthority : regex :=
  Group "path2" (seqs [NotAhead (str "//"); isegment; ipathAbEmpty]).
Definition iquery : regex :=
  opt (seqs [lit "?"; Group "query" (star (alts [ipchar; iprivate; lit "/"; lit "?"]))]).
Definition ifragment : regex :=
  opt (seqs [lit "#"; Group "fragment" (star (alts [ipchar; lit "/"; lit "?"]))]).

Definition iri : regex :=
  seqs [Bos; scheme; lit ":";
        alts [seqs [str "//"; iauthority; ipath]; ipathWithoutAuthority];
        iquery; ifragment; Eos].
Definition iriReference : regex :=
  seqs [Bos; alts [seqs [scheme; lit ":"]; Empty];
        alts [seqs [str "//"; iauthority; ipath]; ipathWithoutAuthority];
        iquery; ifragment; Eos].
Definition absoluteIri : regex :=
  seqs [Bos; scheme; lit ":";
        alts [seqs [str "//"; iauthority; ipath]; ipathWithoutAuthority];
        iquery; Eos].

End Grammar.

Import Grammar.

(** ** Components (lines 80-344 of [lib/index.js]) *)

(** What a call can throw: [Error(message)] of [createParser], and the
    [TypeError] of a method call on [undefined]. *)
Inductive exn : Type :=
| Error (message : string)
| TypeError.

Inductive result (A : Type) : Type :=
| Ok (a : A)
| Throw (e : exn).
Arguments Ok {A} a.
Arguments Throw {A} e.

Definition bind {A B : Type} (x : result A) (f : A → result B) : result B :=
  match x with
  | Ok a => f a
  | Throw e => Throw e
  end.

Notation "'let*' x ':=' c 'in' k" := (bind c (λ x, k))
  (at level 10, x name, c at level 100, k at level 200).

(** Reading a property of a components object: a property that is missing
    reads as [undefined], like one that holds [undefined]. *)
Definition prop (o : captures) (key : string) : option string :=
  default None (o !! key).

(** The same, on the outcome of a parser. *)
Definition propOf (r : result captures) (key : string) : result (option string) :=
  match r with
  | Ok o => Ok (prop o key)
  | Throw e => Throw e
  end.

Record Strategy : Type := {
  parseAbsolute : string → result captures;
  parseReference : string → result captures;
  parse : string → result captures;
  normalizePath : string → string;
  normalizeQuery : string → string;
  normalizeFragment : string → string
}.

(** A string is truthy when it is defined and not empty. *)
Definition truthy (v : option string) : bool :=
  match v with
  | Some (String _ _) => true
  | _ => false
  end.

Definition mergePaths (path : string) (base : captures) : result string :=
  if truthy (prop base "authority") && bool_decide (prop base "path" = Some "")
  then Ok ("/" +:+ path)
  else
    match prop base "path" with
    | None => Throw TypeError
    | Some basePath =>
        match lastIndexOf "/" basePath with
        | None => Ok path
        | Some position => Ok (slice2 basePath 0 (position + 1) +:+ path)
        end
    end.

Definition isNoOpSegment : regex :=
  alts [seqs [Bos; opt (lit "."); lit "."; lit "/"];
        seqs [Bos; lit "."; opt (lit "."); Eos]].
Definition isSlashDotSegment : regex :=
  seqs [Bos; lit "/"; lit "."; alts [lit "/"; Eos]].
Definition isUpSegment : regex :=
  seqs [Bos; lit "/"; lit "."; lit "."; alts [lit "/"; Eos]].

Definition removeSegment (path : string) : string :=
  match indexOf "/" 1 path with
  | None => ""
  | Some position => "/" +:+ slice path (position + 1)
  end.

Definition replaceSegmentWithSlash (path : string) : string :=
  match indexOf "/" 1 path with
  | None => "/"
  | Some position => "/" +:+ slice path (position + 1)
  end.

Definition removeLastSegment (path : string) : string :=
  match lastIndexOf "/" path with
  | None => path
  | Some position => slice2 path 0 position
  end.

Definition getSegment (path : string) : string :=
  match indexOf "/" 1 path with
  | None => path
  | Some position => slice2 path 0 position
  end.

(** One turn of the [while] loop of [removeDotSegments], on the pair of the
    remaining path and the output. *)
Definition removeDotSegmentsStep (path output : string) : string * string :=
  if test isNoOpSegment path then (removeSegment path, output)
  else if test isSlashDotSegment path then (replaceSegmentWithSlash path, output)
  else if test isUpSegment path then (replaceSegmentWithSlash path, removeLastSegment output)
  else (removeSegment path, output +:+ getSegment path).

(** The [while] loop; every turn shortens the path, so [n] turns are enough
    for a path of [n] characters (see [removeDotSegmentsLoop_enough]). *)
Fixpoint removeDotSegmentsLoop (n : nat) (path output : string) : string :=
  match n with
  | 0 => output
  | S n' =>
      if 0 <? String.length path
      then let '(path', output') := removeDotSegmentsStep path output in
           removeDotSegmentsLoop n' path' output'
      else output
  end.

Definition removeDotSegments (path : string) : string :=
  removeDotSegmentsLoop (String.length path) path "".

Definition composeIdentifier (strategy : Strategy) (components : captures) : result string :=
  match prop components "scheme" with
  | None => Throw TypeError
  | Some scheme =>
      let resolved := toLowerCase scheme +:+ ":" in
      let resolved := resolved +:+
        match prop components "authority" with
        | None => ""
        | Some authority => "//" +:+ toLowerCase authority
        end in
      match prop components "path" with
      | None => Throw TypeError
      | Some path =>
          let resolved := resolved +:+ normalizePath strategy path in
          let resolved := resolved +:+
            match prop components "query" with
            | None => ""
            | Some query => "?" +:+ normalizeQuery strategy query
            end in
          let resolved := resolved +:+
            match prop components "fragment" with
            | None => ""
            | Some fragment => "#" +:+ normalizeFragment strategy fragment
            end in
          Ok resolved
      end
  end.

Definition percentEncoded : regex := pctEncoded.

Definition percentEncodedToChar (isAllowed : string → bool) (match_ : string) : string :=
  let charCode := default 0 (parseInt16 (slice match_ 1)) in
  let char := fromCharCode charCode in
  if isAllowed char then char else toUpperCase match_.

Definition isAllowedUnescapedInPath : string → bool :=
  test (alts [unreserved; subDelims; Chr (oneOf ":@")]).
Definition isAllowedUnescapedInIPath : string → bool :=
  test (alts [iunreserved; subDelims; Chr (oneOf ":@")]).

(** [normalizePath(isAllowed)] of the source; [normalizePath] itself is the
    field of [Strategy] here. *)
Definition normalizePathWith (isAllowed : string → bool) (segment : string) : string :=
  replaceAll percentEncoded (percentEncodedToChar isAllowed) (removeDotSegments segment).

Definition isAllowedUnescapedInQuery : string → bool :=
  test (alts [unreserved; subDelims; Chr (oneOf ":@/?")]).
Definition isAllowedUnescapedInIQuery : string → bool :=
  test (alts [iunreserved; subDelims; Chr (oneOf ":@/?")]).

(** [normalizeQuery(isAllowed)] of the source. *)
Definition normalizeQueryWith (isAllowed : string → bool) (query : string) : string :=
  replaceAll percentEncoded (percentEncodedToChar isAllowed) query.

(** API *)
Definition isUri : string → bool := test uri.
Definition isUriReference : string → bool := test uriReference.
Definition isAbsoluteUri : string → bool := test absoluteUri.

Definition isIri : string → bool := test iri.
Definition isIriReference : string → bool := test iriReference.
Definition isAbsoluteIri : string → bool := test absoluteIri.

Definition createParser (pattern : regex) (type : string) (value : string)
    : result captures :=
  match exec pattern value with
  | None => Throw (Error ("Invalid " +:+ type +:+ ": " +:+ value))
  | Some groups =>
      let groups :=
        if bool_decide (prop groups "authority" = None)
        then <["path" := prop groups "path2"]> groups
        else groups in
      Ok (delete "path2" groups)
  end.

Definition parseUri := createParser uri "URI".
Definition parseUriReference := createParser uriReference "URI-reference".
Definition parseAbsoluteUri := createParser absoluteUri "absolute-URI".

Definition parseIri := createParser iri "IRI".
Definition parseIriReference := createParser iriReference "IRI-reference".
Definition parseAbsoluteIri := createParser absoluteIri "absolute-IRI".

Module strategies.
Definition uri : Strategy := {|
  parseAbsolute := parseAbsoluteUri;
  parseReference := parseUriReference;
  parse := parseUri;
  normalizePath := normalizePathWith isAllowedUnescapedInPath;
  normalizeQuery := normalizeQueryWith isAllowedUnescapedInQuery;
  normalizeFragment := normalizeQueryWith isAllowedUnescapedInQuery
|}.
Definition iri : Strategy := {|
  parseAbsolute := parseAbsoluteIri;
  parseReference := parseIriReference;
  parse := parseIri;
  normalizePath := normalizePathWith isAllowedUnescapedInIPath;
  normalizeQuery := normalizeQueryWith isAllowedUnescapedInIQuery;
  normalizeFragment := normalizeQueryWith isAllowedUnescapedInIQuery
|}.
End strategies.

Definition resolveReference (strategy : Strategy) (reference base : string)
    : result string :=
  let* resolvedComponents := parseReference strategy reference in
  let* resolvedComponents :=
    if bool_decide (prop resolvedComponents "scheme" = None) then
      let* baseComponents := parseAbsolute strategy base in
      let resolvedComponents :=
        <["scheme" := prop baseComponents "scheme"]> resolvedComponents in
      if bool_decide (prop resolvedComponents "authority" = None) then
        let resolvedComponents :=
          <["authority" := prop baseComponents "authority"]> resolvedComponents in
        if bool_decide (prop resolvedComponents "path" = Some "") then
          let resolvedComponents :=
            <["path" := prop baseComponents "path"]> resolvedComponents in
          Ok (if bool_decide (prop resolvedComponents "query" = None)
              then <["query" := prop baseComponents "query"]> resolvedComponents
              else resolvedComponents)
        else
          match prop resolvedComponents "path" with
          | None => Throw TypeError
          | Some path =>
              if negb (startsWith "/" path) then
                let* merged := mergePaths path baseComponents in
                Ok (<["path" := Some merged]> resolvedComponents)
              else Ok resolvedComponents
          end
      else Ok resolvedComponents
    else Ok resolvedComponents in
  composeIdentifier strategy resolvedComponents.

Definition toAbsolute (strategy : Strategy) (identifier : string) : result string :=
  let* components := parse strategy identifier in
  composeIdentifier strategy (delete "fragment" components).

Definition normalize (strategy : Strategy) (identifier : string) : result string :=
  let* components := parse strategy identifier in
  composeIdentifier strategy components.

Definition toAbsoluteUri := toAbsolute strategies.uri.
Definition normalizeUri := normalize strategies.uri.
Definition resolveUri := resolveReference strategies.uri.

(** The [while] loop of [toRelative], which takes fewer turns than
    [fromSegments] has elements (see [commonPrefix_enough]). *)
Fixpoint commonPrefix (n : nat) (fromSegments toSegments : list string)
    (position : nat) : nat :=
  match n with
  | 0 => position
  | S n' =>
      if bool_decide (fromSegments !! position = toSegments !! position)
         && (position <? length fromSegments - 1)
         && (position <? length toSegments - 1)
      then commonPrefix n' fromSegments toSegments (position + 1)
      else position
  end.

Definition toRelative (strategy : Strategy) (uri relativeTo : string) : result string :=
  let* fromUri := parseAbsolute strategy uri in
  let* toUri := parse strategy relativeTo in
  if bool_decide (prop toUri "scheme" ≠ prop fromUri "scheme") then Ok relativeTo
  else if bool_decide (prop toUri "authority" ≠ prop fromUri "authority") then Ok relativeTo
  else
    match prop fromUri "path", prop toUri "path" with
    | Some fromPath, Some toPath =>
        let result :=
          if bool_decide (fromPath = toPath) then ""
          else
            let fromSegments := split "/" fromPath in
            let toSegments := split "/" toPath in
            let position :=
              commonPrefix (length fromSegments) fromSegments toSegments 0 in
            let segments :=
              replicate (length fromSegments - (position + 1)) ".."
              ++ List.skipn position toSegments in
            join "/" segments in
        let result :=
          match prop toUri "query" with
          | None => result
          | Some query => result +:+ "?" +:+ query
          end in
        let result :=
          match prop toUri "fragment" with
          | None => result
          | Some fragment => result +:+ "#" +:+ fragment
          end in
        Ok result
    | _, _ => Throw TypeError
    end.

Definition toRelativeUri := toRelative strategies.uri.

(** The IRI functions, on identifiers whose code points are below 256. *)
Definition toAbsoluteIri := toAbsolute strategies.iri.
Definition normalizeIri := normalize strategies.iri.
Definition resolveIri := resolveReference strategies.iri.
Definition toRelativeIri := toRelative strategies.iri.

(** * Vocabulary of the properties *)

(** ** Strings *)

(** All characters of a string are in a class. *)
Fixpoint allChars (Q : ascii → bool) (s : string) : bool :=
  match s with
  | "" => true
  | String c s' => Q c && allChars Q s'
  end.

(** Every code unit is [ascii_of_nat n] for some [n < 256], so a property
    of all characters can be checked by enumeration. *)
Definition allAscii : list ascii := ascii_of_nat <$> seq 0 256.

(** A percent-encoded triplet. *)
Definition triplet (h1 h2 : ascii) : string := String "%" (String h1 (String h2 "")).

(** Any character but [#]. *)
Definition notHash (c : ascii) : bool := negb (Ascii.eqb c "#").

(** What follows the first [#] of a string, if there is one. *)
Definition fragmentOf (s : string) : option string :=
  (λ i, drop (S i) s) <$> find "#" s.

(** ** Matches *)

(** What a successful run of the matcher on a pattern amounts to:
    [matches len r s e s' e'] when [r] consumes the front of [s] up to
    [s'] and turns the captures [e] into [e']. *)
Inductive matches (len : nat) :
    regex → string → captures → string → captures → Prop :=
| matches_empty s e : matches len Empty s e s e
| matches_chr p c s e : p c = true → matches len (Chr p) (String c s) e s e
| matches_bos s e : String.length s = len → matches len Bos s e s e
| matches_eos e : matches len Eos "" e "" e
| matches_seq a b s e s1 e1 s2 e2 :
    matches len a s e s1 e1 → matches len b s1 e1 s2 e2 →
    matches len (Seq a b) s e s2 e2
| matches_alt_l a b s e s' e' :
    matches len a s e s' e' → matches len (Alt a b) s e s' e'
| matches_alt_r a b s e s' e' :
    matches len b s e s' e' → matches len (Alt a b) s e s' e'
| matches_group g a s e s' e' :
    matches len a s e s' e' →
    matches len (Group g a) s e s'
      (<[g := Some (take (String.length s - String.length s') s)]> e')
| matches_notahead a s e :
    run len a accept s e = None → matches len (NotAhead a) s e s e
| matches_quant_done min max greedy a s e :
    min = 0 ∨ max = Some 0 →
    matches len (Quant min max greedy a) s e s e
| matches_quant_iter min max greedy a s e s1 e1 s2 e2 :
    max ≠ Some 0 →
    matches len a s (reset (names a) e) s1 e1 →
    (min = 0 → String.length s1 ≠ String.length s) →
    matches len (Quant (pred min) (pred <$> max) greedy a) s1 e1 s2 e2 →
    matches len (Quant min max greedy a) s e s2 e2.

(** The matcher [step] of the pattern [r] only succeeds through a match of
    [r] followed by a success of the continuation. *)
Definition sound (len : nat) (step : cont → cont) (r : regex) : Prop :=
  ∀ k s e res, step k s e = Some res →
    ∃ s' e', matches len r s e s' e' ∧ k s' e' = Some res.

(** A matcher only ever continues on a suffix of its input. *)
Definition local (step : cont → cont) : Prop :=
  ∀ k k' s e,
    (∀ s' e', String.length s' ≤ String.length s → k s' e' = k' s' e') →
    step k s e = step k' s e.

(** The continuation that rejects. *)
Definition failure : cont := λ _ _, None.

(** The group [g] took part in the match. *)
Definition isCaptured (e : captures) (g : string) : Prop :=
  ∃ v, e !! g = Some (Some v).

(** The ways a match of the pattern can go: for each one the groups it
    captures for sure and the groups it can touch at all.  Alternatives
    that agree are merged. *)
Fixpoint outcomes (r : regex) : list (list string * list string) :=
  match r with
  | Empty | Chr _ | Bos | Eos | NotAhead _ => [([], [])]
  | Quant _ _ _ a => [([], names a)]
  | Seq a b =>
      remove_dups
        (oa ← outcomes a; ob ← outcomes b;
         [(filter (λ g, g ∉ ob.2) oa.1 ++ ob.1, oa.2 ++ ob.2)])
  | Alt a b => remove_dups (outcomes a ++ outcomes b)
  | Group g a => (λ o, (g :: o.1, g :: o.2)) <$> outcomes a
  end.

(** Every character class of the pattern is included in [Q]. *)
Fixpoint classes (Q : ascii → bool) (r : regex) : bool :=
  match r with
  | Empty | Bos | Eos | NotAhead _ => true
  | Chr p => forallb (λ c, implb (p c) (Q c)) allAscii
  | Seq a b | Alt a b => classes Q a && classes Q b
  | Quant _ _ _ a | Group _ a => classes Q a
  end.

(** Every group of the pattern that [G] selects only has classes
    included in [Q]. *)
Fixpoint captured (Q : ascii → bool) (G : string → bool) (r : regex) : bool :=
  match r with
  | Empty | Chr _ | Bos | Eos | NotAhead _ => true
  | Seq a b | Alt a b => captured Q G a && captured Q G b
  | Quant _ _ _ a => captured Q G a
  | Group g a => (if G g then classes Q a else true) && captured Q G a
  end.

(** The captures that [G] selects consist of characters of [Q]. *)
Definition capturesIn (Q : ascii → bool) (G : string → bool) (e : captures) : Prop :=
  ∀ g v, G g = true → e !! g = Some (Some v) → allChars Q v = true.

(** ** Components *)

(** What the components of an absolute identifier do satisfy. *)
Definition absoluteComponents (c : captures) : Prop :=
  is_Some (prop c "scheme")
  ∧ is_Some (prop c "path")
  ∧ c !! "fragment" = None
  ∧ (is_Some (prop c "authority") → is_Some (prop c "host"))
  ∧ (prop c "authority" = None →
     prop c "host" = None ∧ prop c "userinfo" = None ∧ prop c "port" = None).

(** The groups other than the fragment. *)
Definition notFragment (g : string) : bool := negb (String.eqb g "fragment").

(** Components in which nothing but the fragment can hold a [#]. *)
Definition hashFree (c : captures) : Prop :=
  ∀ g v, g ≠ "fragment" → prop c g = Some v → allChars notHash v = true.

(** The scan of [replaceAll(percentEncoded, f)], written out on the
    string: a [%] followed by two hexadecimal digits is replaced by [f] of
    the triplet, and the scan goes on behind it; any other character is
    kept. *)
Fixpoint replaceTriplets (f : string → string) (s : string) : string :=
  match s with
  | "" => ""
  | String c s' =>
      match s' with
      | String h1 (String h2 rest) =>
          if Ascii.eqb "%" c && isHexdig h1 && isHexdig h2
          then f (String c (String h1 (String h2 ""))) +:+ replaceTriplets f rest
          else String c (replaceTriplets f s')
      | _ => String c (replaceTriplets f s')
      end
  end.

(** Membership of a name in a list of names that is written out. *)
Ltac names_in := by repeat first [apply list_elem_of_here | apply list_elem_of_further].
Ltac names_out :=
  let H := fresh in
  intros H; repeat (apply elem_of_cons in H as [H|H]; [discriminate H|]);
  by apply elem_of_nil in H.

(** ** Outcomes of the API *)

(** The error that [createParser] throws for [type] and [value]. *)
Definition invalid (type value : string) : exn :=
  Error ("Invalid " +:+ type +:+ ": " +:+ value).

(** What every parser returns: a path and no [path2]; a host exactly
    when there is an authority, and neither userinfo nor port without one;
    and a scheme when the production requires it. *)
Definition components (withScheme : bool) (c : captures) : Prop :=
  (withScheme = true → is_Some (prop c "scheme"))
  ∧ is_Some (prop c "path")
  ∧ c !! "path2" = None
  ∧ (is_Some (prop c "authority") → is_Some (prop c "host"))
  ∧ (prop c "authority" = None →
     prop c "host" = None ∧ prop c "userinfo" = None ∧ prop c "port" = None).

(** A way for a match to go that [createParser] can turn into components:
    with authority, host and path, or with [path2] and nothing of the
    authority. *)
Definition branchOk (withScheme : bool) (o : list string * list string) : bool :=
  (implb withScheme (bool_decide ("scheme" ∈ o.1)))
  && ((bool_decide ("authority" ∈ o.1) && bool_decide ("host" ∈ o.1)
       && bool_decide ("path" ∈ o.1))
      || (bool_decide ("path2" ∈ o.1)
          && forallb (λ g, bool_decide (g ∉ o.2))
               ["authority"; "userinfo"; "host"; "port"])).

(** The pattern can only match at the start of the input. *)
Fixpoint startsAtBos (r : regex) : bool :=
  match r with
  | Bos => true
  | Seq a _ | Group _ a => startsAtBos a
  | Alt a b => startsAtBos a && startsAtBos b
  | _ => false
  end.

(** ** Components and the text they come from *)

(** [s] begins with [p]. *)
Fixpoint beginsWith (p s : string) : bool :=
  match p, s with
  | "", _ => true
  | String a p', String b s' => Ascii.eqb a b && beginsWith p' s'
  | _, "" => false
  end.

(** The components written back with their delimiters, as they were read:
    nothing is normalised. *)
Definition recompose (c : captures) : string :=
  match prop c "scheme" with Some scheme => scheme +:+ ":" | None => "" end
  +:+ match prop c "authority" with Some authority => "//" +:+ authority | None => "" end
  +:+ default "" (prop c "path")
  +:+ match prop c "query" with Some query => "?" +:+ query | None => "" end
  +:+ match prop c "fragment" with Some fragment => "#" +:+ fragment | None => "" end.

(** The shape that the six productions share: a head that reads the scheme,
    the hierarchical part, the query, and a tail that reads the fragment, if
    the production has one, up to the end of the input. *)
Definition production (head : regex → regex) (hier query tail : regex) : regex :=
  Seq Bos (head (Seq hier (Seq query tail))).

Definition schemeHead (rest : regex) : regex := Seq scheme (Seq (lit ":") rest).
Definition optionalSchemeHead (rest : regex) : regex :=
  Seq (Alt (Seq scheme (Seq (lit ":") Empty)) Empty) rest.

Definition hierPart (authorityBody pathBody path2Body : regex) : regex :=
  Alt (Seq (Seq (lit "/") (Seq (lit "/") Empty))
         (Seq (Group "authority" authorityBody) (Seq (Group "path" pathBody) Empty)))
      (Group "path2" (Seq (NotAhead (Seq (lit "/") (Seq (lit "/") Empty))) path2Body)).

Definition optionalPart (mark : ascii) (name : string) (body : regex) : regex :=
  Quant 0 (Some 1) true (Seq (lit mark) (Seq (Group name body) Empty)).

(** The characters of a URI: unreserved, sub-delimiters, the general
    delimiters and the percent sign; and those of an IRI, where the
    unreserved characters are those of [iunreserved] and a query can hold
    the characters of [iprivate] besides. *)
Definition isUriChar (c : ascii) : bool :=
  isUnreserved c || isSubDelim c || oneOf ":/?#[]@%" c.
Definition isIriChar (c : ascii) : bool :=
  isIunreserved c || isIprivate c || isSubDelim c || oneOf ":/?#[]@%" c.

(** ** Dot segments *)

(** [s] is the string [p]. *)
Fixpoint sameAs (p s : string) : bool :=
  match p, s with
  | "", "" => true
  | String a p', String b s' => Ascii.eqb a b && sameAs p' s'
  | _, _ => false
  end.

Definition isDotSegment (x : string) : bool := sameAs "." x || sameAs ".." x.

(** No segment of the path, as [split] on [/] gives them, is [.] or [..]. *)
Definition dotFree (path : string) : bool :=
  forallb (λ x, negb (isDotSegment x)) (split "/" path).

(** The first segment of a path, up to its first [/], and what follows
    that segment, from the [/] on. *)
Definition firstSegment (s : string) : string :=
  match find "/" s with Some i => take i s | None => s end.
Definition afterFirst (s : string) : string :=
  match find "/" s with Some i => drop i s | None => "" end.

(** Any character but [/]. *)
Definition notSlash (c : ascii) : bool := negb (Ascii.eqb c "/").

(** Any character but [%]. *)
Definition notPercent (c : ascii) : bool := negb (Ascii.eqb "%" c).

(** Every [%] of the string is followed by two hexadecimal digits. *)
Fixpoint wellEncoded (s : string) : bool :=
  match s with
  | "" => true
  | String c s' =>
      if Ascii.eqb "%" c then
        match s' with
        | String h1 (String h2 rest) => isHexdig h1 && isHexdig h2 && wellEncoded rest
        | _ => false
        end
      else wellEncoded s'
  end.

(** ** Normal forms *)

(** A component that is absent, or in lower case; and one that is absent,
    or without [%]. *)
Definition lowerCase (v : option string) : bool :=
  match v with Some x => bool_decide (toLowerCase x = x) | None => true end.
Definition plain (v : option string) : bool :=
  match v with Some x => allChars notPercent x | None => true end.

(** Components that normalisation has nothing to do on: scheme and
    authority in lower case, a path without dot segments, and no [%] in
    path, query and fragment. *)
Definition normalComponents (c : captures) : bool :=
  lowerCase (prop c "scheme") && lowerCase (prop c "authority")
  && from_option dotFree true (prop c "path")
  && plain (prop c "path") && plain (prop c "query") && plain (prop c "fragment").

(** ** Components read off the text *)

(** Any character but those of [cs]. *)
Definition noneOf (cs : string) (c : ascii) : bool := negb (oneOf cs c).

(** The longest prefix of [s] whose characters are in [Q], and the rest. *)
Fixpoint span (Q : ascii → bool) (s : string) : string * string :=
  match s with
  | "" => ("", "")
  | String c s' =>
      if Q c then let '(a, b) := span Q s' in (String c a, b) else ("", s)
  end.

(** Scheme, authority, path, query and fragment of an identifier that has
    a scheme, read off the text at its delimiters: the scheme ends at the
    first [:]; an authority is there when [//] follows, and ends before the
    next [/], [?] or [#]; the path ends before the next [?] or [#]; a query
    is there when [?] follows, and ends before the next [#]; a fragment is
    what follows that [#]. *)
Definition splitAuthority (rest : string) : option string * string :=
  if beginsWith "//" rest
  then let '(authority, rest) := span (noneOf "/?#") (drop 2 rest) in (Some authority, rest)
  else (None, rest).
Definition splitQuery (rest : string) : option string * string :=
  if startsWith "?" rest
  then let '(query, rest) := span (noneOf "#") (drop 1 rest) in (Some query, rest)
  else (None, rest).
Definition splitFragment (rest : string) : option string :=
  if startsWith "#" rest then Some (drop 1 rest) else None.
Definition splitIdentifier (s : string)
    : option string * option string * option string * option string * option string :=
  let '(scheme, rest) := span (noneOf ":") s in
  let '(authority, rest) := splitAuthority (drop 1 rest) in
  let '(path, rest) := span (noneOf "?#") rest in
  let '(query, rest) := splitQuery rest in
  (Some scheme, authority, Some path, query, splitFragment rest).

(** The same five components of what a parser returns. *)
Definition five (c : captures)
    : option string * option string * option string * option string * option string :=
  (prop c "scheme", prop c "authority", prop c "path", prop c "query", prop c "fragment").

(** The bodies of the groups named [g] in a pattern. *)
Fixpoint bodies (g : string) (r : regex) : list regex :=
  match r with
  | Empty | Chr _ | Bos | Eos | NotAhead _ => []
  | Seq a b | Alt a b => bodies g a ++ bodies g b
  | Quant _ _ _ a => bodies g a
  | Group h a => (if decide (h = g) then [a] else []) ++ bodies g a
  end.

(** Empty, or with a leading [/]. *)
Definition abEmpty (p : string) : bool :=
  match p with "" => true | String c _ => Ascii.eqb c "/" end.

(** ** Patterns that accept more *)

(** [below true r r']: the pattern [r'] is [r] with larger classes, more
    alternatives, or optional parts put in front of the parts of a
    sequence; [below false r r'] is the converse, as needed under a
    negative lookahead. *)
Fixpoint below (pos : bool) (r r' : regex) {struct r'} : bool :=
  match r' with
  | Empty => match r with Empty => true | _ => false end
  | Bos => match r with Bos => true | _ => false end
  | Eos => match r with Eos => true | _ => false end
  | Chr p' =>
      match r with
      | Chr p =>
          forallb (λ c, if pos then implb (p c) (p' c) else implb (p' c) (p c)) allAscii
      | _ => false
      end
  | Seq a' b' =>
      if match r with
         | Seq a b => if below pos a a' then below pos b b' else false
         | _ => false
         end
      then true
      else if pos
      then match a' with Quant 0 _ _ _ => below pos r b' | _ => false end
      else false
  | Alt a' b' =>
      if match r with
         | Alt a b => if below pos a a' then below pos b b' else false
         | _ => false
         end
      then true
      else if pos
      then if below pos r a' then true else below pos r b'
      else false
  | Quant min' max' _ a' =>
      match r with
      | Quant min max _ a =>
          if (min =? min') && bool_decide (max = max') then below pos a a' else false
      | _ => false
      end
  | Group _ a' => match r with Group _ a => below pos a a' | _ => false end
  | NotAhead a' => match r with NotAhead a => below (negb pos) a a' | _ => false end
  end.

(** The continuation [k'] succeeds wherever [k] does. *)
Definition weaker (k k' : cont) : Prop :=
  ∀ s e e', is_Some (k s e) → is_Some (k' s e').

(** The body of the authority: an optional userinfo with its [@], the
    host, and an optional port behind its [:]. *)
Definition authorityBody (userinfoBody hostBody portBody : regex) : regex :=
  Seq (Quant 0 (Some 1) true (Seq (Group "userinfo" userinfoBody) (Seq (lit "@") Empty)))
    (Seq (Group "host" hostBody)
       (Seq (Quant 0 (Some 1) true (Seq (lit ":") (Seq (Group "port" portBody) Empty)))
          Empty)).

(** Userinfo, host and port written back with their delimiters. *)
Definition recomposeAuthority (c : captures) : string :=
  match prop c "userinfo" with Some userinfo => userinfo +:+ "@" | None => "" end
  +:+ default "" (prop c "host")
  +:+ match prop c "port" with Some port => ":" +:+ port | None => "" end.

(** ** Percent-encoding normalisation by permitted sets *)

(** The characters that a path leaves unescaped, and those that a query or
    a fragment leaves unescaped, over the unreserved characters of the
    alphabet at hand. *)
Definition unescapedInPath (unreservedChar : ascii → bool) (c : ascii) : bool :=
  unreservedChar c || isSubDelim c || oneOf ":@" c.
Definition unescapedInQuery (unreservedChar : ascii → bool) (c : ascii) : bool :=
  unreservedChar c || isSubDelim c || oneOf ":@/?" c.

(** The character that two hexadecimal digits encode. *)
Definition decoded (h1 h2 : ascii) : ascii :=
  ascii_of_nat (16 * default 0 (hexValue h1) + default 0 (hexValue h2)).

(** The string with every percent-encoded triplet replaced: by the
    character it encodes when that character is [permitted], by the
    triplet with its digits in upper case otherwise. *)
Fixpoint normalizeTriplets (permitted : ascii → bool) (s : string) : string :=
  match s with
  | "" => ""
  | String c s' =>
      match s' with
      | String h1 (String h2 rest) =>
          if Ascii.eqb "%" c && isHexdig h1 && isHexdig h2
          then (if permitted (decoded h1 h2)
                then String (decoded h1 h2) ""
                else triplet (upper h1) (upper h2))
               +:+ normalizeTriplets permitted rest
          else String c (normalizeTriplets permitted s')
      | _ => String c (normalizeTriplets permitted s')
      end
  end.

(** The identifier with the components [c] in which scheme and authority
    are in lower case, the dot segments of the path are removed, and each
    of path, query and fragment has its triplets normalised by the set of
    that component. *)
Definition normalized (unreservedChar : ascii → bool) (c : captures) : string :=
  toLowerCase (default "" (prop c "scheme")) +:+ ":"
  +:+ match prop c "authority" with
      | Some authority => "//" +:+ toLowerCase authority
      | None => ""
      end
  +:+ normalizeTriplets (unescapedInPath unreservedChar)
        (removeDotSegments (default "" (prop c "path")))
  +:+ match prop c "query" with
      | Some query => "?" +:+ normalizeTriplets (unescapedInQuery unreservedChar) query
      | None => ""
      end
  +:+ match prop c "fragment" with
      | Some fragment => "#" +:+ normalizeTriplets (unescapedInQuery unreservedChar) fragment
      | None => ""
      end.

(** * Properties *)

(** ** Strings *)

Module JsStringFacts.

Lemma app_nil_l (s : string) : "" +:+ s = s.
Proof. reflexivity. Qed.

Lemma app_cons (c : ascii) (a b : string) : String c a +:+ b = String c (a +:+ b).
Proof. reflexivity. Qed.

Lemma app_nil_r (s : string) : s +:+ "" = s.
Proof. induction s as [|c s IH]; [done|]. by rewrite app_cons, IH. Qed.

Lemma app_assoc (a b c : string) : (a +:+ b) +:+ c = a +:+ (b +:+ c).
Proof. induction a as [|x a IH]; [done|]. by rewrite !app_cons, IH. Qed.

Lemma length_app (a b : string) :
  String.length (a +:+ b) = String.length a + String.length b.
Proof. induction a as [|x a IH]; [done|]. rewrite app_cons. simpl. by rewrite IH. Qed.

Lemma take_app (a b : string) : take (String.length a) (a +:+ b) = a.
Proof. induction a as [|x a IH]; [by destruct b|]. rewrite app_cons. simpl. by rewrite IH. Qed.

Lemma drop_app (a b : string) : drop (String.length a) (a +:+ b) = b.
Proof. induction a as [|x a IH]; [by destruct b|]. rewrite app_cons. simpl. by rewrite IH. Qed.

Lemma take_drop (n : nat) (s : string) : take n s +:+ drop n s = s.
Proof.
  revert s. induction n as [|n IH]; intros [|c s]; simpl; try done.
  by rewrite app_cons, IH.
Qed.

Lemma length_drop (n : nat) (s : string) :
  String.length (drop n s) = String.length s - n.
Proof. revert s. induction n as [|n IH]; intros [|c s]; simpl; auto. Qed.

Lemma length_take (n : nat) (s : string) :
  String.length (take n s) = n `min` String.length s.
Proof. revert s. induction n as [|n IH]; intros [|c s]; simpl; auto. Qed.

(** The part of [w +:+ s'] that a matcher consumed to reach [s']. *)
Lemma consumed_app (w s' : string) :
  take (String.length (w +:+ s') - String.length s') (w +:+ s') = w.
Proof.
  rewrite length_app.
  replace (String.length w + String.length s' - String.length s')
    with (String.length w) by lia.
  apply take_app.
Qed.

Lemma allChars_app Q (a b : string) :
  allChars Q (a +:+ b) = allChars Q a && allChars Q b.
Proof.
  induction a as [|x a IH]; [done|].
  rewrite app_cons. simpl. rewrite IH. by rewrite andb_assoc.
Qed.

Lemma allChars_take Q n (s : string) : allChars Q s = true → allChars Q (take n s) = true.
Proof.
  revert s. induction n as [|n IH]; intros [|c s]; simpl; try done.
  intros [? ?]%andb_prop. rewrite IH by done. by rewrite andb_true_r.
Qed.

Lemma allChars_drop Q n (s : string) : allChars Q s = true → allChars Q (drop n s) = true.
Proof.
  revert s. induction n as [|n IH]; intros [|c s]; simpl; try done.
  intros [? ?]%andb_prop. by apply IH.
Qed.

Lemma allChars_map Q f (s : string) :
  (∀ c, Q c = true → Q (f c) = true) →
  allChars Q s = true → allChars Q (JsString.map f s) = true.
Proof.
  intros Hf. induction s as [|c s IH]; simpl; [done|].
  intros [? ?]%andb_prop. rewrite Hf, IH; done.
Qed.

Lemma elem_of_allAscii (c : ascii) : c ∈ allAscii.
Proof.
  unfold allAscii. apply list_elem_of_fmap. exists (nat_of_ascii c). split.
  - by rewrite ascii_nat_embedding.
  - apply elem_of_seq. pose proof (nat_ascii_bounded c). lia.
Qed.

Lemma forallb_allAscii (f : ascii → bool) :
  forallb f allAscii = true → ∀ c, f c = true.
Proof.
  intros H c. rewrite forallb_forall in H. apply H.
  apply list_elem_of_In, elem_of_allAscii.
Qed.

End JsStringFacts.

Import JsStringFacts.

(** ** The matcher *)

Module RegExpFacts.

(** A match consumes a prefix of the input. *)
Lemma matches_suffix len r s e s' e' :
  matches len r s e s' e' → ∃ w, s = w +:+ s'.
Proof.
  induction 1 as
    [s e|p c s e Hp|s e Hl|e|a b s e s1 e1 s2 e2 _ [w1 ->] _ [w2 ->]
    |a b s e s' e' _ IH|a b s e s' e' _ IH|g a s e s' e' _ IH|a s e _
    |min max greedy a s e _|min max greedy a s e s1 e1 s2 e2 _ _ [w1 ->] _ _ [w2 ->]];
    try (by exists ""); try done.
  - by exists (String c "").
  - exists (w1 +:+ w2). by rewrite app_assoc.
  - exists (w1 +:+ w2). by rewrite app_assoc.
Qed.

Lemma matches_length len r s e s' e' :
  matches len r s e s' e' → String.length s' ≤ String.length s.
Proof. intros [w ->]%matches_suffix. rewrite length_app. lia. Qed.

Section Soundness.
Context (len : nat).

Lemma repeatMatcher_sound a greedy k :
  sound len (run len a) a →
  ∀ n min max s e res,
    min + String.length s ≤ n →
    repeatMatcher (run len a) (names a) greedy k n min max s e = Some res →
    ∃ s' e', matches len (Quant min max greedy a) s e s' e' ∧ k s' e' = Some res.
Proof.
  intros Ha. induction n as [|n IH]; intros min max s e res Hn Hrun.
  { assert (min = 0) as -> by lia. simpl in Hrun.
    exists s, e. split; [constructor; auto|done]. }
  assert (Hiter : ∀ res',
    run len a
      (λ s' e',
         if (min =? 0) && (String.length s' =? String.length s) then None
         else repeatMatcher (run len a) (names a) greedy k n
                (pred min) (pred <$> max) s' e')
      s (reset (names a) e) = Some res' →
    max ≠ Some 0 →
    ∃ s' e', matches len (Quant min max greedy a) s e s' e' ∧ k s' e' = Some res').
  { intros res' Hres Hmax.
    apply Ha in Hres as (s1 & e1 & Hm & Hk).
    pose proof (matches_length _ _ _ _ _ _ Hm) as Hle.
    destruct ((min =? 0) && (String.length s1 =? String.length s)) eqn:Hc;
      [done|].
    apply andb_false_iff in Hc.
    apply IH in Hk as (s2 & e2 & Hm2 & Hk2).
    - exists s2, e2. split; [|done].
      eapply matches_quant_iter; eauto.
      intros ->. destruct Hc as [Hc|Hc]; [done|].
      by apply Nat.eqb_neq in Hc.
    - destruct Hc as [Hc|Hc]; apply Nat.eqb_neq in Hc; lia. }
  assert (Hskip : ∀ res', k s e = Some res' → min = 0 ∨ max = Some 0 →
    ∃ s' e', matches len (Quant min max greedy a) s e s' e' ∧ k s' e' = Some res').
  { intros res' Hk Hc. exists s, e. split; [by constructor|done]. }
  assert (Hbody : max ≠ Some 0 →
    (let iter :=
       run len a
         (λ s' e',
            if (min =? 0) && (String.length s' =? String.length s) then None
            else repeatMatcher (run len a) (names a) greedy k n
                   (pred min) (pred <$> max) s' e')
         s (reset (names a) e) in
     if 0 <? min then iter
     else if greedy then orElse iter (k s e) else orElse (k s e) iter) = Some res →
    ∃ s' e', matches len (Quant min max greedy a) s e s' e' ∧ k s' e' = Some res).
  { intros Hmax. cbv zeta.
    destruct (0 <? min) eqn:Hmin; [by auto|].
    apply Nat.ltb_ge in Hmin. assert (min = 0) as Hz by lia.
    destruct greedy; unfold orElse.
    - destruct (run len a _ s _) eqn:Hit; [intros [= <-]; by eauto|by eauto].
    - destruct (k s e) eqn:Hk; [intros [= <-]; by eauto|by eauto]. }
  simpl in Hrun. destruct max as [[|m]|]; [by eauto| |]; by apply Hbody.
Qed.

Lemma run_sound r : sound len (run len r) r.
Proof.
  induction r as [|p| | |a IHa b IHb|a IHa b IHb|min max greedy a IHa|g a IHa|a IHa];
    intros k s e res Hrun; simpl in Hrun.
  - exists s, e. split; [constructor|done].
  - destruct s as [|c s]; [done|]. destruct (p c) eqn:Hp; [|done].
    exists s, e. split; [by constructor|done].
  - destruct (String.length s =? len) eqn:Hl; [|done]. apply Nat.eqb_eq in Hl.
    exists s, e. split; [by constructor|done].
  - destruct s; [|done]. exists "", e. split; [constructor|done].
  - apply IHa in Hrun as (s1 & e1 & H1 & Hrun).
    apply IHb in Hrun as (s2 & e2 & H2 & Hk).
    exists s2, e2. split; [by econstructor|done].
  - unfold orElse in Hrun. destruct (run len a k s e) eqn:Hl.
    + injection Hrun as <-. apply IHa in Hl as (s' & e' & ? & ?).
      exists s', e'. split; [by apply matches_alt_l|done].
    + apply IHb in Hrun as (s' & e' & ? & ?).
      exists s', e'. split; [by apply matches_alt_r|done].
  - eapply repeatMatcher_sound; [done| |done]. lia.
  - apply IHa in Hrun as (s' & e' & ? & ?).
    eexists _, _. split; [by apply matches_group|done].
  - destruct (run len a accept s e) eqn:Hl; [done|].
    exists s, e. split; [by constructor|done].
Qed.
End Soundness.

(** A successful [exec] is a match of the pattern at some start index,
    from captures that are all [undefined]. *)
Lemma exec_matches r s e :
  exec r s = Some e →
  ∃ t t', matches (String.length s) r t (reset (names r) ∅) t' e.
Proof.
  unfold exec. generalize (String.length s) as len. intros len.
  induction s as [|c s IH]; simpl.
  - destruct (run len r accept "" _) as [[t' e']|] eqn:Hrun; [|done].
    intros [= <-]. apply run_sound in Hrun as (s1 & e1 & Hm & [= <- <-]). eauto.
  - destruct (run len r accept (String c s) _) as [[t' e']|] eqn:Hrun; [|by auto].
    intros [= <-]. apply run_sound in Hrun as (s1 & e1 & Hm & [= <- <-]). eauto.
Qed.

(** *** Which captures a match can and must set *)

Lemma lookup_reset gs (e : captures) g :
  reset gs e !! g = if decide (g ∈ gs) then Some None else e !! g.
Proof.
  induction gs as [|h gs IH]; [done|].
  change (reset (h :: gs) e) with (<[h := None]> (reset gs e)).
  destruct (decide (g ∈ h :: gs)) as [Hin|Hnin].
  - destruct (decide (h = g)) as [Heq|Hne].
    { rewrite Heq. by rewrite lookup_insert_eq. }
    rewrite lookup_insert_ne by done. rewrite IH.
    apply elem_of_cons in Hin as [?|?]; [congruence|]. by rewrite decide_True.
  - rewrite lookup_insert_ne by set_solver. rewrite IH.
    rewrite decide_False; [done|set_solver].
Qed.

(** A group that does not occur in the pattern keeps its capture. *)
Lemma matches_frame len r s e s' e' g :
  matches len r s e s' e' → g ∉ names r → e' !! g = e !! g.
Proof.
  induction 1 as
    [s e|p c s e Hp|s e Hl|e|a b s e s1 e1 s2 e2 _ IH1 _ IH2
    |a b s e s' e' _ IH|a b s e s' e' _ IH|h a s e s' e' _ IH|a s e _
    |min max greedy a s e _|min max greedy a s e s1 e1 s2 e2 _ _ IH1 _ _ IH2];
    simpl; intros Hg; try done.
  - rewrite IH2, IH1; set_solver.
  - apply IH. set_solver.
  - apply IH. set_solver.
  - rewrite lookup_insert_ne by set_solver. apply IH. set_solver.
  - rewrite IH2, IH1 by done. rewrite lookup_reset. by rewrite decide_False.
Qed.

Lemma matches_outcomes len r s e s' e' :
  matches len r s e s' e' →
  ∃ o, o ∈ outcomes r ∧ (∀ g, g ∈ o.1 → isCaptured e' g)
       ∧ (∀ g, g ∉ o.2 → e' !! g = e !! g).
Proof.
  revert s e s' e'.
  induction r as [|p| | |a IHa b IHb|a IHa b IHb|min max greedy a IHa|h a IHa|a IHa];
    intros s e s' e' Hm; simpl;
    try (exists ([], []); split; [by apply list_elem_of_singleton|];
         split; [by intros g ?%not_elem_of_nil|];
         intros g _; by apply (matches_frame _ _ _ _ _ _ g Hm), not_elem_of_nil).
  - inversion Hm as [| | | |? ? ? ? s1 e1 ? ? H1 H2| | | | | |]; subst.
    apply IHa in H1 as (oa & Hoa & Hmust1 & Hmay1).
    apply IHb in H2 as (ob & Hob & Hmust2 & Hmay2).
    exists (filter (λ g, g ∉ ob.2) oa.1 ++ ob.1, oa.2 ++ ob.2).
    split; [|split]; simpl.
    + apply elem_of_remove_dups, list_elem_of_bind. exists oa. split; [|done].
      apply list_elem_of_bind. exists ob. split; [|done].
      by apply list_elem_of_singleton.
    + intros g [[Hg1 Hg2]%list_elem_of_filter|Hg]%elem_of_app; [|by auto].
      destruct (Hmust1 g Hg2) as [v Hv]. exists v. by rewrite Hmay2.
    + intros g Hg. rewrite Hmay2, Hmay1; [done|set_solver..].
  - inversion Hm; subst.
    + apply IHa in H5 as (o & Ho & ? & ?). exists o.
      split; [|done]. apply elem_of_remove_dups. set_solver.
    + apply IHb in H5 as (o & Ho & ? & ?). exists o.
      split; [|done]. apply elem_of_remove_dups. set_solver.
  - exists ([], names a). split; [by apply list_elem_of_singleton|].
    split; [by intros g ?%not_elem_of_nil|].
    intros g Hg. by apply (matches_frame _ _ _ _ _ _ g Hm).
  - inversion Hm; subst.
    apply IHa in H5 as (o & Ho & Hmust & Hmay).
    exists (h :: o.1, h :: o.2). split; [|split]; simpl.
    + apply list_elem_of_fmap. by exists o.
    + intros g Hg. destruct (decide (h = g)) as [->|Hne].
      * eexists. by rewrite lookup_insert_eq.
      * unfold isCaptured. rewrite lookup_insert_ne by done.
        apply Hmust. by apply elem_of_cons in Hg as [?|?].
    + intros g Hg. rewrite lookup_insert_ne by set_solver. apply Hmay. set_solver.
  - inversion Hm; subst. exists ([], []).
    split; [by apply list_elem_of_singleton|].
    split; [by intros g ?%not_elem_of_nil|done].
Qed.

(** *** Which characters a match can consume and capture *)

Lemma matches_classes Q len r s e s' e' :
  matches len r s e s' e' → classes Q r = true →
  allChars Q (take (String.length s - String.length s') s) = true.
Proof.
  induction 1 as
    [s e|p c s e Hp|s e Hl|e|a b s e s1 e1 s2 e2 H1 IH1 H2 IH2
    |a b s e s' e' _ IH|a b s e s' e' _ IH|h a s e s' e' _ IH|a s e _
    |min max greedy a s e _|min max greedy a s e s1 e1 s2 e2 _ H1 IH1 _ H2 IH2];
    intros HQ; cbn [classes] in HQ; rewrite ?Nat.sub_diag; try done;
    try (by destruct s).
  - cbn [String.length].
    replace (S (String.length s) - String.length s) with 1 by lia. simpl.
    pose proof (forallb_allAscii _ HQ c) as Hc. cbv beta in Hc.
    rewrite Hp in Hc. simpl in Hc. by rewrite Hc.
  - apply andb_prop in HQ as [Ha Hb].
    specialize (IH1 Ha). specialize (IH2 Hb).
    apply matches_suffix in H1 as [w1 ->]. apply matches_suffix in H2 as [w2 ->].
    rewrite consumed_app in IH1, IH2. rewrite <- app_assoc, consumed_app.
    by rewrite allChars_app, IH1, IH2.
  - apply andb_prop in HQ as [Ha Hb]. auto.
  - apply andb_prop in HQ as [Ha Hb]. auto.
  - auto.
  - specialize (IH1 HQ). specialize (IH2 HQ).
    apply matches_suffix in H1 as [w1 ->]. apply matches_suffix in H2 as [w2 ->].
    rewrite consumed_app in IH1, IH2. rewrite <- app_assoc, consumed_app.
    by rewrite allChars_app, IH1, IH2.
Qed.

Lemma capturesIn_reset Q G gs e : capturesIn Q G e → capturesIn Q G (reset gs e).
Proof.
  intros He g v Hg. rewrite lookup_reset. destruct (decide (g ∈ gs)); [done|].
  by apply He.
Qed.

Lemma matches_captured Q G len r s e s' e' :
  matches len r s e s' e' → captured Q G r = true →
  capturesIn Q G e → capturesIn Q G e'.
Proof.
  induction 1 as
    [s e|p c s e Hp|s e Hl|e|a b s e s1 e1 s2 e2 H1 IH1 H2 IH2
    |a b s e s' e' _ IH|a b s e s' e' _ IH|h a s e s' e' H IH|a s e _
    |min max greedy a s e _|min max greedy a s e s1 e1 s2 e2 _ H1 IH1 _ H2 IH2];
    simpl; intros HQ He; try done.
  - apply andb_prop in HQ as [Ha Hb]. auto.
  - apply andb_prop in HQ as [Ha Hb]. auto.
  - apply andb_prop in HQ as [Ha Hb]. auto.
  - apply andb_prop in HQ as [Hh Ha]. intros g v Hg.
    destruct (decide (h = g)) as [->|Hne].
    + rewrite lookup_insert_eq. intros [= <-]. rewrite Hg in Hh.
      by eapply matches_classes.
    + rewrite lookup_insert_ne by done. by apply IH.
  - apply IH2; [done|]. apply IH1; [done|]. by apply capturesIn_reset.
Qed.

(** *** The bound on the iterations of a quantifier is enough *)

Lemma repeatMatcher_local step gs greedy :
  local step → ∀ n min max, local (λ k, repeatMatcher step gs greedy k n min max).
Proof.
  intros Hstep. induction n as [|n IH]; intros min max k k' s e Hk.
  - simpl. by apply Hk.
  - cbn [repeatMatcher].
    assert (Hiter :
      step (λ s' e',
              if (min =? 0) && (String.length s' =? String.length s) then None
              else repeatMatcher step gs greedy k n (pred min) (pred <$> max) s' e')
           s (reset gs e)
      = step (λ s' e',
              if (min =? 0) && (String.length s' =? String.length s) then None
              else repeatMatcher step gs greedy k' n (pred min) (pred <$> max) s' e')
           s (reset gs e)).
    { apply Hstep. intros s' e' Hs'.
      destruct ((min =? 0) && (String.length s' =? String.length s)); [done|].
      apply IH. intros s'' e'' Hs''. apply Hk. lia. }
    rewrite Hiter, (Hk s e) by lia. done.
Qed.

Lemma run_local len r : local (run len r).
Proof.
  induction r as [|p| | |a IHa b IHb|a IHa b IHb|min max greedy a IHa|g a IHa|a IHa];
    intros k k' s e Hk; cbn [run].
  - by apply Hk.
  - destruct s as [|c s]; [done|]. destruct (p c); [|done].
    apply Hk. simpl. lia.
  - destruct (String.length s =? len); [|done]. by apply Hk.
  - destruct s; [|done]. by apply Hk.
  - apply IHa. intros s' e' Hs'. apply IHb. intros s'' e'' Hs''. apply Hk. lia.
  - by rewrite (IHa k k'), (IHb k k').
  - by apply repeatMatcher_local.
  - apply IHa. intros s' e' Hs'. by apply Hk.
  - destruct (run len a accept s e); [done|]. by apply Hk.
Qed.

Lemma repeatMatcher_failure step gs greedy :
  local step → (∀ s e, step failure s e = None) →
  ∀ n min max s e, repeatMatcher step gs greedy failure n min max s e = None.
Proof.
  intros Hlocal Hstep. induction n as [|n IH]; intros min max s e; [done|].
  cbn [repeatMatcher].
  assert (Hiter :
    step (λ s' e',
            if (min =? 0) && (String.length s' =? String.length s) then None
            else repeatMatcher step gs greedy failure n (pred min) (pred <$> max) s' e')
         s (reset gs e) = None).
  { etrans; [|apply (Hstep s (reset gs e))]. apply Hlocal. intros s' e' _.
    destruct ((min =? 0) && (String.length s' =? String.length s)); [done|].
    apply IH. }
  rewrite Hiter. destruct max as [[|m]|]; try done; by destruct (0 <? min), greedy.
Qed.

Lemma run_failure len r s e : run len r failure s e = None.
Proof.
  revert s e.
  induction r as [|p| | |a IHa b IHb|a IHa b IHb|min max greedy a IHa|g a IHa|a IHa];
    intros s e; cbn [run]; try done.
  - destruct s as [|c s]; [done|]. by destruct (p c).
  - by destruct (String.length s =? len).
  - by destruct s.
  - etrans; [|apply (IHa s e)]. apply run_local. intros s' e' _. apply IHb.
  - by rewrite IHa, IHb.
  - apply repeatMatcher_failure; [apply run_local|done].
  - by destruct (run len a accept s e).
Qed.

(** With [min + String.length s] turns or more, the result is the same. *)
Lemma repeatMatcher_enough len a greedy k n min max s e :
  min + String.length s ≤ n →
  repeatMatcher (run len a) (names a) greedy k n min max s e
  = repeatMatcher (run len a) (names a) greedy k (min + String.length s) min max s e.
Proof.
  enough (Hgen : ∀ n m min max s e,
    min + String.length s ≤ n → min + String.length s ≤ m →
    repeatMatcher (run len a) (names a) greedy k n min max s e
    = repeatMatcher (run len a) (names a) greedy k m min max s e)
    by (intros; by apply Hgen).
  clear. 
  assert (Hstuck : ∀ m max e,
    repeatMatcher (run len a) (names a) greedy k m 0 max "" e = k "" e).
  { intros [|m] max e; [done|]. cbn [repeatMatcher].
    assert (Hiter :
      run len a
        (λ s' e',
           if (0 =? 0) && (String.length s' =? String.length "") then None
           else repeatMatcher (run len a) (names a) greedy k m (pred 0) (pred <$> max) s' e')
        "" (reset (names a) e) = None).
    { etrans; [|apply (run_failure len a "" (reset (names a) e))].
      apply run_local. intros s' e' Hs'. simpl in Hs'.
      assert (String.length s' = 0) as -> by lia. done. }
    rewrite Hiter. destruct max as [[|x]|]; try done;
      destruct greedy; simpl; try done; by destruct (k "" e). }
  induction n as [|n IH]; intros m min max s e Hn Hm.
  { assert (min = 0) as -> by lia. destruct s; [|simpl in Hn; lia].
    by rewrite Hstuck. }
  destruct m as [|m].
  { assert (min = 0) as -> by lia. destruct s; [|simpl in Hm; lia].
    by rewrite !Hstuck. }
  cbn [repeatMatcher].
  assert (Hiter :
    run len a
      (λ s' e',
         if (min =? 0) && (String.length s' =? String.length s) then None
         else repeatMatcher (run len a) (names a) greedy k n (pred min) (pred <$> max) s' e')
      s (reset (names a) e)
    = run len a
      (λ s' e',
         if (min =? 0) && (String.length s' =? String.length s) then None
         else repeatMatcher (run len a) (names a) greedy k m (pred min) (pred <$> max) s' e')
      s (reset (names a) e)).
  { apply run_local. intros s' e' Hs'.
    destruct ((min =? 0) && (String.length s' =? String.length s)) eqn:Hc; [done|].
    apply andb_false_iff in Hc.
    apply IH; destruct Hc as [Hc|Hc]; apply Nat.eqb_neq in Hc; lia. }
  by rewrite Hiter.
Qed.

(** [replaceAll] takes one turn per character at most. *)
Lemma replaceAllFrom_enough n m len r f s :
  String.length s < n → String.length s < m →
  replaceAllFrom n len r f s = replaceAllFrom m len r f s.
Proof.
  revert m s. induction n as [|n IH]; intros m s Hn Hm; [lia|].
  destruct m as [|m]; [lia|]. cbn [replaceAllFrom].
  destruct (run len r accept s _) as [[s' e']|] eqn:Hrun.
  - apply run_sound in Hrun as (s1 & e1 & Hmatch & [= <- <-]).
    apply matches_suffix in Hmatch as [w ->]. rewrite consumed_app.
    destruct w as [|c w].
    + rewrite app_nil_l in *. destruct s1 as [|c s1]; [done|].
      simpl in Hn, Hm. by rewrite (IH m s1) by lia.
    + rewrite length_app in Hn, Hm. simpl in Hn, Hm.
      by rewrite (IH m s1) by lia.
  - destruct s as [|c s]; [done|]. simpl in Hn, Hm. by rewrite (IH m s) by lia.
Qed.

End RegExpFacts.

Import RegExpFacts.

(** ** The loops take turns enough *)

Lemma find_bound c s i : find c s = Some i → i < String.length s.
Proof.
  revert i. induction s as [|d s IH]; intros i; simpl; [done|].
  destruct (Ascii.eqb d c); [intros [= <-]; lia|].
  destruct (find c s) as [j|]; [|done]. intros [= <-].
  specialize (IH j eq_refl). lia.
Qed.

Lemma indexOf_bounds c from s i :
  indexOf c from s = Some i → from ≤ i < String.length s.
Proof.
  unfold indexOf. case_decide; [|done].
  destruct (find c (drop from s)) as [j|] eqn:Hj; [|done]. intros [= <-].
  apply find_bound in Hj. rewrite length_drop in Hj. lia.
Qed.

Lemma removeSegment_shorter path :
  0 < String.length path →
  String.length (removeSegment path) < String.length path.
Proof.
  intros Hpath. unfold removeSegment, slice.
  destruct (indexOf "/" 1 path) as [position|] eqn:Hposition; [|done].
  apply indexOf_bounds in Hposition. rewrite length_app, length_drop. simpl. lia.
Qed.

Lemma replaceSegmentWithSlash_shorter path :
  2 ≤ String.length path →
  String.length (replaceSegmentWithSlash path) < String.length path.
Proof.
  intros Hpath. unfold replaceSegmentWithSlash, slice.
  destruct (indexOf "/" 1 path) as [position|] eqn:Hposition; [|simpl; lia].
  apply indexOf_bounds in Hposition. rewrite length_app, length_drop. simpl. lia.
Qed.

Lemma test_matches r s :
  test r s = true → ∃ t t' e, matches (String.length s) r t (reset (names r) ∅) t' e.
Proof.
  unfold test. intros [e He]%bool_decide_eq_true_1.
  apply exec_matches in He as (t & t' & Hm). eauto.
Qed.

(** A path that [isSlashDotSegment] or [isUpSegment] accepts starts with
    [/.], so it has two characters at least. *)
Lemma slashDot_length r path :
  test (Seq Bos (Seq (lit "/") (Seq (lit ".") r))) path = true →
  2 ≤ String.length path.
Proof.
  intros (t & t' & e & Hm)%test_matches.
  inversion Hm as [| | | |? ? ? ? t1 e1 ? ? Hbos Hm1| | | | | |]; subst.
  inversion Hbos as [| |? ? Hlen| | | | | | | |]; subst.
  inversion Hm1 as [| | | |? ? ? ? t2 e2 ? ? Hslash Hm2| | | | | |]; subst.
  inversion Hslash; subst.
  inversion Hm2 as [| | | |? ? ? ? t3 e3 ? ? Hdot Hm3| | | | | |]; subst.
  inversion Hdot; subst. simpl in Hlen. lia.
Qed.

Lemma removeDotSegmentsStep_shorter path output :
  0 < String.length path →
  String.length (removeDotSegmentsStep path output).1 < String.length path.
Proof.
  intros Hpath. unfold removeDotSegmentsStep.
  destruct (test isNoOpSegment path); [by apply removeSegment_shorter|].
  destruct (test isSlashDotSegment path) eqn:Hslash.
  { apply replaceSegmentWithSlash_shorter.
    exact (slashDot_length (seqs [alts [lit "/"; Eos]]) path Hslash). }
  destruct (test isUpSegment path) eqn:Hup.
  { apply replaceSegmentWithSlash_shorter.
    exact (slashDot_length (seqs [lit "."; alts [lit "/"; Eos]]) path Hup). }
  by apply removeSegment_shorter.
Qed.

(** The loop of [removeDotSegments] ends within as many turns as the path
    has characters: more turns change nothing. *)
Lemma removeDotSegmentsLoop_enough n path output :
  String.length path ≤ n →
  removeDotSegmentsLoop n path output
  = removeDotSegmentsLoop (String.length path) path output.
Proof.
  enough (Hgen : ∀ n m path output,
    String.length path ≤ n → String.length path ≤ m →
    removeDotSegmentsLoop n path output = removeDotSegmentsLoop m path output)
    by (intros; by apply Hgen).
  clear. induction n as [|n IH]; intros m path output Hn Hm.
  - destruct path; [|simpl in Hn; lia]. by destruct m.
  - destruct m as [|m].
    { destruct path; [done|simpl in Hm; lia]. }
    cbn [removeDotSegmentsLoop].
    destruct (0 <? String.length path) eqn:Hpath; [|done].
    apply Nat.ltb_lt in Hpath.
    pose proof (removeDotSegmentsStep_shorter path output Hpath) as Hshorter.
    destruct (removeDotSegmentsStep path output) as [path' output'].
    simpl in Hshorter. apply IH; lia.
Qed.

(** The first loop of [toRelative] stops before the last segment of
    [fromSegments]: more turns change nothing. *)
Lemma commonPrefix_enough n fromSegments toSegments position :
  length fromSegments - position ≤ n →
  commonPrefix n fromSegments toSegments position
  = commonPrefix (length fromSegments - position) fromSegments toSegments position.
Proof.
  enough (Hgen : ∀ n m position,
    length fromSegments - position ≤ n → length fromSegments - position ≤ m →
    commonPrefix n fromSegments toSegments position
    = commonPrefix m fromSegments toSegments position)
    by (intros; by apply Hgen).
  clear. induction n as [|n IH]; intros m position Hn Hm.
  - destruct m as [|m]; [done|]. cbn [commonPrefix].
    replace (position <? length fromSegments - 1) with false
      by (symmetry; apply Nat.ltb_ge; lia).
    by rewrite andb_false_r.
  - destruct m as [|m].
    { cbn [commonPrefix].
      replace (position <? length fromSegments - 1) with false
        by (symmetry; apply Nat.ltb_ge; lia).
      by rewrite andb_false_r. }
    cbn [commonPrefix].
    destruct (_ && _ && _) eqn:Hc; [|done].
    apply IH; lia.
Qed.

(** ** Worked examples *)

(** C2: the examples of RFC 3986, section 5.4, that the specification lists,
    with the base [http://a/b/c/d;p?q]: a plain segment, a leading [./], one
    and three leading [../] (the excess ones stop at the root), a query
    alone, and a fragment alone. *)
Theorem resolveUri_rfc_examples :
  let base := "http://a/b/c/d;p?q" in
  resolveUri "g" base = Ok "http://a/b/c/g"
  ∧ resolveUri "./g" base = Ok "http://a/b/c/g"
  ∧ resolveUri "../g" base = Ok "http://a/b/g"
  ∧ resolveUri "../../../g" base = Ok "http://a/g"
  ∧ resolveUri "?y" base = Ok "http://a/b/c/d;p?y"
  ∧ resolveUri "#s" base = Ok "http://a/b/c/d;p?q#s".
Proof. repeat apply conj; vm_compute; reflexivity. Qed.

(** C6: dot-segment removal on the two paths of the specification:
    [/a/b/../c] becomes [/a/c] and [/a/b/c/..] becomes [/a/b/]. *)
Theorem removeDotSegments_examples :
  removeDotSegments "/a/b/../c" = "/a/c"
  ∧ removeDotSegments "/a/b/c/.." = "/a/b/".
Proof. split; vm_compute; reflexivity. Qed.

(** C9: relativising [http://a/b/x] against [http://a/b/c/d] gives [../x],
    and resolving [../x] against [http://a/b/c/d] gives [http://a/b/x]
    back. *)
Theorem toRelativeUri_roundtrip_example :
  ∃ r, toRelativeUri "http://a/b/c/d" "http://a/b/x" = Ok r
       ∧ r = "../x"
       ∧ resolveUri r "http://a/b/c/d" = Ok "http://a/b/x".
Proof. exists "../x". repeat apply conj; vm_compute; reflexivity. Qed.

(** C10: the empty string is a URI-reference: [isUriReference] accepts it,
    and [parseUriReference] returns components with the empty path and with
    no scheme, authority, query or fragment. *)
Theorem empty_is_uriReference :
  isUriReference "" = true
  ∧ ∃ c, parseUriReference "" = Ok c
         ∧ prop c "path" = Some ""
         ∧ prop c "scheme" = None
         ∧ prop c "authority" = None
         ∧ prop c "query" = None
         ∧ prop c "fragment" = None.
Proof.
  split; [vm_compute; reflexivity|].
  assert (Hpath : propOf (parseUriReference "") "path" = Ok (Some ""))
    by (vm_compute; reflexivity).
  assert (Hscheme : propOf (parseUriReference "") "scheme" = Ok None)
    by (vm_compute; reflexivity).
  assert (Hauthority : propOf (parseUriReference "") "authority" = Ok None)
    by (vm_compute; reflexivity).
  assert (Hquery : propOf (parseUriReference "") "query" = Ok None)
    by (vm_compute; reflexivity).
  assert (Hfragment : propOf (parseUriReference "") "fragment" = Ok None)
    by (vm_compute; reflexivity).
  destruct (parseUriReference "") as [c|e]; [|discriminate Hpath].
  exists c. cbn [propOf] in *. by simplify_eq.
Qed.

(** C5, at the path [./g]: the first turn of the loop takes the branch of
    [isNoOpSegment], and [removeSegment] leaves [/g], not [g]: it puts a
    slash in front of what follows the prefix.  So does the whole removal,
    and [normalizeUri] turns the relative path of [a:./g] into an absolute
    one. *)
Theorem removeDotSegments_noop_prefix :
  test isNoOpSegment "./g" = true
  ∧ removeDotSegmentsStep "./g" "" = ("/g", "")
  ∧ removeDotSegments "./g" = "/g"
  ∧ removeDotSegments "../g" = "/g"
  ∧ normalizeUri "a:./g" = Ok "a:/g".
Proof. repeat apply conj; vm_compute; reflexivity. Qed.

(** C1, at [http://a/b/%2e%2e/c]: the dot segments are removed before the
    triplets are decoded, so the decoded [..] stays in the result, and a
    second normalisation removes it: the first result is not a fixed
    point.  Nor is it at [A:/.//B], where the path left by the removal
    starts with [//] and is read as an authority the second time. *)
Theorem normalizeUri_not_idempotent :
  isUri "http://a/b/%2e%2e/c" = true
  ∧ normalizeUri "http://a/b/%2e%2e/c" = Ok "http://a/b/../c"
  ∧ normalizeUri "http://a/b/../c" = Ok "http://a/c"
  ∧ "http://a/b/../c" ≠ "http://a/c"
  ∧ normalizeUri "A:/.//B" = Ok "a://B"
  ∧ normalizeUri "a://B" = Ok "a://b".
Proof. repeat apply conj; try (vm_compute; reflexivity). discriminate. Qed.

(** ** Resolution and the base *)

(** C3, as stated, fails: a reference with a scheme of its own is resolved
    without the base being parsed at all.  And the absolute-URI production
    does not require an authority: [a:b] is a base. *)
Lemma resolveUri_ignores_base_counterexample :
  isAbsoluteUri "not absolute" = false
  ∧ resolveUri "http://x/y" "not absolute" = Ok "http://x/y"
  ∧ isAbsoluteUri "a:b" = true
  ∧ resolveUri "g" "a:b" = Ok "a:g".
Proof. repeat apply conj; vm_compute; reflexivity. Qed.

Lemma test_exec r s : test r s = false → exec r s = None.
Proof.
  unfold test. intros H%bool_decide_eq_false.
  destruct (exec r s); [|done]. by destruct H.
Qed.

(** C3, amended: the base is parsed, under the absolute-URI production,
    exactly when the reference parses and has no scheme; then a base that
    the production rejects makes [resolveUri] throw the error of
    [parseAbsoluteUri].  A reference with a scheme is composed as it is,
    whatever the base. *)
Theorem resolveUri_base (reference base : string) (c : captures) :
  parseUriReference reference = Ok c →
  (prop c "scheme" = None → isAbsoluteUri base = false →
     resolveUri reference base = Throw (Error ("Invalid absolute-URI: " +:+ base)))
  ∧ (is_Some (prop c "scheme") →
     resolveUri reference base = composeIdentifier strategies.uri c).
Proof.
  intros Hc. unfold resolveUri, resolveReference. cbn [parseReference strategies.uri].
  rewrite Hc. cbn [bind]. split.
  - intros Hs Hb. rewrite bool_decide_eq_true_2 by done.
    cbn [parseAbsolute strategies.uri]. unfold parseAbsoluteUri, createParser.
    unfold isAbsoluteUri in Hb. apply test_exec in Hb. by rewrite Hb.
  - intros [v Hs]. rewrite bool_decide_eq_false_2; [done|]. by rewrite Hs.
Qed.

Lemma resolveUri_base_witness :
  ∃ c, parseUriReference "g" = Ok c
       ∧ prop c "scheme" = None
       ∧ isAbsoluteUri "a" = false
       ∧ resolveUri "g" "a" = Throw (Error ("Invalid absolute-URI: " +:+ "a")).
Proof.
  assert (Hscheme : propOf (parseUriReference "g") "scheme" = Ok None)
    by (vm_compute; reflexivity).
  assert (Hbase : isAbsoluteUri "a" = false) by (vm_compute; reflexivity).
  destruct (parseUriReference "g") as [c|e] eqn:Hc; [|discriminate Hscheme].
  injection Hscheme as Hscheme.
  exists c. split; [reflexivity|]. split; [exact Hscheme|]. split; [exact Hbase|].
  exact (proj1 (resolveUri_base "g" "a" c Hc) Hscheme Hbase).
Defined.

(** ** The components of an absolute identifier *)

Lemma createParser_Ok pattern type s c :
  createParser pattern type s = Ok c →
  ∃ groups, exec pattern s = Some groups
    ∧ c = delete "path2"
            (if bool_decide (prop groups "authority" = None)
             then <["path" := prop groups "path2"]> groups else groups).
Proof.
  unfold createParser. destruct (exec pattern s) as [groups|]; [|done].
  intros [= <-]. eauto.
Qed.

Lemma prop_captured (e : captures) g : isCaptured e g → is_Some (prop e g).
Proof. intros [v Hv]. unfold prop. rewrite Hv. by exists v. Qed.

Lemma prop_undefined (e : captures) g o : e !! g = o → o = Some None ∨ o = None → prop e g = None.
Proof. unfold prop. intros -> [-> | ->]; done. Qed.

Lemma prop_insert_eq (e : captures) k v : prop (<[k := v]> e) k = v.
Proof. unfold prop. by rewrite lookup_insert_eq. Qed.

Lemma prop_insert_ne (e : captures) k k' v : k ≠ k' → prop (<[k := v]> e) k' = prop e k'.
Proof. intros. unfold prop. by rewrite lookup_insert_ne. Qed.

Lemma prop_delete_ne (e : captures) k k' : k ≠ k' → prop (delete k e) k' = prop e k'.
Proof. intros. unfold prop. by rewrite lookup_delete_ne. Qed.

(** C4, as stated, fails: [a:b] is an absolute-URI, and its components have
    no authority and no host. *)
Lemma parseAbsoluteUri_no_authority_counterexample :
  ∃ c, parseAbsoluteUri "a:b" = Ok c
       ∧ prop c "scheme" = Some "a"
       ∧ prop c "authority" = None
       ∧ prop c "host" = None
       ∧ prop c "path" = Some "b".
Proof.
  assert (Hscheme : propOf (parseAbsoluteUri "a:b") "scheme" = Ok (Some "a"))
    by (vm_compute; reflexivity).
  assert (Hauthority : propOf (parseAbsoluteUri "a:b") "authority" = Ok None)
    by (vm_compute; reflexivity).
  assert (Hhost : propOf (parseAbsoluteUri "a:b") "host" = Ok None)
    by (vm_compute; reflexivity).
  assert (Hpath : propOf (parseAbsoluteUri "a:b") "path" = Ok (Some "b"))
    by (vm_compute; reflexivity).
  destruct (parseAbsoluteUri "a:b") as [c|e]; [|discriminate Hpath].
  exists c. cbn [propOf] in *. by simplify_eq.
Qed.

Lemma createParser_absolute pattern type s c :
  names pattern
    = ["scheme"; "authority"; "userinfo"; "host"; "port"; "path"; "path2"; "query"] →
  outcomes pattern
    = [(["scheme"; "authority"; "host"; "path"],
        ["scheme"; "authority"; "userinfo"; "host"; "port"; "path"; "query"]);
       (["scheme"; "path2"], ["scheme"; "path2"; "query"])] →
  createParser pattern type s = Ok c → absoluteComponents c.
Proof.
  intros Hnames Houts (groups & Hexec & ->)%createParser_Ok.
  apply exec_matches in Hexec as (t & t' & Hm).
  apply matches_outcomes in Hm as (o & Ho & Hmust & Hmay).
  rewrite Houts in Ho. rewrite Hnames in Hmay.
  assert (Hinit : ∀ g, g ∉ o.2 → groups !! g = Some None ∨ groups !! g = None).
  { intros g Hg. rewrite (Hmay g Hg), lookup_reset. case_decide; auto. }
  assert (Hfragment : "fragment" ∉ o.2 → groups !! "fragment" = None).
  { intros Hg. rewrite (Hmay _ Hg), lookup_reset. by rewrite decide_False by names_out. }
  clear Hmay.
  apply elem_of_cons in Ho as [->|Ho]; [|apply list_elem_of_singleton in Ho as ->];
    cbn [fst snd] in *.
  - destruct (Hmust "authority") as [a Ha]; [names_in|].
    rewrite bool_decide_eq_false_2 by (unfold prop; by rewrite Ha).
    unfold absoluteComponents, prop. rewrite !lookup_delete_ne by done.
    destruct (Hmust "scheme") as [x ->]; [names_in|].
    destruct (Hmust "path") as [y ->]; [names_in|].
    destruct (Hmust "host") as [z ->]; [names_in|].
    rewrite Ha, Hfragment by names_out. simpl.
    repeat split; eauto; done.
  - assert (prop groups "authority" = None) as Hauth.
    { eapply prop_undefined; [done|]. apply Hinit. names_out. }
    rewrite bool_decide_eq_true_2 by done.
    destruct (Hmust "scheme") as [x Hx]; [names_in|].
    destruct (Hmust "path2") as [y Hy]; [names_in|].
    unfold absoluteComponents.
    rewrite !prop_delete_ne by done. rewrite prop_insert_eq.
    rewrite !prop_insert_ne by done.
    rewrite lookup_delete_ne, lookup_insert_ne, Hfragment by (done || names_out).
    rewrite Hauth. unfold prop at 1 2. rewrite Hx, Hy. simpl.
    split; [by eauto|]. split; [by eauto|]. split; [done|].
    split; [by intros [? ?]|]. intros _.
    repeat split; (eapply prop_undefined; [done|]; apply Hinit; names_out).
Qed.

(** C4, amended: when [parseAbsoluteUri] or [parseAbsoluteIri] succeeds, the
    components have a scheme and a path and no [fragment] property; the
    authority is optional, the host is present whenever the authority is,
    and without an authority there is no host, userinfo or port either. *)
Theorem parseAbsolute_components (s : string) (c : captures) :
  parseAbsoluteUri s = Ok c ∨ parseAbsoluteIri s = Ok c →
  absoluteComponents c.
Proof.
  intros [H|H]; eapply createParser_absolute in H; try done; vm_compute; reflexivity.
Qed.

Lemma parseAbsolute_components_witness :
  ∃ c, parseAbsoluteUri "http://a/b?q" = Ok c ∧ absoluteComponents c.
Proof.
  assert (Hscheme : propOf (parseAbsoluteUri "http://a/b?q") "scheme" = Ok (Some "http"))
    by (vm_compute; reflexivity).
  destruct (parseAbsoluteUri "http://a/b?q") as [c|e] eqn:Hc; [|discriminate Hscheme].
  exists c. split; [reflexivity|].
  exact (parseAbsolute_components "http://a/b?q" c (or_introl Hc)).
Defined.

(** ** Percent-encoding normalisation *)

Lemma run_percentEncoded len s e :
  run len percentEncoded accept s e =
    match s with
    | String c (String h1 (String h2 rest)) =>
        if Ascii.eqb "%" c && isHexdig h1 && isHexdig h2 then Some (rest, e) else None
    | _ => None
    end.
Proof.
  unfold percentEncoded, pctEncoded, seqs, lit, hexdig. cbn [foldr run].
  destruct s as [|c [|h1 [|h2 rest]]]; try done;
    destruct (Ascii.eqb "%" c); try done; by destruct (isHexdig h1).
Qed.

Lemma replaceAllFrom_percentEncoded f n len s :
  String.length s < n →
  replaceAllFrom n len percentEncoded f s = replaceTriplets f s.
Proof.
  revert s. induction n as [|n IH]; intros s Hn; [lia|].
  cbn [replaceAllFrom]. rewrite run_percentEncoded.
  destruct s as [|c s']; [done|]. cbn [String.length] in Hn.
  assert (Hkeep : String c (replaceAllFrom n len percentEncoded f s')
                  = String c (replaceTriplets f s')).
  { rewrite IH by lia. done. }
  destruct s' as [|h1 [|h2 rest]]; try exact Hkeep.
  cbn [replaceTriplets].
  destruct (Ascii.eqb "%" c && isHexdig h1 && isHexdig h2); [|exact Hkeep].
  change (String c (String h1 (String h2 rest)))
    with (String c (String h1 (String h2 "")) +:+ rest).
  rewrite consumed_app. cbn [String.length] in Hn.
  rewrite IH by lia. done.
Qed.

Lemma replaceAll_percentEncoded f s :
  replaceAll percentEncoded f s = replaceTriplets f s.
Proof. apply replaceAllFrom_percentEncoded. lia. Qed.

Lemma replaceTriplets_plain f front s :
  allChars (λ c, negb (Ascii.eqb "%" c)) front = true →
  replaceTriplets f (front +:+ s) = front +:+ replaceTriplets f s.
Proof.
  induction front as [|c front IH]; [done|].
  cbn [allChars]. intros [Hc Hfront]%andb_prop. apply negb_true_iff in Hc.
  rewrite !app_cons. cbn [replaceTriplets]. rewrite Hc. cbn [andb].
  rewrite IH by done. by destruct (front +:+ s) as [|? [|? ?]].
Qed.

Lemma hexValue_isHexdig h v : hexValue h = Some v → isHexdig h = true.
Proof.
  unfold hexValue, isHexdig.
  destruct (between "0" "9" h), (between "a" "f" h), (between "A" "F" h); done.
Qed.

Lemma percentEncodedToChar_triplet isAllowed h1 h2 v1 v2 :
  hexValue h1 = Some v1 → hexValue h2 = Some v2 →
  percentEncodedToChar isAllowed (triplet h1 h2) =
    let char := fromCharCode (16 * v1 + v2) in
    if isAllowed char then char else triplet (upper h1) (upper h2).
Proof.
  intros H1 H2. unfold percentEncodedToChar, triplet, parseInt16, slice.
  cbn [drop parseHex]. rewrite H1. cbn [parseHex]. rewrite H2. cbn [default].
  replace (16 * (16 * 0 + v1) + v2) with (16 * v1 + v2) by lia.
  reflexivity.
Qed.

(** The characters that the normalisers leave unescaped. *)
Lemma isAllowed_classes (c : ascii) :
  isAllowedUnescapedInPath (String c "") = isUnreserved c || isSubDelim c || oneOf ":@" c
  ∧ isAllowedUnescapedInQuery (String c "") = isUnreserved c || isSubDelim c || oneOf ":@/?" c
  ∧ isAllowedUnescapedInIPath (String c "") = isIunreserved c || isSubDelim c || oneOf ":@" c
  ∧ isAllowedUnescapedInIQuery (String c "") = isIunreserved c || isSubDelim c || oneOf ":@/?" c.
Proof.
  pose (f := λ c,
    bool_decide (isAllowedUnescapedInPath (String c "")
                 = isUnreserved c || isSubDelim c || oneOf ":@" c)
    && bool_decide (isAllowedUnescapedInQuery (String c "")
                    = isUnreserved c || isSubDelim c || oneOf ":@/?" c)
    && bool_decide (isAllowedUnescapedInIPath (String c "")
                    = isIunreserved c || isSubDelim c || oneOf ":@" c)
    && bool_decide (isAllowedUnescapedInIQuery (String c "")
                    = isIunreserved c || isSubDelim c || oneOf ":@/?" c)).
  assert (Hf : forallb f allAscii = true) by (vm_compute; reflexivity).
  pose proof (forallb_allAscii f Hf c) as Hc. unfold f in Hc.
  apply andb_prop in Hc as [Hc H4]. apply andb_prop in Hc as [Hc H3].
  apply andb_prop in Hc as [H1 H2].
  apply bool_decide_eq_true_1 in H1, H2, H3, H4.
  exact (conj H1 (conj H2 (conj H3 H4))).
Qed.

(** C7, as stated, fails: [!] is not an unreserved character, and yet the
    triplet [%21] in a path is replaced by it. *)
Lemma normalizeUri_decodes_subdelim_counterexample :
  isUnreserved "!" = false
  ∧ normalizeUri "http://a/%21" = Ok "http://a/!".
Proof. split; vm_compute; reflexivity. Qed.

(** ** The fragment of a resolved reference *)

Lemma fragmentOf_none s : allChars notHash s = true → fragmentOf s = None.
Proof.
  unfold fragmentOf. induction s as [|c s IH]; [done|].
  cbn [allChars find]. intros [Hc Hs]%andb_prop.
  apply negb_true_iff in Hc. rewrite Hc.
  specialize (IH Hs). destruct (find "#" s); done.
Qed.

Lemma fragmentOf_app front fragment :
  allChars notHash front = true →
  fragmentOf (front +:+ "#" +:+ fragment) = Some fragment.
Proof.
  unfold fragmentOf. induction front as [|c front IH]; [done|].
  cbn [allChars]. intros [Hc Hs]%andb_prop. apply negb_true_iff in Hc.
  rewrite app_cons. cbn [find]. rewrite Hc.
  specialize (IH Hs). destruct (find "#" (front +:+ "#" +:+ fragment)); [|done].
  simpl in *. done.
Qed.

Section NoHash.

Lemma notHash_lower c : notHash c = true → notHash (lower c) = true.
Proof.
  assert (H : forallb (λ c, implb (notHash c) (notHash (lower c))) allAscii = true)
    by (vm_compute; reflexivity).
  pose proof (forallb_allAscii _ H c) as Hc. cbv beta in Hc.
  intros Hn. by rewrite Hn in Hc.
Qed.

Lemma notHash_upper c : notHash c = true → notHash (upper c) = true.
Proof.
  assert (H : forallb (λ c, implb (notHash c) (notHash (upper c))) allAscii = true)
    by (vm_compute; reflexivity).
  pose proof (forallb_allAscii _ H c) as Hc. cbv beta in Hc.
  intros Hn. by rewrite Hn in Hc.
Qed.

Lemma notHash_hexdig c : isHexdig c = true → notHash c = true.
Proof.
  assert (H : forallb (λ c, implb (isHexdig c) (notHash c)) allAscii = true)
    by (vm_compute; reflexivity).
  pose proof (forallb_allAscii _ H c) as Hc. cbv beta in Hc.
  intros Hn. by rewrite Hn in Hc.
Qed.

Lemma noHash_toLowerCase s :
  allChars notHash s = true → allChars notHash (toLowerCase s) = true.
Proof. apply allChars_map, notHash_lower. Qed.

Lemma noHash_slice s n :
  allChars notHash s = true → allChars notHash (slice s n) = true.
Proof. apply allChars_drop. Qed.

Lemma noHash_slice2 s n m :
  allChars notHash s = true → allChars notHash (slice2 s n m) = true.
Proof. intros. by apply allChars_take, allChars_drop. Qed.

Lemma noHash_removeSegment path :
  allChars notHash path = true → allChars notHash (removeSegment path) = true.
Proof.
  intros H. unfold removeSegment. destruct (indexOf "/" 1 path); [|done].
  rewrite allChars_app. by rewrite noHash_slice.
Qed.

Lemma noHash_replaceSegmentWithSlash path :
  allChars notHash path = true →
  allChars notHash (replaceSegmentWithSlash path) = true.
Proof.
  intros H. unfold replaceSegmentWithSlash. destruct (indexOf "/" 1 path); [|done].
  rewrite allChars_app. by rewrite noHash_slice.
Qed.

Lemma noHash_removeLastSegment path :
  allChars notHash path = true → allChars notHash (removeLastSegment path) = true.
Proof.
  intros H. unfold removeLastSegment. destruct (lastIndexOf "/" path); [|done].
  by apply noHash_slice2.
Qed.

Lemma noHash_getSegment path :
  allChars notHash path = true → allChars notHash (getSegment path) = true.
Proof.
  intros H. unfold getSegment. destruct (indexOf "/" 1 path); [|done].
  by apply noHash_slice2.
Qed.

Lemma noHash_removeDotSegmentsLoop n path output :
  allChars notHash path = true → allChars notHash output = true →
  allChars notHash (removeDotSegmentsLoop n path output) = true.
Proof.
  revert path output. induction n as [|n IH]; intros path output Hp Ho; [done|].
  cbn [removeDotSegmentsLoop]. destruct (0 <? String.length path); [|done].
  unfold removeDotSegmentsStep.
  destruct (test isNoOpSegment path);
    [|destruct (test isSlashDotSegment path); [|destruct (test isUpSegment path)]];
    apply IH;
    auto using noHash_removeSegment, noHash_replaceSegmentWithSlash,
      noHash_removeLastSegment.
  rewrite allChars_app, Ho. by apply noHash_getSegment.
Qed.

Lemma noHash_removeDotSegments path :
  allChars notHash path = true → allChars notHash (removeDotSegments path) = true.
Proof. intros. by apply noHash_removeDotSegmentsLoop. Qed.

Lemma noHash_percentEncodedToChar isAllowed h1 h2 :
  isAllowed "#" = false →
  isHexdig h1 = true → isHexdig h2 = true →
  allChars notHash (percentEncodedToChar isAllowed (triplet h1 h2)) = true.
Proof.
  intros Hhash H1 H2. unfold percentEncodedToChar, fromCharCode.
  generalize (ascii_of_nat (default 0 (parseInt16 (slice (triplet h1 h2) 1)))).
  intros c. destruct (isAllowed (String c "")) eqn:Hallowed.
  - cbn [allChars]. rewrite andb_true_r.
    unfold notHash. apply negb_true_iff, Ascii.eqb_neq. intros Heq.
    rewrite Heq in Hallowed. congruence.
  - unfold triplet, toUpperCase. cbn [JsString.map allChars].
    rewrite !notHash_upper by auto using notHash_hexdig. done.
Qed.

Lemma noHash_replaceTriplets isAllowed s :
  isAllowed "#" = false →
  allChars notHash s = true →
  allChars notHash (replaceTriplets (percentEncodedToChar isAllowed) s) = true.
Proof.
  intros Hhash.
  assert (Hgen : ∀ n s, String.length s < n → allChars notHash s = true →
    allChars notHash (replaceTriplets (percentEncodedToChar isAllowed) s) = true).
  { clear s. induction n as [|n IH]; intros s Hn Hs; [lia|].
    destruct s as [|c s']; [done|].
    cbn [allChars String.length] in Hs, Hn. apply andb_prop in Hs as [Hc Hs'].
    assert (Hkeep : allChars notHash
              (String c (replaceTriplets (percentEncodedToChar isAllowed) s')) = true).
    { cbn [allChars]. rewrite Hc. apply IH; [lia|done]. }
    destruct s' as [|h1 [|h2 rest]]; try exact Hkeep.
    cbn [replaceTriplets].
    destruct (Ascii.eqb "%" c && isHexdig h1 && isHexdig h2) eqn:Hcond;
      [|exact Hkeep].
    apply andb_prop in Hcond as [[Hpct H1]%andb_prop H2].
    apply Ascii.eqb_eq in Hpct as <-.
    rewrite allChars_app. fold (triplet h1 h2).
    rewrite noHash_percentEncodedToChar by done.
    cbn [allChars String.length] in Hs', Hn.
    apply andb_prop in Hs' as [_ [_ Hrest]%andb_prop].
    apply IH; [lia|done]. }
  intros Hs. by apply (Hgen (S (String.length s))); [lia|].
Qed.

Lemma noHash_normalizeQueryWith isAllowed s :
  isAllowed "#" = false →
  allChars notHash s = true →
  allChars notHash (normalizeQueryWith isAllowed s) = true.
Proof.
  intros. unfold normalizeQueryWith. rewrite replaceAll_percentEncoded.
  by apply noHash_replaceTriplets.
Qed.

Lemma noHash_normalizePathWith isAllowed s :
  isAllowed "#" = false →
  allChars notHash s = true →
  allChars notHash (normalizePathWith isAllowed s) = true.
Proof.
  intros. unfold normalizePathWith. rewrite replaceAll_percentEncoded.
  by apply noHash_replaceTriplets, noHash_removeDotSegments.
Qed.

End NoHash.

Lemma hashFree_insert (c : captures) k v :
  hashFree c → (∀ x, v = Some x → allChars notHash x = true) →
  hashFree (<[k := v]> c).
Proof.
  intros Hc Hv g x Hg. destruct (decide (k = g)) as [->|Hne].
  - rewrite prop_insert_eq. apply Hv.
  - rewrite prop_insert_ne by done. by apply Hc.
Qed.

Lemma hashFree_insert_prop (c b : captures) k k' :
  hashFree c → hashFree b → k' ≠ "fragment" → hashFree (<[k := prop b k']> c).
Proof. intros Hc Hb Hk. apply hashFree_insert; [done|]. intros x. by apply Hb. Qed.

Lemma hashFree_delete (c : captures) k : hashFree c → hashFree (delete k c).
Proof.
  intros Hc g x Hg. unfold prop. destruct (decide (k = g)) as [->|Hne].
  - by rewrite lookup_delete_eq.
  - rewrite lookup_delete_ne by done. by apply Hc.
Qed.

Lemma createParser_hashFree pattern type s c :
  captured notHash notFragment pattern = true →
  createParser pattern type s = Ok c → hashFree c.
Proof.
  intros Hpattern (groups & Hexec & ->)%createParser_Ok.
  apply exec_matches in Hexec as (t & t' & Hm).
  assert (Hgroups : hashFree groups).
  { eapply matches_captured in Hm; [|done|].
    - intros g v Hg Hv. apply (Hm g v).
      + unfold notFragment. apply negb_true_iff, String.eqb_neq. done.
      + unfold prop in Hv. destruct (groups !! g) as [[x|]|]; by simplify_eq/=.
    - apply capturesIn_reset. intros g v _. by rewrite lookup_empty. }
  apply hashFree_delete. case_bool_decide; [|done].
  by apply hashFree_insert_prop.
Qed.

Lemma parseUriReference_hashFree s c : parseUriReference s = Ok c → hashFree c.
Proof. apply createParser_hashFree. vm_compute; reflexivity. Qed.

Lemma parseAbsoluteUri_hashFree s c : parseAbsoluteUri s = Ok c → hashFree c.
Proof. apply createParser_hashFree. vm_compute; reflexivity. Qed.

Lemma noHash_mergePaths path base merged :
  hashFree base → allChars notHash path = true →
  mergePaths path base = Ok merged → allChars notHash merged = true.
Proof.
  intros Hbase Hpath. unfold mergePaths.
  destruct (truthy _ && _).
  - intros [= <-]. by rewrite allChars_app, Hpath.
  - destruct (prop base "path") as [basePath|] eqn:Hbp; [|done].
    assert (allChars notHash basePath = true) by by apply (Hbase "path").
    destruct (lastIndexOf "/" basePath); intros [= <-]; [|done].
    by rewrite allChars_app, Hpath, noHash_slice2.
Qed.

(** The string that [composeIdentifier] builds holds a [#] only in front of
    the fragment. *)
Lemma composeIdentifier_fragment (rc : captures) (result : string) :
  hashFree rc →
  composeIdentifier strategies.uri rc = Ok result →
  fragmentOf result = normalizeFragment strategies.uri <$> prop rc "fragment".
Proof.
  intros Hrc. unfold composeIdentifier.
  destruct (prop rc "scheme") as [scheme|] eqn:Hscheme; [|done].
  destruct (prop rc "path") as [path|] eqn:Hpath; [|done].
  intros [= <-].
  assert (Hallowed : isAllowedUnescapedInPath "#" = false
                     ∧ isAllowedUnescapedInQuery "#" = false)
    by (split; vm_compute; reflexivity).
  destruct Hallowed as [HallowedP HallowedQ].
  match goal with
  | |- fragmentOf (?front +:+ _) = _ =>
      assert (Hfront : allChars notHash front = true)
  end.
  { cbn [strategies.uri normalizePath normalizeQuery].
    assert (Hs : allChars notHash (toLowerCase scheme) = true)
      by by apply noHash_toLowerCase, (Hrc "scheme").
    assert (Hp : allChars notHash (normalizePathWith isAllowedUnescapedInPath path) = true)
      by by apply noHash_normalizePathWith, (Hrc "path").
    assert (Ha : allChars notHash
                   match prop rc "authority" with
                   | Some authority => "//" +:+ toLowerCase authority
                   | None => ""
                   end = true).
    { destruct (prop rc "authority") as [authority|] eqn:Hauthority; [|done].
      rewrite allChars_app. by rewrite noHash_toLowerCase by by apply (Hrc "authority"). }
    assert (Hq : allChars notHash
                   match prop rc "query" with
                   | Some query => "?" +:+ normalizeQueryWith isAllowedUnescapedInQuery query
                   | None => ""
                   end = true).
    { destruct (prop rc "query") as [query|] eqn:Hquery; [|done].
      rewrite allChars_app.
      by rewrite noHash_normalizeQueryWith by (done || by apply (Hrc "query")). }
    rewrite !allChars_app, Hs, Ha, Hp, Hq. done. }
  destruct (prop rc "fragment") as [fragment|]; cbn [fmap option_fmap option_map].
  - by apply fragmentOf_app.
  - rewrite app_nil_r. by apply fragmentOf_none.
Qed.

(** C8: when [resolveUri] succeeds, the reference parses, and the fragment
    of the result (what follows its first [#]) is the normalised fragment
    of the reference: present exactly when the reference has one, whatever
    the base is. *)
Theorem resolveUri_fragment (reference base result : string) :
  resolveUri reference base = Ok result →
  ∃ c, parseUriReference reference = Ok c
       ∧ fragmentOf result = normalizeFragment strategies.uri <$> prop c "fragment".
Proof.
  unfold resolveUri, resolveReference. cbn [parseReference parseAbsolute strategies.uri].
  destruct (parseUriReference reference) as [c|] eqn:Hc; [|done].
  cbn [bind]. intros Hresult. exists c. split; [done|].
  pose proof (parseUriReference_hashFree _ _ Hc) as Hfree.
  match type of Hresult with
  | bind ?m _ = _ => destruct m as [rc|] eqn:Hmid; [|done]
  end.
  cbn [bind] in Hresult.
  enough (hashFree rc ∧ prop rc "fragment" = prop c "fragment") as [Hrc <-]
    by by apply composeIdentifier_fragment.
  clear Hresult result.
  case_bool_decide as Hscheme; [|by simplify_eq].
  destruct (parseAbsoluteUri base) as [b|] eqn:Hb; [|done].
  pose proof (parseAbsoluteUri_hashFree _ _ Hb) as Hbase.
  cbn [bind] in Hmid.
  case_bool_decide as Hauthority; [|simplify_eq].
  - case_bool_decide as Hpath.
    + case_bool_decide as Hquery; simplify_eq;
        rewrite !prop_insert_ne by done;
        (split; [|done]); repeat apply hashFree_insert_prop; done.
    + destruct (prop _ "path") as [path|] eqn:Hp; [|done].
      assert (Hrc0 : hashFree (<["authority":=prop b "authority"]>
                                 (<["scheme":=prop b "scheme"]> c)))
        by (repeat apply hashFree_insert_prop; done).
      destruct (negb (startsWith "/" path)).
      * destruct (mergePaths path b) as [merged|] eqn:Hmerge; [|done].
        cbn [bind] in Hmid. simplify_eq.
        rewrite !prop_insert_ne by done. split; [|done].
        apply hashFree_insert; [done|]. intros x [= <-].
        apply (noHash_mergePaths path b); [done| |done].
        by apply (Hrc0 "path").
      * simplify_eq. rewrite !prop_insert_ne by done. done.
  - rewrite !prop_insert_ne by done. split; [|done].
    by apply hashFree_insert_prop.
Qed.

Lemma resolveUri_fragment_witness :
  resolveUri "../g#s" "http://a/b/c/d;p?q" = Ok "http://a/b/g#s"
  ∧ ∃ c, parseUriReference "../g#s" = Ok c
         ∧ fragmentOf "http://a/b/g#s"
           = normalizeFragment strategies.uri <$> prop c "fragment".
Proof.
  refine (conj _ (resolveUri_fragment "../g#s" "http://a/b/c/d;p?q" "http://a/b/g#s" _));
    vm_compute; reflexivity.
Defined.

(** * Further properties *)

(** Reading a property through the updates of a components object. *)
Ltac prop_simpl :=
  repeat first [rewrite prop_insert_eq | rewrite prop_insert_ne by done
               | rewrite prop_delete_ne by done].

(** ** Parsers and recognisers *)

Lemma createParser_test pattern type value :
  match createParser pattern type value with
  | Ok _ => test pattern value = true
  | Throw e => test pattern value = false ∧ e = invalid type value
  end.
Proof.
  unfold createParser, test. destruct (exec pattern value) as [groups|].
  - apply bool_decide_eq_true_2. eauto.
  - split; [|done]. apply bool_decide_eq_false_2. by intros [? ?].
Qed.

(** X1: each parser succeeds on exactly the strings that its recogniser
    accepts, and on the others it throws [Invalid <type>: <value>]. *)
Theorem parsers_and_recognisers (value : string) :
  let agree (parser : string → result captures) (recogniser : string → bool)
            (type : string) :=
    match parser value with
    | Ok _ => recogniser value = true
    | Throw e => recogniser value = false ∧ e = invalid type value
    end in
  agree parseUri isUri "URI"
  ∧ agree parseUriReference isUriReference "URI-reference"
  ∧ agree parseAbsoluteUri isAbsoluteUri "absolute-URI"
  ∧ agree parseIri isIri "IRI"
  ∧ agree parseIriReference isIriReference "IRI-reference"
  ∧ agree parseAbsoluteIri isAbsoluteIri "absolute-IRI".
Proof. cbv zeta. repeat apply conj; apply createParser_test. Qed.

Lemma createParser_components withScheme pattern type s c :
  forallb (branchOk withScheme) (outcomes pattern) = true →
  createParser pattern type s = Ok c → components withScheme c.
Proof.
  intros Houts (groups & Hexec & ->)%createParser_Ok.
  apply exec_matches in Hexec as (t & t' & Hm).
  apply matches_outcomes in Hm as (o & Ho & Hmust & Hmay).
  rewrite forallb_forall in Houts. apply list_elem_of_In, Houts in Ho.
  assert (Hinit : ∀ g, g ∉ o.2 → prop groups g = None).
  { intros g Hg. eapply prop_undefined; [by apply Hmay|].
    rewrite lookup_reset. case_decide; auto. }
  clear Hmay. unfold branchOk in Ho.
  apply andb_prop in Ho as [Hscheme Ho].
  assert (Hs : withScheme = true → is_Some (prop groups "scheme")).
  { intros ->. apply prop_captured, Hmust. by apply bool_decide_eq_true_1 in Hscheme. }
  unfold components. rewrite lookup_delete_eq.
  apply orb_prop in Ho as [Ho|Ho].
  - apply andb_prop in Ho as [[Ha Hh]%andb_prop Hp].
    apply bool_decide_eq_true_1, Hmust, prop_captured in Ha, Hh, Hp.
    rewrite bool_decide_eq_false_2 by (destruct Ha as [? Ha]; by rewrite Ha).
    rewrite !prop_delete_ne by done.
    repeat apply conj; try done. intros Hnone. rewrite Hnone in Ha. by destruct Ha.
  - apply andb_prop in Ho as [Hp Hout]. cbn [forallb] in Hout.
    apply bool_decide_eq_true_1, Hmust, prop_captured in Hp.
    apply andb_prop in Hout as [Ha Hout]. apply andb_prop in Hout as [Hu Hout].
    apply andb_prop in Hout as [Hh Hout]. apply andb_prop in Hout as [Hport _].
    apply bool_decide_eq_true_1, Hinit in Ha, Hu, Hh, Hport.
    rewrite bool_decide_eq_true_2 by done.
    rewrite !prop_delete_ne by done. rewrite prop_insert_eq.
    rewrite !prop_insert_ne by done. rewrite Ha, Hu, Hh, Hport.
    repeat apply conj; done.
Qed.

(** X2: the components of a URI or IRI have a scheme; those of a
    reference need not.  All have a path and no [path2] property, a host
    whenever they have an authority, and no host, userinfo or port without
    one. *)
Theorem parse_components (s : string) (c : captures) :
  (parseUri s = Ok c ∨ parseIri s = Ok c → components true c)
  ∧ (parseUriReference s = Ok c ∨ parseIriReference s = Ok c → components false c).
Proof.
  split; intros [H|H].
  - refine (createParser_components true uri _ s c _ H). vm_compute; reflexivity.
  - refine (createParser_components true iri _ s c _ H). vm_compute; reflexivity.
  - refine (createParser_components false uriReference _ s c _ H). vm_compute; reflexivity.
  - refine (createParser_components false iriReference _ s c _ H). vm_compute; reflexivity.
Qed.

Lemma parse_components_witness :
  ∃ c, parseUri "mailto:a@b.c" = Ok c ∧ components true c.
Proof.
  assert (Hscheme : propOf (parseUri "mailto:a@b.c") "scheme" = Ok (Some "mailto"))
    by (vm_compute; reflexivity).
  destruct (parseUri "mailto:a@b.c") as [c|e] eqn:Hc; [|discriminate Hscheme].
  exists c. split; [reflexivity|].
  exact (proj1 (parse_components "mailto:a@b.c" c) (or_introl Hc)).
Defined.

(** ** Percent-encoding normalisation of the components *)

Lemma isHexdig_hexValue h : isHexdig h = true → is_Some (hexValue h).
Proof.
  unfold hexValue, isHexdig.
  destruct (between "0" "9" h), (between "a" "f" h), (between "A" "F" h); by eauto.
Qed.

(** The scan of [replaceAll] with the replacer [percentEncodedToChar] does
    what [normalizeTriplets] says, for the set that [isAllowed] tests. *)
Lemma replaceTriplets_normalizeTriplets isAllowed permitted n s :
  (∀ c, isAllowed (String c "") = permitted c) →
  String.length s ≤ n →
  replaceTriplets (percentEncodedToChar isAllowed) s = normalizeTriplets permitted s.
Proof.
  intros Hallowed. revert s. induction n as [|n IH]; intros s Hn.
  { by destruct s; [|simpl in Hn; lia]. }
  destruct s as [|c s]; [done|]. simpl in Hn.
  cbn [replaceTriplets normalizeTriplets].
  assert (Hkeep : String c (replaceTriplets (percentEncodedToChar isAllowed) s)
                  = String c (normalizeTriplets permitted s)).
  { f_equal. apply IH. lia. }
  destruct s as [|h1 [|h2 rest]]; try exact Hkeep.
  destruct (Ascii.eqb "%" c) eqn:Hc; [|exact Hkeep].
  destruct (isHexdig h1) eqn:H1; [|exact Hkeep].
  destruct (isHexdig h2) eqn:H2; [|exact Hkeep].
  cbn [andb]. apply Ascii.eqb_eq in Hc as <-.
  destruct (isHexdig_hexValue h1 H1) as [v1 Hv1].
  destruct (isHexdig_hexValue h2 H2) as [v2 Hv2].
  fold (triplet h1 h2). rewrite (percentEncodedToChar_triplet _ _ _ _ _ Hv1 Hv2).
  cbv zeta. unfold fromCharCode, decoded. rewrite Hv1, Hv2. cbn [default].
  rewrite Hallowed. f_equal. apply IH. simpl in Hn. lia.
Qed.

Lemma normalizeQueryWith_normalizeTriplets isAllowed permitted s :
  (∀ c, isAllowed (String c "") = permitted c) →
  normalizeQueryWith isAllowed s = normalizeTriplets permitted s.
Proof.
  intros Hallowed. unfold normalizeQueryWith. rewrite replaceAll_percentEncoded.
  by apply (replaceTriplets_normalizeTriplets _ _ (String.length s)).
Qed.

Lemma normalize_normalized strategy pattern type unreservedChar
    isAllowedPath isAllowedQuery isAllowedFragment s c :
  parse strategy = createParser pattern type →
  forallb (branchOk true) (outcomes pattern) = true →
  normalizePath strategy = normalizePathWith isAllowedPath →
  normalizeQuery strategy = normalizeQueryWith isAllowedQuery →
  normalizeFragment strategy = normalizeQueryWith isAllowedFragment →
  (∀ c, isAllowedPath (String c "") = unescapedInPath unreservedChar c) →
  (∀ c, isAllowedQuery (String c "") = unescapedInQuery unreservedChar c) →
  (∀ c, isAllowedFragment (String c "") = unescapedInQuery unreservedChar c) →
  parse strategy s = Ok c →
  normalize strategy s = Ok (normalized unreservedChar c).
Proof.
  intros Hparse Houts HnormP HnormQ HnormF HP HQ HF Hc.
  unfold normalize. rewrite Hc. cbn [bind]. rewrite Hparse in Hc.
  pose proof (createParser_components true _ _ _ _ Houts Hc)
    as (Hscheme & [path Hpath] & _).
  destruct (Hscheme eq_refl) as [scheme Hs].
  unfold composeIdentifier, normalized. rewrite Hs, Hpath, HnormP, HnormQ, HnormF.
  cbn [default]. unfold normalizePathWith.
  fold (normalizeQueryWith isAllowedPath (removeDotSegments path)).
  rewrite (normalizeQueryWith_normalizeTriplets _ _ _ HP).
  assert (Hquery :
    match prop c "query" with
    | Some query => "?" +:+ normalizeQueryWith isAllowedQuery query
    | None => ""
    end
    = match prop c "query" with
      | Some query => "?" +:+ normalizeTriplets (unescapedInQuery unreservedChar) query
      | None => ""
      end).
  { destruct (prop c "query"); [|done].
    by rewrite (normalizeQueryWith_normalizeTriplets _ _ _ HQ). }
  assert (Hfragment :
    match prop c "fragment" with
    | Some fragment => "#" +:+ normalizeQueryWith isAllowedFragment fragment
    | None => ""
    end
    = match prop c "fragment" with
      | Some fragment =>
          "#" +:+ normalizeTriplets (unescapedInQuery unreservedChar) fragment
      | None => ""
      end).
  { destruct (prop c "fragment"); [|done].
    by rewrite (normalizeQueryWith_normalizeTriplets _ _ _ HF). }
  rewrite Hquery, Hfragment. by rewrite !app_assoc.
Qed.

(** C7, amended: [normalizeUri] gives the identifier in which each of path,
    query and fragment has every percent-encoded triplet replaced by the
    character it encodes when the component leaves that character
    unescaped, and by the triplet with upper-case digits otherwise; the
    path after its dot segments are removed.  A path leaves unescaped the
    unreserved characters, the sub-delimiters, [:] and [@]; a query and a
    fragment these and [/] and [?].  [normalizeIri] does the same with the
    unreserved characters of IRIs.  The two examples of the specification
    hold. *)
Theorem percentEncoding_normalization (s : string) (c : captures) :
  (parseUri s = Ok c → normalizeUri s = Ok (normalized isUnreserved c))
  ∧ (parseIri s = Ok c → normalizeIri s = Ok (normalized isIunreserved c))
  ∧ normalizeUri "http://a/%7Euser" = Ok "http://a/~user"
  ∧ normalizeUri "http://a/%2f" = Ok "http://a/%2F".
Proof.
  repeat apply conj.
  - apply (normalize_normalized strategies.uri uri "URI" isUnreserved
             isAllowedUnescapedInPath isAllowedUnescapedInQuery
             isAllowedUnescapedInQuery s c eq_refl);
      [vm_compute; reflexivity|reflexivity..| | |];
      intros x; apply isAllowed_classes.
  - apply (normalize_normalized strategies.iri iri "IRI" isIunreserved
             isAllowedUnescapedInIPath isAllowedUnescapedInIQuery
             isAllowedUnescapedInIQuery s c eq_refl);
      [vm_compute; reflexivity|reflexivity..| | |];
      intros x; apply isAllowed_classes.
  - vm_compute; reflexivity.
  - vm_compute; reflexivity.
Qed.

Lemma percentEncoding_normalization_witness :
  ∃ c, parseUri "HTTP://A/b/../%7Euser/%2f?x=%2f%7e%23#%2f%7e%3f%3c" = Ok c
       ∧ normalizeUri "HTTP://A/b/../%7Euser/%2f?x=%2f%7e%23#%2f%7e%3f%3c"
         = Ok (normalized isUnreserved c)
       ∧ normalized isUnreserved c = "http://a/~user/%2F?x=/~%23#/~?%3C".
Proof.
  assert (Hresult : normalizeUri "HTTP://A/b/../%7Euser/%2f?x=%2f%7e%23#%2f%7e%3f%3c"
                    = Ok "http://a/~user/%2F?x=/~%23#/~?%3C") by (vm_compute; reflexivity).
  destruct (parseUri "HTTP://A/b/../%7Euser/%2f?x=%2f%7e%23#%2f%7e%3f%3c") as [c|e] eqn:Hc.
  - exists c. split; [reflexivity|].
    pose proof (proj1 (percentEncoding_normalization _ c) Hc) as Hnormalized.
    split; [exact Hnormalized|].
    rewrite Hnormalized in Hresult. by injection Hresult.
  - unfold normalizeUri, normalize in Hresult.
    change (parse strategies.uri) with parseUri in Hresult.
    rewrite Hc in Hresult. discriminate Hresult.
Defined.

(** ** What the composing functions return and throw *)

Lemma composeIdentifier_Ok strategy (c : captures) :
  is_Some (prop c "scheme") → is_Some (prop c "path") →
  ∃ result, composeIdentifier strategy c = Ok result.
Proof. intros [x Hx] [y Hy]. unfold composeIdentifier. rewrite Hx, Hy. eauto. Qed.

Lemma normalize_outcome strategy pattern type s :
  parse strategy = createParser pattern type →
  forallb (branchOk true) (outcomes pattern) = true →
  match normalize strategy s with
  | Ok _ => test pattern s = true
  | Throw e => test pattern s = false ∧ e = invalid type s
  end
  ∧ match toAbsolute strategy s with
    | Ok _ => test pattern s = true
    | Throw e => test pattern s = false ∧ e = invalid type s
    end.
Proof.
  intros Hparse Houts. unfold normalize, toAbsolute. rewrite Hparse.
  pose proof (createParser_test pattern type s) as Htest.
  destruct (createParser pattern type s) as [c|e] eqn:Hc; [|done]. cbn [bind].
  apply (createParser_components true) in Hc as (Hscheme & Hpath & _); [|done].
  specialize (Hscheme eq_refl).
  destruct (composeIdentifier_Ok strategy c Hscheme Hpath) as [r ->].
  destruct (composeIdentifier_Ok strategy (delete "fragment" c)) as [r' ->];
    [by rewrite prop_delete_ne..|done].
Qed.

(** X3: [normalizeUri] and [toAbsoluteUri] succeed on exactly the strings
    that [isUri] accepts and throw [Invalid URI: <value>] on the others, and
    so do the IRI functions with [isIri]: composing the components of a
    parsed identifier never fails. *)
Theorem normalize_and_toAbsolute_outcome (value : string) :
  let outcome (r : result string) (recogniser : string → bool) (type : string) :=
    match r with
    | Ok _ => recogniser value = true
    | Throw e => recogniser value = false ∧ e = invalid type value
    end in
  outcome (normalizeUri value) isUri "URI"
  ∧ outcome (toAbsoluteUri value) isUri "URI"
  ∧ outcome (normalizeIri value) isIri "IRI"
  ∧ outcome (toAbsoluteIri value) isIri "IRI".
Proof.
  cbv zeta.
  destruct (normalize_outcome strategies.uri uri "URI" value eq_refl) as [H1 H2];
    [vm_compute; reflexivity|].
  destruct (normalize_outcome strategies.iri iri "IRI" value eq_refl) as [H3 H4];
    [vm_compute; reflexivity|].
  done.
Qed.

Lemma resolveReference_outcome strategy reference absolute rtype atype r base :
  parseReference strategy = createParser reference rtype →
  parseAbsolute strategy = createParser absolute atype →
  forallb (branchOk false) (outcomes reference) = true →
  forallb (branchOk true) (outcomes absolute) = true →
  match resolveReference strategy r base with
  | Ok _ =>
      ∃ c, createParser reference rtype r = Ok c
           ∧ (prop c "scheme" = None → test absolute base = true)
  | Throw e =>
      (test reference r = false ∧ e = invalid rtype r)
      ∨ (∃ c, createParser reference rtype r = Ok c ∧ prop c "scheme" = None)
        ∧ test absolute base = false ∧ e = invalid atype base
  end.
Proof.
  intros Href Habs Hrouts Haouts. unfold resolveReference. rewrite Href, Habs.
  pose proof (createParser_test reference rtype r) as Hrtest.
  pose proof (createParser_test absolute atype base) as Hatest.
  destruct (createParser reference rtype r) as [c|e] eqn:Hc; [|by left].
  cbn [bind].
  pose proof (createParser_components false _ _ _ _ Hrouts Hc) as (_ & Hpath & _).
  case_bool_decide as Hscheme.
  - destruct (createParser absolute atype base) as [b|e] eqn:Hb;
      [|destruct Hatest; right; eauto].
    cbn [bind].
    pose proof (createParser_components true _ _ _ _ Haouts Hb)
      as (Hbscheme & Hbpath & _).
    specialize (Hbscheme eq_refl).
    match goal with
    | |- match bind ?m _ with _ => _ end =>
        assert (Hrc : ∃ rc, m = Ok rc ∧ is_Some (prop rc "scheme")
                            ∧ is_Some (prop rc "path"))
    end.
    { destruct Hpath as [path Hp].
      case_bool_decide as Hauthority.
      - case_bool_decide as Hempty.
        + eexists. split; [done|]. case_bool_decide; by prop_simpl.
        + prop_simpl. rewrite Hp.
          destruct (negb (startsWith "/" path)).
          * unfold mergePaths. destruct Hbpath as [bpath Hbp]. rewrite Hbp.
            destruct (truthy _ && _); [|destruct (lastIndexOf "/" bpath)];
              cbn [bind]; eexists; (split; [done|]); prop_simpl; eauto.
          * eexists. split; [done|]. prop_simpl. rewrite Hp. eauto.
      - eexists. split; [done|]. prop_simpl. rewrite Hp. eauto. }
    destruct Hrc as (rc & -> & Hs & Hp). cbn [bind].
    destruct (composeIdentifier_Ok strategy rc Hs Hp) as [result ->]. eauto.
  - cbn [bind].
    destruct (composeIdentifier_Ok strategy c) as [result ->]; [|done|].
    + by destruct (prop c "scheme").
    + exists c. split; [done|]. by intros ?.
Qed.

(** X4: [resolveUri] fails in two ways only: with [Invalid URI-reference]
    when the reference does not parse, and with [Invalid absolute-URI] when
    the reference has no scheme and the base does not parse.  In every other
    case it returns a string; [resolveIri] does the same with its
    productions. *)
Theorem resolve_outcome (reference base : string) :
  match resolveUri reference base with
  | Ok _ =>
      ∃ c, parseUriReference reference = Ok c
           ∧ (prop c "scheme" = None → isAbsoluteUri base = true)
  | Throw e =>
      (isUriReference reference = false ∧ e = invalid "URI-reference" reference)
      ∨ (∃ c, parseUriReference reference = Ok c ∧ prop c "scheme" = None)
        ∧ isAbsoluteUri base = false ∧ e = invalid "absolute-URI" base
  end
  ∧ match resolveIri reference base with
    | Ok _ =>
        ∃ c, parseIriReference reference = Ok c
             ∧ (prop c "scheme" = None → isAbsoluteIri base = true)
    | Throw e =>
        (isIriReference reference = false ∧ e = invalid "IRI-reference" reference)
        ∨ (∃ c, parseIriReference reference = Ok c ∧ prop c "scheme" = None)
          ∧ isAbsoluteIri base = false ∧ e = invalid "absolute-IRI" base
    end.
Proof.
  split.
  - apply (resolveReference_outcome strategies.uri uriReference absoluteUri
             "URI-reference" "absolute-URI" reference base eq_refl eq_refl);
      vm_compute; reflexivity.
  - apply (resolveReference_outcome strategies.iri iriReference absoluteIri
             "IRI-reference" "absolute-IRI" reference base eq_refl eq_refl);
      vm_compute; reflexivity.
Qed.

(** ** [toAbsolute] and [normalize] *)

Lemma prop_delete_eq (e : captures) k : prop (delete k e) k = None.
Proof. unfold prop. by rewrite lookup_delete_eq. Qed.

Lemma fragmentOf_None s : fragmentOf s = None → allChars notHash s = true.
Proof.
  unfold fragmentOf. induction s as [|c s IH]; [done|].
  cbn [find allChars]. unfold notHash at 1.
  destruct (Ascii.eqb c "#"); [done|].
  destruct (find "#" s); [done|]. intros _. by rewrite IH.
Qed.

Lemma composeIdentifier_fragment_with strategy (rc : captures) (result : string) :
  (∀ s, allChars notHash s = true → allChars notHash (normalizePath strategy s) = true) →
  (∀ s, allChars notHash s = true → allChars notHash (normalizeQuery strategy s) = true) →
  hashFree rc →
  composeIdentifier strategy rc = Ok result →
  fragmentOf result = normalizeFragment strategy <$> prop rc "fragment".
Proof.
  intros HnormP HnormQ Hrc. unfold composeIdentifier.
  destruct (prop rc "scheme") as [scheme|] eqn:Hscheme; [|done].
  destruct (prop rc "path") as [path|] eqn:Hpath; [|done].
  intros [= <-].
  match goal with
  | |- fragmentOf (?front +:+ _) = _ =>
      assert (Hfront : allChars notHash front = true)
  end.
  { assert (Hs : allChars notHash (toLowerCase scheme) = true)
      by by apply noHash_toLowerCase, (Hrc "scheme").
    assert (Hp : allChars notHash (normalizePath strategy path) = true)
      by by apply HnormP, (Hrc "path").
    assert (Ha : allChars notHash
                   match prop rc "authority" with
                   | Some authority => "//" +:+ toLowerCase authority
                   | None => ""
                   end = true).
    { destruct (prop rc "authority") as [authority|] eqn:Hauthority; [|done].
      rewrite allChars_app. by rewrite noHash_toLowerCase by by apply (Hrc "authority"). }
    assert (Hq : allChars notHash
                   match prop rc "query" with
                   | Some query => "?" +:+ normalizeQuery strategy query
                   | None => ""
                   end = true).
    { destruct (prop rc "query") as [query|] eqn:Hquery; [|done].
      rewrite allChars_app. by rewrite HnormQ by by apply (Hrc "query"). }
    rewrite !allChars_app, Hs, Ha, Hp, Hq. done. }
  destruct (prop rc "fragment") as [fragment|]; cbn [fmap option_fmap option_map].
  - by apply fragmentOf_app.
  - rewrite app_nil_r. by apply fragmentOf_none.
Qed.

Lemma toAbsolute_normalize strategy pattern type s a :
  parse strategy = createParser pattern type →
  captured notHash notFragment pattern = true →
  (∀ s, allChars notHash s = true → allChars notHash (normalizePath strategy s) = true) →
  (∀ s, allChars notHash s = true → allChars notHash (normalizeQuery strategy s) = true) →
  toAbsolute strategy s = Ok a →
  allChars notHash a = true
  ∧ ∃ c, parse strategy s = Ok c
         ∧ normalize strategy s
           = Ok (a +:+ match prop c "fragment" with
                       | Some fragment => "#" +:+ normalizeFragment strategy fragment
                       | None => ""
                       end).
Proof.
  intros Hparse Hpattern HnormP HnormQ. unfold toAbsolute, normalize.
  rewrite Hparse. destruct (createParser pattern type s) as [c|] eqn:Hc; [|done].
  cbn [bind]. intros Ha. split.
  - apply fragmentOf_None.
    rewrite (composeIdentifier_fragment_with strategy _ _ HnormP HnormQ
               (hashFree_delete _ "fragment" (createParser_hashFree _ _ _ _ Hpattern Hc)) Ha).
    by rewrite prop_delete_eq.
  - exists c. split; [done|]. revert Ha. unfold composeIdentifier. prop_simpl.
    rewrite prop_delete_eq.
    destruct (prop c "scheme"); [|done]. destruct (prop c "path"); [|done].
    intros [= <-]. by rewrite app_nil_r.
Qed.

(** X5: what [toAbsoluteUri] returns holds no [#], and [normalizeUri] of the
    same string is that result followed by [#] and the normalised fragment
    when the string has a fragment, and that result itself when it has
    none.  The IRI functions behave alike. *)
Theorem toAbsolute_drops_the_fragment (s a : string) :
  (toAbsoluteUri s = Ok a →
   allChars notHash a = true
   ∧ ∃ c, parseUri s = Ok c
          ∧ normalizeUri s
            = Ok (a +:+ match prop c "fragment" with
                        | Some fragment =>
                            "#" +:+ normalizeQueryWith isAllowedUnescapedInQuery fragment
                        | None => ""
                        end))
  ∧ (toAbsoluteIri s = Ok a →
     allChars notHash a = true
     ∧ ∃ c, parseIri s = Ok c
            ∧ normalizeIri s
              = Ok (a +:+ match prop c "fragment" with
                          | Some fragment =>
                              "#" +:+ normalizeQueryWith isAllowedUnescapedInIQuery fragment
                          | None => ""
                          end)).
Proof.
  split.
  - apply (toAbsolute_normalize strategies.uri uri "URI" s a eq_refl).
    + vm_compute; reflexivity.
    + intros p Hp. apply noHash_normalizePathWith; [vm_compute; reflexivity|done].
    + intros q Hq. apply noHash_normalizeQueryWith; [vm_compute; reflexivity|done].
  - apply (toAbsolute_normalize strategies.iri iri "IRI" s a eq_refl).
    + vm_compute; reflexivity.
    + intros p Hp. apply noHash_normalizePathWith; [vm_compute; reflexivity|done].
    + intros q Hq. apply noHash_normalizeQueryWith; [vm_compute; reflexivity|done].
Qed.

Lemma toAbsolute_drops_the_fragment_witness :
  toAbsoluteUri "HTTP://a/b?q#f" = Ok "http://a/b?q"
  ∧ allChars notHash "http://a/b?q" = true.
Proof.
  assert (H : toAbsoluteUri "HTTP://a/b?q#f" = Ok "http://a/b?q")
    by (vm_compute; reflexivity).
  exact (conj H (proj1 (proj1 (toAbsolute_drops_the_fragment _ _) H))).
Defined.

(** ** A URI as a reference *)

Lemma run_startsAtBos len r k s e :
  startsAtBos r = true → String.length s ≠ len → run len r k s e = None.
Proof.
  revert k s e.
  induction r as [|p| | |a IHa b IHb|a IHa b IHb|min max greedy a IHa|g a IHa|a IHa];
    intros k s e Hr Hs; cbn [startsAtBos] in Hr; try done; cbn [run].
  - by apply Nat.eqb_neq in Hs as ->.
  - by apply IHa.
  - apply andb_prop in Hr as [Ha Hb]. by rewrite IHa, IHb.
  - by apply IHa.
Qed.

Lemma search_startsAtBos len r s :
  startsAtBos r = true → String.length s < len → search len r s = None.
Proof.
  intros Hr. induction s as [|c s IH]; intros Hs; cbn [search].
  - rewrite run_startsAtBos; [done..|lia].
  - rewrite run_startsAtBos; [|done|lia]. apply IH. simpl in Hs. lia.
Qed.

(** An anchored pattern is only tried at the start of the input. *)
Lemma exec_startsAtBos r s :
  startsAtBos r = true →
  exec r s = snd <$> run (String.length s) r accept s (reset (names r) ∅).
Proof.
  intros Hr. unfold exec. destruct s as [|c s]; cbn [search].
  - by destruct (run _ r accept "" _) as [[? ?]|].
  - destruct (run _ r accept (String c s) _) as [[? ?]|]; [done|].
    apply search_startsAtBos; [done|]. simpl. lia.
Qed.

Lemma exec_reference_of_uri s groups :
  (exec uri s = Some groups → exec uriReference s = Some groups)
  ∧ (exec iri s = Some groups → exec iriReference s = Some groups).
Proof.
  rewrite !exec_startsAtBos by (vm_compute; reflexivity).
  change (names uriReference) with (names uri).
  change (names iriReference) with (names iri).
  generalize (reset (names uri) ∅) (reset (names iri) ∅). intros e e'.
  unfold uri, uriReference, iri, iriReference, seqs. cbn [alts foldr run].
  destruct (String.length s =? String.length s); [|done].
  split.
  - destruct (run _ scheme _ s e) as [[t g]|]; [|done]. done.
  - destruct (run _ scheme _ s e') as [[t g]|]; [|done]. done.
Qed.

Lemma resolveReference_of_identifier strategy pattern reference type rtype s base :
  parse strategy = createParser pattern type →
  parseReference strategy = createParser reference rtype →
  forallb (branchOk true) (outcomes pattern) = true →
  (∀ groups, exec pattern s = Some groups → exec reference s = Some groups) →
  test pattern s = true →
  resolveReference strategy s base = normalize strategy s.
Proof.
  intros Hparse Href Houts Hexec Htest.
  unfold resolveReference, normalize. rewrite Hparse, Href.
  pose proof (createParser_test pattern type s) as Hc.
  destruct (createParser pattern type s) as [c|e] eqn:Hparsed;
    [|destruct Hc; congruence].
  pose proof (createParser_components true _ _ _ _ Houts Hparsed) as (Hscheme & _).
  destruct (Hscheme eq_refl) as [x Hx].
  assert (createParser reference rtype s = Ok c) as ->.
  { revert Hparsed. unfold createParser.
    destruct (exec pattern s) as [groups|] eqn:Hg; [|done].
    by rewrite (Hexec groups eq_refl). }
  cbn [bind]. rewrite bool_decide_eq_false_2; [done|]. by rewrite Hx.
Qed.

(** X6: resolving a string that is a URI gives its normalisation, whatever
    the base is, even one that is no absolute URI; the same holds of an IRI
    and [resolveIri]. *)
Theorem resolve_of_identifier (s base : string) :
  (isUri s = true → resolveUri s base = normalizeUri s)
  ∧ (isIri s = true → resolveIri s base = normalizeIri s).
Proof.
  split.
  - apply (resolveReference_of_identifier strategies.uri uri uriReference
             "URI" "URI-reference" s base eq_refl eq_refl);
      [vm_compute; reflexivity|].
    intros groups. apply exec_reference_of_uri.
  - apply (resolveReference_of_identifier strategies.iri iri iriReference
             "IRI" "IRI-reference" s base eq_refl eq_refl);
      [vm_compute; reflexivity|].
    intros groups. apply exec_reference_of_uri.
Qed.

Lemma resolve_of_identifier_witness :
  isUri "HTTP://A/b/../c" = true
  ∧ resolveUri "HTTP://A/b/../c" "no base" = normalizeUri "HTTP://A/b/../c".
Proof.
  assert (H : isUri "HTTP://A/b/../c" = true) by (vm_compute; reflexivity).
  exact (conj H (proj1 (resolve_of_identifier "HTTP://A/b/../c" "no base") H)).
Defined.

(** ** The components partition the input *)

Lemma matches_seq_inv len a b s e s' e' :
  matches len (Seq a b) s e s' e' →
  ∃ s1 e1, matches len a s e s1 e1 ∧ matches len b s1 e1 s' e'.
Proof. inversion 1; subst; eauto. Qed.

Lemma matches_alt_inv len a b s e s' e' :
  matches len (Alt a b) s e s' e' →
  matches len a s e s' e' ∨ matches len b s e s' e'.
Proof. inversion 1; subst; eauto. Qed.

Lemma matches_lit_inv len c s e s' e' :
  matches len (lit c) s e s' e' → s = String c s' ∧ e' = e.
Proof.
  unfold lit. inversion 1 as [|? d ? ? Hd| | | | | | | | |]; subst.
  by apply Ascii.eqb_eq in Hd as ->.
Qed.

Lemma matches_empty_inv len s e s' e' :
  matches len Empty s e s' e' → s' = s ∧ e' = e.
Proof. by inversion 1. Qed.

Lemma matches_eos_inv len s e s' e' :
  matches len Eos s e s' e' → s = "" ∧ s' = "" ∧ e' = e.
Proof. by inversion 1. Qed.

Lemma matches_bos_inv len s e s' e' :
  matches len Bos s e s' e' → String.length s = len ∧ s' = s ∧ e' = e.
Proof. by inversion 1. Qed.

Lemma matches_notahead_inv len a s e s' e' :
  matches len (NotAhead a) s e s' e' →
  run len a accept s e = None ∧ s' = s ∧ e' = e.
Proof. by inversion 1. Qed.

Lemma matches_group_inv len g a s e s' e' :
  matches len (Group g a) s e s' e' →
  ∃ w e1, matches len a s e s' e1 ∧ s = w +:+ s' ∧ e' = <[g := Some w]> e1.
Proof.
  inversion 1 as [| | | | | | |? ? ? ? ? e1 Ha| | |]; subst.
  destruct (matches_suffix _ _ _ _ _ _ Ha) as [w ->].
  exists w, e1. by rewrite consumed_app.
Qed.

Lemma matches_opt_inv len greedy a s e s' e' :
  matches len (Quant 0 (Some 1) greedy a) s e s' e' →
  (s' = s ∧ e' = e) ∨ matches len a s (reset (names a) e) s' e'.
Proof.
  inversion 1 as [| | | | | | | | |? ? ? ? ? ? Hdone
                 |? ? ? ? ? ? ? ? ? ? Hmax Ha Hlen Hrest]; subst; [by left|].
  right. cbn in Hrest.
  inversion Hrest as [| | | | | | | | |? ? ? ? ? ? Hdone'
                      |? ? ? ? ? ? ? ? ? ? Hmax']; subst; done.
Qed.

Lemma prop_reset gs (e : captures) h :
  prop (reset gs e) h = if decide (h ∈ gs) then None else prop e h.
Proof. unfold prop. rewrite lookup_reset. by case_decide. Qed.

(** A group captures what its body consumed, and leaves alone the groups
    that do not occur in it. *)
Lemma matches_group_prop len g a s e s' e' :
  matches len (Group g a) s e s' e' →
  ∃ w, s = w +:+ s' ∧ prop e' g = Some w
       ∧ ∀ h, h ≠ g → h ∉ names a → prop e' h = prop e h.
Proof.
  intros (w & e1 & Ha & -> & ->)%matches_group_inv. exists w.
  split; [done|]. split; [by rewrite prop_insert_eq|].
  intros h Hh Hnames. rewrite prop_insert_ne by done. unfold prop.
  by rewrite (matches_frame _ _ _ _ _ _ h Ha Hnames).
Qed.

Lemma beginsWith_app p w rest :
  beginsWith p (w +:+ rest) = false → beginsWith p w = false.
Proof.
  revert w. induction p as [|a p IH]; intros [|b w]; cbn [beginsWith]; try done.
  rewrite app_cons. cbn [beginsWith]. destruct (Ascii.eqb a b); [apply IH|done].
Qed.

Lemma run_slashes len s e :
  run len (Seq (lit "/") (Seq (lit "/") Empty)) accept s e = None →
  beginsWith "//" s = false.
Proof.
  unfold lit. cbn [run beginsWith]. destruct s as [|a [|b s]]; try done.
  - by destruct (Ascii.eqb "/" a).
  - by destruct (Ascii.eqb "/" a), (Ascii.eqb "/" b).
Qed.

Section Partition.
Context (head : regex → regex) (hier query tail : regex).

Hypothesis head_spec : ∀ len rest s e s' e',
  prop e "scheme" = None → matches len (head rest) s e s' e' →
  ∃ s1 e1, matches len rest s1 e1 s' e'
    ∧ s = match prop e1 "scheme" with Some x => x +:+ ":" | None => "" end +:+ s1
    ∧ ∀ h, h ≠ "scheme" → prop e1 h = prop e h.

Hypothesis hier_spec : ∀ len s e s' e',
  matches len hier s e s' e' →
  (∃ a p, s = "//" +:+ a +:+ p +:+ s'
          ∧ prop e' "authority" = Some a ∧ prop e' "path" = Some p
          ∧ ∀ h, h ∉ ["authority"; "userinfo"; "host"; "port"; "path"] →
                 prop e' h = prop e h)
  ∨ (∃ p, s = p +:+ s' ∧ beginsWith "//" p = false
          ∧ prop e' "path2" = Some p
          ∧ ∀ h, h ≠ "path2" → prop e' h = prop e h).

Hypothesis query_spec : ∀ len s e s' e',
  prop e "query" = None → matches len query s e s' e' →
  s = match prop e' "query" with Some q => "?" +:+ q | None => "" end +:+ s'
  ∧ ∀ h, h ≠ "query" → prop e' h = prop e h.

Hypothesis tail_spec : ∀ len s e s' e',
  prop e "fragment" = None → matches len tail s e s' e' →
  s = match prop e' "fragment" with Some f => "#" +:+ f | None => "" end
  ∧ ∀ h, h ≠ "fragment" → prop e' h = prop e h.

Lemma production_partition len s e s' groups :
  (∀ h, prop e h = None) →
  matches len (production head hier query tail) s e s' groups →
  s = match prop groups "scheme" with Some x => x +:+ ":" | None => "" end
      +:+ match prop groups "authority" with
          | Some a => "//" +:+ a +:+ default "" (prop groups "path")
          | None => default "" (prop groups "path2")
          end
      +:+ match prop groups "query" with Some q => "?" +:+ q | None => "" end
      +:+ match prop groups "fragment" with Some f => "#" +:+ f | None => "" end
  ∧ (prop groups "authority" = None →
     ∃ p, prop groups "path2" = Some p ∧ beginsWith "//" p = false).
Proof using head_spec hier_spec query_spec tail_spec.
  intros Hinit (s0 & e0 & Hbos & Hm)%matches_seq_inv.
  apply matches_bos_inv in Hbos as (_ & -> & ->).
  apply head_spec in Hm as (s1 & e1 & Hm & -> & Hframe1); [|done].
  apply matches_seq_inv in Hm as (s2 & e2 & Hhier & Hm).
  apply matches_seq_inv in Hm as (s3 & e3 & Hquery & Htail).
  assert (Hq2 : prop e2 "query" = None ∧ prop e2 "fragment" = None
                ∧ prop e2 "scheme" = prop e1 "scheme").
  { apply hier_spec in Hhier as [(a & p & _ & _ & _ & Hf)|(p & _ & _ & _ & Hf)].
    - rewrite !Hf by names_out. rewrite !Hframe1 by done. by rewrite !Hinit.
    - rewrite !Hf by done. rewrite !Hframe1 by done. by rewrite !Hinit. }
  destruct Hq2 as (Hq2 & Hf2 & Hs2).
  apply query_spec in Hquery as [-> Hframe3]; [|done].
  apply tail_spec in Htail as [-> Hframe4]; [|by rewrite Hframe3].
  rewrite (Hframe4 "scheme"), (Hframe3 "scheme"), Hs2 by done.
  rewrite (Hframe4 "authority"), (Hframe3 "authority") by done.
  rewrite (Hframe4 "path"), (Hframe3 "path") by done.
  rewrite (Hframe4 "path2"), (Hframe3 "path2") by done.
  rewrite (Hframe4 "query") by done.
  apply hier_spec in Hhier as [(a & p & -> & Ha & Hp & _)|(p & -> & Hp2 & Hp & Hf)].
  - rewrite Ha, Hp. cbn [default]. split; [|by intros ?].
    by rewrite ?app_assoc.
  - rewrite (Hf "authority"), (Hframe1 "authority"), Hinit, Hp by done.
    cbn [default].
    split; [by rewrite ?app_assoc|]. eauto.
Qed.

End Partition.

Lemma scheme_prop len s e s' e' :
  matches len scheme s e s' e' →
  ∃ w, s = w +:+ s' ∧ prop e' "scheme" = Some w
       ∧ ∀ h, h ≠ "scheme" → prop e' h = prop e h.
Proof.
  intros (w & -> & Hw & Hframe)%matches_group_prop. exists w.
  split; [done|]. split; [done|]. intros h Hh. apply Hframe; [done|].
  apply not_elem_of_nil.
Qed.

Lemma schemeHead_spec len rest s e s' e' :
  prop e "scheme" = None → matches len (schemeHead rest) s e s' e' →
  ∃ s1 e1, matches len rest s1 e1 s' e'
    ∧ s = match prop e1 "scheme" with Some x => x +:+ ":" | None => "" end +:+ s1
    ∧ ∀ h, h ≠ "scheme" → prop e1 h = prop e h.
Proof.
  intros _ (s1 & e1 & (w & -> & Hw & Hframe)%scheme_prop & Hm)%matches_seq_inv.
  apply matches_seq_inv in Hm as (s2 & e2 & [-> ->]%matches_lit_inv & Hm).
  exists s2, e1. split; [done|]. rewrite Hw. split; [|done].
  by rewrite app_assoc.
Qed.

Lemma optionalSchemeHead_spec len rest s e s' e' :
  prop e "scheme" = None → matches len (optionalSchemeHead rest) s e s' e' →
  ∃ s1 e1, matches len rest s1 e1 s' e'
    ∧ s = match prop e1 "scheme" with Some x => x +:+ ":" | None => "" end +:+ s1
    ∧ ∀ h, h ≠ "scheme" → prop e1 h = prop e h.
Proof.
  intros Hnone (s1 & e1 & [Hm|Hm]%matches_alt_inv & Hrest)%matches_seq_inv.
  - apply matches_seq_inv in Hm as (s2 & e2 & (w & -> & Hw & Hframe)%scheme_prop & Hm).
    apply matches_seq_inv in Hm as (s3 & e3 & [-> ->]%matches_lit_inv & Hm).
    apply matches_empty_inv in Hm as [-> ->].
    exists s3, e2. split; [done|]. rewrite Hw. split; [|done].
    by rewrite app_assoc.
  - apply matches_empty_inv in Hm as [-> ->].
    exists s, e. by rewrite Hnone.
Qed.

Lemma hierPart_spec authorityBody pathBody path2Body len s e s' e' :
  names authorityBody = ["userinfo"; "host"; "port"] →
  names pathBody = [] → names path2Body = [] →
  matches len (hierPart authorityBody pathBody path2Body) s e s' e' →
  (∃ a p, s = "//" +:+ a +:+ p +:+ s'
          ∧ prop e' "authority" = Some a ∧ prop e' "path" = Some p
          ∧ ∀ h, h ∉ ["authority"; "userinfo"; "host"; "port"; "path"] →
                 prop e' h = prop e h)
  ∨ (∃ p, s = p +:+ s' ∧ beginsWith "//" p = false
          ∧ prop e' "path2" = Some p
          ∧ ∀ h, h ≠ "path2" → prop e' h = prop e h).
Proof.
  intros Hauthority Hpath Hpath2 [Hm|Hm]%matches_alt_inv.
  - left.
    apply matches_seq_inv in Hm as (s1 & e1 & Hslashes & Hm).
    apply matches_seq_inv in Hslashes as (? & ? & [-> ->]%matches_lit_inv & Hslashes).
    apply matches_seq_inv in Hslashes as (? & ? & [-> ->]%matches_lit_inv & Hslashes).
    apply matches_empty_inv in Hslashes as [-> ->].
    apply matches_seq_inv in Hm as (s2 & e2 & (a & -> & Ha & Hframe2)%matches_group_prop & Hm).
    apply matches_seq_inv in Hm as (s3 & e3 & (p & -> & Hp & Hframe3)%matches_group_prop & Hm).
    apply matches_empty_inv in Hm as [-> ->].
    rewrite Hauthority in Hframe2. rewrite Hpath in Hframe3.
    exists a, p. split; [done|].
    split; [by rewrite Hframe3 by (done || apply not_elem_of_nil)|].
    split; [done|]. intros h Hh.
    rewrite !not_elem_of_cons in Hh. destruct Hh as (H1 & H2 & H3 & H4 & H5 & _).
    rewrite Hframe3 by (done || apply not_elem_of_nil).
    apply Hframe2; [done|]. rewrite !not_elem_of_cons.
    repeat split; (done || apply not_elem_of_nil).
  - right.
    apply matches_group_inv in Hm as (p & e1 & Hm & -> & ->).
    apply matches_seq_inv in Hm as (s1 & e2 & Hahead & Hm).
    apply matches_notahead_inv in Hahead as (Hahead & -> & ->).
    apply run_slashes, beginsWith_app in Hahead.
    exists p. split; [done|]. split; [done|].
    split; [by rewrite prop_insert_eq|].
    intros h Hh. rewrite prop_insert_ne by done. unfold prop.
    rewrite (matches_frame _ _ _ _ _ _ h Hm); [done|].
    rewrite Hpath2. apply not_elem_of_nil.
Qed.

Lemma optionalPart_spec mark name body len s e s' e' :
  names body = [] → prop e name = None →
  matches len (optionalPart mark name body) s e s' e' →
  s = match prop e' name with Some x => String mark x | None => "" end +:+ s'
  ∧ ∀ h, h ≠ name → prop e' h = prop e h.
Proof.
  intros Hbody Hnone [[-> ->]|Hm]%matches_opt_inv; [by rewrite Hnone|].
  apply matches_seq_inv in Hm as (s1 & e1 & [-> ->]%matches_lit_inv & Hm).
  apply matches_seq_inv in Hm as (s2 & e2 & (w & -> & Hw & Hframe)%matches_group_prop & Hm).
  apply matches_empty_inv in Hm as [-> ->].
  rewrite Hw. split; [done|]. intros h Hh.
  rewrite Hframe by (done || rewrite Hbody; apply not_elem_of_nil).
  rewrite prop_reset. cbn [names]. rewrite Hbody. cbn [app].
  rewrite decide_False; [done|]. by intros ->%list_elem_of_singleton.
Qed.

Lemma fragmentTail_spec body len s e s' e' :
  names body = [] → prop e "fragment" = None →
  matches len (Seq (optionalPart "#" "fragment" body) (Seq Eos Empty)) s e s' e' →
  s = match prop e' "fragment" with Some f => "#" +:+ f | None => "" end
  ∧ ∀ h, h ≠ "fragment" → prop e' h = prop e h.
Proof.
  intros Hbody Hnone (s1 & e1 & Hm & Hend)%matches_seq_inv.
  apply matches_seq_inv in Hend as (s2 & e2 & (-> & -> & ->)%matches_eos_inv & Hend).
  apply matches_empty_inv in Hend as [-> ->].
  apply optionalPart_spec in Hm as [-> Hframe]; [|done..].
  split; [|done]. rewrite app_nil_r. by destruct (prop e1 "fragment").
Qed.

Lemma endTail_spec len s e s' e' :
  prop e "fragment" = None →
  matches len (Seq Eos Empty) s e s' e' →
  s = match prop e' "fragment" with Some f => "#" +:+ f | None => "" end
  ∧ ∀ h, h ≠ "fragment" → prop e' h = prop e h.
Proof.
  intros Hnone (s2 & e2 & (-> & -> & ->)%matches_eos_inv & Hend)%matches_seq_inv.
  apply matches_empty_inv in Hend as [-> ->]. by rewrite Hnone.
Qed.

Lemma createParser_recompose head authorityBody pathBody path2Body queryBody tail
    pattern type s c :
  pattern = production head (hierPart authorityBody pathBody path2Body)
              (optionalPart "?" "query" queryBody) tail →
  head = schemeHead ∨ head = optionalSchemeHead →
  tail = Seq Eos Empty
  ∨ (∃ body, tail = Seq (optionalPart "#" "fragment" body) (Seq Eos Empty)
             ∧ names body = []) →
  names authorityBody = ["userinfo"; "host"; "port"] →
  names pathBody = [] → names path2Body = [] → names queryBody = [] →
  createParser pattern type s = Ok c →
  recompose c = s
  ∧ (prop c "authority" = None →
     ∃ path, prop c "path" = Some path ∧ beginsWith "//" path = false).
Proof.
  intros -> Hhead Htail Hauthority Hpath Hpath2 Hquery
    (groups & Hexec & ->)%createParser_Ok.
  rewrite exec_startsAtBos in Hexec by done.
  destruct (run _ _ accept s _) as [[t' g]|] eqn:Hrun; [|done].
  cbn in Hexec. injection Hexec as Heq. subst g.
  apply run_sound in Hrun as (t & e & Hm & Haccept).
  injection Haccept as Ht He. subst t e.
  apply production_partition in Hm as [Hs Hp].
  - unfold recompose. destruct (prop groups "authority") as [a|] eqn:Ha.
    + rewrite bool_decide_eq_false_2 by done. prop_simpl. rewrite Ha.
      split; [|done]. etrans; [|symmetry; exact Hs]. by rewrite !app_assoc.
    + rewrite bool_decide_eq_true_2 by done. prop_simpl. rewrite Ha.
      destruct (Hp eq_refl) as (p & Hp2 & Hslashes). rewrite Hp2 in *.
      split; [|by eauto]. etrans; [|symmetry; exact Hs]. done.
  - destruct Hhead as [-> | ->]; [apply schemeHead_spec|apply optionalSchemeHead_spec].
  - intros len' s0 e0 s0' e0'. by apply hierPart_spec.
  - intros len' s0 e0 s0' e0'. by apply optionalPart_spec.
  - destruct Htail as [-> | (body & -> & Hbody)].
    + apply endTail_spec.
    + intros len' s0 e0 s0' e0'. by apply fragmentTail_spec.
  - intros h. rewrite prop_reset. by case_decide.
Qed.

Lemma createParser_recompose_patterns pattern type s c :
  pattern ∈ [uri; uriReference; absoluteUri; iri; iriReference; absoluteIri] →
  createParser pattern type s = Ok c →
  recompose c = s
  ∧ (prop c "authority" = None →
     ∃ path, prop c "path" = Some path ∧ beginsWith "//" path = false).
Proof.
  intros Hpattern H. repeat apply elem_of_cons in Hpattern as [->|Hpattern].
  - exact (createParser_recompose schemeHead _ _ _ _ _ uri type s c
             eq_refl (or_introl eq_refl)
             (or_intror (ex_intro _ _ (conj eq_refl eq_refl)))
             eq_refl eq_refl eq_refl eq_refl H).
  - exact (createParser_recompose optionalSchemeHead _ _ _ _ _ uriReference type s c
             eq_refl (or_intror eq_refl)
             (or_intror (ex_intro _ _ (conj eq_refl eq_refl)))
             eq_refl eq_refl eq_refl eq_refl H).
  - exact (createParser_recompose schemeHead _ _ _ _ _ absoluteUri type s c
             eq_refl (or_introl eq_refl) (or_introl eq_refl)
             eq_refl eq_refl eq_refl eq_refl H).
  - exact (createParser_recompose schemeHead _ _ _ _ _ iri type s c
             eq_refl (or_introl eq_refl)
             (or_intror (ex_intro _ _ (conj eq_refl eq_refl)))
             eq_refl eq_refl eq_refl eq_refl H).
  - exact (createParser_recompose optionalSchemeHead _ _ _ _ _ iriReference type s c
             eq_refl (or_intror eq_refl)
             (or_intror (ex_intro _ _ (conj eq_refl eq_refl)))
             eq_refl eq_refl eq_refl eq_refl H).
  - exact (createParser_recompose schemeHead _ _ _ _ _ absoluteIri type s c
             eq_refl (or_introl eq_refl) (or_introl eq_refl)
             eq_refl eq_refl eq_refl eq_refl H).
  - by apply elem_of_nil in Hpattern.
Qed.

(** X7: the components that a parser returns partition the text it was
    given: the scheme with its colon, the authority with its two slashes,
    the path, the query with its question mark and the fragment with its
    hash, in this order and with nothing changed, give the text back.  And
    without an authority the path does not begin with two slashes. *)
Theorem parse_recompose (s : string) (c : captures) :
  parseUri s = Ok c ∨ parseUriReference s = Ok c ∨ parseAbsoluteUri s = Ok c
  ∨ parseIri s = Ok c ∨ parseIriReference s = Ok c ∨ parseAbsoluteIri s = Ok c →
  recompose c = s
  ∧ (prop c "authority" = None →
     ∃ path, prop c "path" = Some path ∧ beginsWith "//" path = false).
Proof.
  intros [H|[H|[H|[H|[H|H]]]]];
    (eapply createParser_recompose_patterns; [|exact H]); names_in.
Qed.

Lemma parse_recompose_witness :
  ∃ c, parseUri "http://u@h:8/p/q?x=1#top" = Ok c
       ∧ recompose c = "http://u@h:8/p/q?x=1#top".
Proof.
  assert (Hscheme : propOf (parseUri "http://u@h:8/p/q?x=1#top") "scheme"
                    = Ok (Some "http")) by (vm_compute; reflexivity).
  destruct (parseUri "http://u@h:8/p/q?x=1#top") as [c|e] eqn:Hc;
    [|discriminate Hscheme].
  exists c. split; [reflexivity|].
  exact (proj1 (parse_recompose _ c (or_introl Hc))).
Defined.

(** ** The alphabet of the recognisers *)

Lemma createParser_capturesIn Q pattern type s c :
  captured Q (λ _, true) pattern = true →
  createParser pattern type s = Ok c →
  ∀ g v, prop c g = Some v → allChars Q v = true.
Proof.
  intros Hpattern (groups & Hexec & ->)%createParser_Ok.
  apply exec_matches in Hexec as (t & t' & Hm).
  assert (Hgroups : ∀ g v, prop groups g = Some v → allChars Q v = true).
  { eapply matches_captured in Hm; [|done|].
    - intros g v Hv. apply (Hm g v); [done|].
      unfold prop in Hv. destruct (groups !! g) as [[x|]|]; by simplify_eq/=.
    - apply capturesIn_reset. intros g v _. by rewrite lookup_empty. }
  intros g v. destruct (decide (g = "path2")) as [->|Hg].
  { by rewrite prop_delete_eq. }
  rewrite prop_delete_ne by done. case_bool_decide; [|by apply Hgroups].
  destruct (decide (g = "path")) as [->|Hp].
  - rewrite prop_insert_eq. apply Hgroups.
  - rewrite prop_insert_ne by done. apply Hgroups.
Qed.

Lemma recompose_allChars (Q : ascii → bool) (c : captures) :
  Q ":"%char = true → Q "/"%char = true → Q "?"%char = true → Q "#"%char = true →
  (∀ g v, prop c g = Some v → allChars Q v = true) →
  allChars Q (recompose c) = true.
Proof.
  intros Hcolon Hslash Hquestion Hhash Hc. unfold recompose.
  rewrite !allChars_app.
  assert (Hscheme : allChars Q match prop c "scheme" with
                                | Some scheme => scheme +:+ ":" | None => "" end = true).
  { destruct (prop c "scheme") as [x|] eqn:Hx; [|done].
    rewrite allChars_app, (Hc _ _ Hx). cbn. by rewrite Hcolon. }
  assert (Hauthority : allChars Q match prop c "authority" with
                                   | Some a => "//" +:+ a | None => "" end = true).
  { destruct (prop c "authority") as [x|] eqn:Hx; [|done].
    rewrite allChars_app, (Hc _ _ Hx). cbn. by rewrite Hslash. }
  assert (Hpath : allChars Q (default "" (prop c "path")) = true).
  { destruct (prop c "path") as [x|] eqn:Hx; [|done]. by apply (Hc "path"). }
  assert (Hquery : allChars Q match prop c "query" with
                               | Some q => "?" +:+ q | None => "" end = true).
  { destruct (prop c "query") as [x|] eqn:Hx; [|done].
    rewrite allChars_app, (Hc _ _ Hx). cbn. by rewrite Hquestion. }
  assert (Hfragment : allChars Q match prop c "fragment" with
                                  | Some f => "#" +:+ f | None => "" end = true).
  { destruct (prop c "fragment") as [x|] eqn:Hx; [|done].
    rewrite allChars_app, (Hc _ _ Hx). cbn. by rewrite Hhash. }
  by rewrite Hscheme, Hauthority, Hpath, Hquery, Hfragment.
Qed.

(** ** The three patterns of [removeDotSegments] *)

Lemma repeatMatcher_max0 step gs greedy k n min s e :
  repeatMatcher step gs greedy k n min (Some 0) s e = k s e.
Proof. by destruct n. Qed.

(** An optional character. *)
Lemma run_opt_lit len c k s e :
  run len (opt (lit c)) k s e =
    match s with
    | String d s' => if Ascii.eqb c d then orElse (k s' e) (k s e) else k s e
    | "" => k s e
    end.
Proof.
  unfold opt, lit. cbn [run names]. destruct s as [|d s']; [done|].
  cbn [String.length Nat.add repeatMatcher run reset foldr Nat.eqb andb Nat.ltb Nat.leb].
  destruct (Ascii.eqb c d); [|done].
  replace (String.length s' =? S (String.length s')) with false
    by (symmetry; apply Nat.eqb_neq; lia).
  cbn [fmap option_fmap option_map pred]. by rewrite repeatMatcher_max0.
Qed.

Lemma run_bos_here r k s e :
  run (String.length s) (Seq Bos r) k s e = run (String.length s) r k s e.
Proof. cbn [run]. by rewrite Nat.eqb_refl. Qed.

Lemma test_startsAtBos r s :
  startsAtBos r = true → names r = [] →
  test r s = bool_decide (is_Some (run (String.length s) r accept s ∅)).
Proof.
  intros Hr Hnames. unfold test. rewrite exec_startsAtBos by done.
  rewrite Hnames. cbn [reset foldr].
  by destruct (run _ r accept s ∅) as [[? ?]|].
Qed.

Lemma run_lit len c k s e :
  run len (lit c) k s e =
    match s with
    | String d s' => if Ascii.eqb c d then k s' e else None
    | "" => None
    end.
Proof. done. Qed.

Ltac run_simpl :=
  repeat first [rewrite run_opt_lit | rewrite run_lit | progress cbn [run orElse accept]].

Lemma test_isNoOpSegment path :
  test isNoOpSegment path
    = beginsWith "./" path || beginsWith "../" path
      || sameAs "." path || sameAs ".." path.
Proof.
  rewrite test_startsAtBos by done.
  unfold isNoOpSegment, seqs, alts. cbn [foldr run]. rewrite !Nat.eqb_refl.
  destruct path as [|c1 [|c2 [|c3 rest]]]; cbn [beginsWith sameAs]; run_simpl;
    try reflexivity.
  - by destruct (Ascii.eqb "." c1).
  - by destruct (Ascii.eqb "." c1), (Ascii.eqb "." c2), (Ascii.eqb "/" c2).
  - by destruct (Ascii.eqb "." c1), (Ascii.eqb "." c2), (Ascii.eqb "/" c2),
      (Ascii.eqb "/" c3).
Qed.

Lemma test_isSlashDotSegment path :
  test isSlashDotSegment path = beginsWith "/./" path || sameAs "/." path.
Proof.
  rewrite test_startsAtBos by done.
  unfold isSlashDotSegment, seqs, alts. cbn [foldr]. rewrite run_bos_here.
  destruct path as [|c1 [|c2 [|c3 rest]]]; cbn [beginsWith sameAs]; run_simpl;
    try reflexivity.
  - by destruct (Ascii.eqb "/" c1).
  - by destruct (Ascii.eqb "/" c1), (Ascii.eqb "." c2).
  - by destruct (Ascii.eqb "/" c1), (Ascii.eqb "." c2), (Ascii.eqb "/" c3).
Qed.

Lemma test_isUpSegment path :
  test isUpSegment path = beginsWith "/../" path || sameAs "/.." path.
Proof.
  rewrite test_startsAtBos by done.
  unfold isUpSegment, seqs, alts. cbn [foldr]. rewrite run_bos_here.
  destruct path as [|c1 [|c2 [|c3 [|c4 rest]]]]; cbn [beginsWith sameAs]; run_simpl;
    try reflexivity.
  - by destruct (Ascii.eqb "/" c1).
  - by destruct (Ascii.eqb "/" c1), (Ascii.eqb "." c2).
  - by destruct (Ascii.eqb "/" c1), (Ascii.eqb "." c2), (Ascii.eqb "." c3).
  - by destruct (Ascii.eqb "/" c1), (Ascii.eqb "." c2), (Ascii.eqb "." c3),
      (Ascii.eqb "/" c4).
Qed.

(** ** Segments *)

Lemma firstSegment_cons d s :
  firstSegment (String d s)
  = if Ascii.eqb d "/" then "" else String d (firstSegment s).
Proof.
  unfold firstSegment. cbn [find]. destruct (Ascii.eqb d "/"); [done|].
  by destruct (find "/" s).
Qed.

Lemma afterFirst_cons d s :
  afterFirst (String d s) = if Ascii.eqb d "/" then String d s else afterFirst s.
Proof.
  unfold afterFirst. cbn [find]. destruct (Ascii.eqb d "/"); [done|].
  by destruct (find "/" s).
Qed.

Lemma firstSegment_afterFirst s : firstSegment s +:+ afterFirst s = s.
Proof.
  unfold firstSegment, afterFirst. destruct (find "/" s).
  - apply take_drop.
  - apply app_nil_r.
Qed.

Lemma afterFirst_slash s : afterFirst s = "" ∨ ∃ t, afterFirst s = String "/" t.
Proof.
  induction s as [|d s IH]; [by left|]. rewrite afterFirst_cons.
  destruct (Ascii.eqb_spec d "/") as [->|_]; [right; eauto|done].
Qed.

Lemma afterFirst_length s : String.length (afterFirst s) ≤ String.length s.
Proof.
  induction s as [|d s IH]; [done|]. rewrite afterFirst_cons.
  destruct (Ascii.eqb d "/"); simpl; lia.
Qed.

Lemma firstSegment_notSlash s : allChars notSlash (firstSegment s) = true.
Proof.
  induction s as [|d s IH]; [done|]. rewrite firstSegment_cons.
  destruct (Ascii.eqb d "/") eqn:Hd; [done|].
  cbn [allChars]. unfold notSlash at 1. by rewrite Hd, IH.
Qed.

Lemma find_notSlash x : allChars notSlash x = true → find "/" x = None.
Proof.
  induction x as [|d x IH]; [done|]. cbn [allChars find]. unfold notSlash at 1.
  intros [Hd Hx]%andb_prop. apply negb_true_iff in Hd. by rewrite Hd, IH.
Qed.

Lemma split_first s :
  split "/" s
  = firstSegment s :: match afterFirst s with "" => [] | String _ t => split "/" t end.
Proof.
  induction s as [|d s IH]; [done|].
  rewrite firstSegment_cons, afterFirst_cons. cbn [split].
  destruct (Ascii.eqb d "/"); [done|]. by rewrite IH.
Qed.

Lemma split_app_slash a b :
  split "/" (a +:+ String "/" b) = split "/" a ++ split "/" b.
Proof.
  induction a as [|d a IH]; [done|]. rewrite app_cons. cbn [split].
  destruct (Ascii.eqb d "/"); [by rewrite IH|].
  rewrite IH. by rewrite (split_first a).
Qed.

Lemma find_drop c s i : find c s = Some i → drop i s = String c (drop (S i) s).
Proof.
  revert i. induction s as [|d s IH]; intros i; [done|]. cbn [find].
  destruct (Ascii.eqb_spec d c) as [->|_]; [by intros [= <-]|].
  destruct (find c s) as [j|]; [|done]. intros [= <-]. cbn [drop]. by apply IH.
Qed.

Lemma lastIndexOf_split c s i :
  lastIndexOf c s = Some i → s = take i s +:+ String c (drop (S i) s).
Proof.
  revert i. induction s as [|d s IH]; intros i; [done|]. cbn [lastIndexOf].
  destruct (lastIndexOf c s) as [j|].
  - intros [= <-]. cbn [take drop]. rewrite app_cons. f_equal. by apply IH.
  - destruct (Ascii.eqb_spec d c) as [->|_]; [|done]. by intros [= <-].
Qed.

(** ** The helpers of [removeDotSegments] on a path that is not empty *)

Lemma indexOf_1 c s : indexOf "/" 1 (String c s) = S <$> find "/" s.
Proof.
  unfold indexOf. rewrite decide_True by (simpl; lia). cbn [drop].
  by destruct (find "/" s).
Qed.

Lemma getSegment_cons c s : getSegment (String c s) = String c (firstSegment s).
Proof.
  unfold getSegment, firstSegment, slice2. rewrite indexOf_1.
  by destruct (find "/" s).
Qed.

Lemma removeSegment_cons c s : removeSegment (String c s) = afterFirst s.
Proof.
  unfold removeSegment, afterFirst, slice. rewrite indexOf_1.
  destruct (find "/" s) as [i|] eqn:Hi; [|done]. cbn [fmap option_fmap option_map].
  rewrite (find_drop _ _ _ Hi). by rewrite Nat.add_1_r.
Qed.

Lemma replaceSegmentWithSlash_cons c s :
  replaceSegmentWithSlash (String c s)
  = match afterFirst s with "" => "/" | t => t end.
Proof.
  unfold replaceSegmentWithSlash, afterFirst, slice. rewrite indexOf_1.
  destruct (find "/" s) as [i|] eqn:Hi; [|done]. cbn [fmap option_fmap option_map].
  rewrite (find_drop _ _ _ Hi). by rewrite Nat.add_1_r.
Qed.

Lemma beginsWith_firstSegment x s :
  allChars notSlash x = true →
  beginsWith (x +:+ "/") s || sameAs x s = sameAs x (firstSegment s).
Proof.
  revert s. induction x as [|a x IH]; intros s Hx.
  - destruct s as [|d s]; [done|]. rewrite firstSegment_cons, app_nil_l.
    cbn [beginsWith sameAs]. rewrite Ascii.eqb_sym. by destruct (Ascii.eqb d "/").
  - cbn [allChars] in Hx. apply andb_prop in Hx as [Ha Hx].
    apply negb_true_iff in Ha.
    destruct s as [|d s]; [done|]. rewrite firstSegment_cons, app_cons.
    cbn [beginsWith sameAs]. rewrite <- andb_orb_distrib_r, IH by done.
    destruct (Ascii.eqb a d) eqn:Had.
    + apply Ascii.eqb_eq in Had as <-. rewrite Ha. cbn [sameAs].
      by rewrite Ascii.eqb_refl.
    + destruct (Ascii.eqb d "/"); [done|]. cbn [sameAs]. by rewrite Had.
Qed.

Lemma isNoOpSegment_firstSegment path :
  test isNoOpSegment path = isDotSegment (firstSegment path).
Proof.
  rewrite test_isNoOpSegment. unfold isDotSegment.
  rewrite <- (beginsWith_firstSegment "." path), <- (beginsWith_firstSegment ".." path)
    by done.
  rewrite !app_cons, !app_nil_l.
  by destruct (beginsWith "./" path), (beginsWith "../" path), (sameAs "." path).
Qed.

Lemma isSlashDotSegment_cons c s :
  test isSlashDotSegment (String c s) = Ascii.eqb "/" c && sameAs "." (firstSegment s).
Proof.
  rewrite test_isSlashDotSegment, <- (beginsWith_firstSegment "." s) by done.
  rewrite !app_cons, !app_nil_l. cbn [beginsWith sameAs].
  by rewrite andb_orb_distrib_r.
Qed.

Lemma isUpSegment_cons c s :
  test isUpSegment (String c s) = Ascii.eqb "/" c && sameAs ".." (firstSegment s).
Proof.
  rewrite test_isUpSegment, <- (beginsWith_firstSegment ".." s) by done.
  rewrite !app_cons, !app_nil_l. cbn [beginsWith sameAs].
  by rewrite andb_orb_distrib_r.
Qed.

(** One turn of the loop, on the first segment and what follows it. *)
Lemma removeDotSegmentsStep_cons c s output :
  removeDotSegmentsStep (String c s) output =
    if isDotSegment (firstSegment (String c s)) then (afterFirst s, output)
    else if Ascii.eqb "/" c && sameAs "." (firstSegment s)
    then (match afterFirst s with "" => "/" | t => t end, output)
    else if Ascii.eqb "/" c && sameAs ".." (firstSegment s)
    then (match afterFirst s with "" => "/" | t => t end, removeLastSegment output)
    else (afterFirst s, output +:+ String c (firstSegment s)).
Proof.
  unfold removeDotSegmentsStep.
  by rewrite isNoOpSegment_firstSegment, isSlashDotSegment_cons, isUpSegment_cons,
    removeSegment_cons, replaceSegmentWithSlash_cons, getSegment_cons.
Qed.

(** ** Paths without dot segments *)

Lemma dotFree_first s :
  dotFree s
  = negb (isDotSegment (firstSegment s))
    && match afterFirst s with "" => true | String _ t => dotFree t end.
Proof. unfold dotFree. rewrite (split_first s). by destruct (afterFirst s). Qed.

Lemma dotFree_slash t : dotFree (String "/" t) = dotFree t.
Proof. done. Qed.

Lemma dotFree_afterFirst s : dotFree s = true → dotFree (afterFirst s) = true.
Proof.
  rewrite (dotFree_first s). intros [_ Hs]%andb_prop.
  destruct (afterFirst_slash s) as [->|[t Ht]]; [done|].
  rewrite Ht in Hs |- *. by rewrite dotFree_slash.
Qed.

Lemma dotFree_app_slash a b :
  dotFree (a +:+ String "/" b) = dotFree a && dotFree b.
Proof. unfold dotFree. by rewrite split_app_slash, forallb_app. Qed.

Lemma dotFree_segment x :
  allChars notSlash x = true → dotFree x = negb (isDotSegment x).
Proof.
  intros Hx. unfold dotFree. rewrite split_first. unfold firstSegment, afterFirst.
  rewrite (find_notSlash _ Hx). cbn [forallb]. by rewrite andb_true_r.
Qed.

Lemma dotFree_removeLastSegment output :
  dotFree output = true → dotFree (removeLastSegment output) = true.
Proof.
  unfold removeLastSegment, slice2.
  destruct (lastIndexOf "/" output) as [i|] eqn:Hi; [|done].
  rewrite (lastIndexOf_split _ _ _ Hi) at 1. rewrite dotFree_app_slash.
  intros [? _]%andb_prop. by rewrite Nat.sub_0_r.
Qed.

(** The loop leaves a path without dot segments as it is. *)
Lemma removeDotSegmentsLoop_dotFree n path output :
  String.length path ≤ n → dotFree path = true →
  removeDotSegmentsLoop n path output = output +:+ path.
Proof.
  revert path output. induction n as [|n IH]; intros path output Hn Hpath.
  { destruct path; [|simpl in Hn; lia]. by rewrite app_nil_r. }
  destruct path as [|c s]; [by rewrite app_nil_r|].
  cbn [removeDotSegmentsLoop String.length Nat.ltb Nat.leb].
  rewrite removeDotSegmentsStep_cons.
  pose proof Hpath as Hfirst. rewrite dotFree_first in Hfirst.
  apply andb_prop in Hfirst as [Hfirst Hrest]. apply negb_true_iff in Hfirst.
  rewrite Hfirst.
  assert (Hs : Ascii.eqb "/" c = true → isDotSegment (firstSegment s) = false).
  { intros <-%Ascii.eqb_eq. rewrite dotFree_slash, dotFree_first in Hpath.
    apply andb_prop in Hpath as [Hpath _]. by apply negb_true_iff in Hpath. }
  assert (Hafter : dotFree (afterFirst s) = true).
  { apply dotFree_afterFirst in Hpath. revert Hpath. rewrite afterFirst_cons.
    destruct (Ascii.eqb_spec c "/") as [->|_]; [|done].
    rewrite dotFree_slash. apply dotFree_afterFirst. }
  destruct (Ascii.eqb "/" c).
  - specialize (Hs eq_refl). unfold isDotSegment in Hs.
    apply orb_false_elim in Hs as [-> ->]. cbn [andb].
    rewrite IH; [|pose proof (afterFirst_length s); simpl in Hn; lia|done].
    by rewrite app_assoc, app_cons, firstSegment_afterFirst.
  - cbn [andb].
    rewrite IH; [|pose proof (afterFirst_length s); simpl in Hn; lia|done].
    by rewrite app_assoc, app_cons, firstSegment_afterFirst.
Qed.

(** What the loop keeps: the output has no dot segment, and while the
    output is empty the path may lack its leading [/]. *)
Lemma removeDotSegmentsLoop_output_dotFree n path output :
  dotFree output = true →
  output = "" ∨ path = "" ∨ startsWith "/" path = true →
  dotFree (removeDotSegmentsLoop n path output) = true.
Proof.
  revert path output. induction n as [|n IH]; intros path output Hout Hpath; [done|].
  destruct path as [|c s]; [done|].
  cbn [removeDotSegmentsLoop String.length Nat.ltb Nat.leb].
  rewrite removeDotSegmentsStep_cons.
  assert (Hafter : ∀ o, o = "" ∨ afterFirst s = "" ∨ startsWith "/" (afterFirst s) = true).
  { intros o. right. destruct (afterFirst_slash s) as [->|[t ->]]; auto. }
  assert (Hslash : ∀ o, o = "" ∨ match afterFirst s with "" => "/" | t => t end = ""
                        ∨ startsWith "/" match afterFirst s with "" => "/" | t => t end = true).
  { intros o. right. right. by destruct (afterFirst_slash s) as [->|[t ->]]. }
  destruct (isDotSegment (firstSegment (String c s))) eqn:Hnoop; [by apply IH|].
  destruct (Ascii.eqb "/" c && sameAs "." (firstSegment s)) eqn:Hdot; [by apply IH|].
  destruct (Ascii.eqb "/" c && sameAs ".." (firstSegment s)) eqn:Hup.
  { apply IH; [by apply dotFree_removeLastSegment|done]. }
  apply IH; [|done].
  destruct (Ascii.eqb_spec "/" c) as [<-|Hc].
  - rewrite dotFree_app_slash, Hout. cbn [andb] in Hdot, Hup |- *.
    rewrite dotFree_segment by apply firstSegment_notSlash.
    unfold isDotSegment. by rewrite Hdot, Hup.
  - destruct Hpath as [->|[?|Hpath]]; [|done|].
    + rewrite app_nil_l. rewrite firstSegment_cons in Hnoop.
      rewrite Ascii.eqb_sym in Hnoop.
      destruct (Ascii.eqb_spec "/" c) as [?|_]; [done|].
      rewrite dotFree_segment; [by rewrite Hnoop|].
      cbn [allChars]. rewrite firstSegment_notSlash. unfold notSlash.
      rewrite Ascii.eqb_sym. by destruct (Ascii.eqb_spec "/" c).
    + cbn [startsWith] in Hpath. by apply Ascii.eqb_eq in Hpath.
Qed.

Lemma startsWith_removeLastSegment output :
  output = "" ∨ startsWith "/" output = true →
  removeLastSegment output = "" ∨ startsWith "/" (removeLastSegment output) = true.
Proof.
  intros [->|Hout]; [by left|]. unfold removeLastSegment, slice2.
  destruct (lastIndexOf "/" output) as [i|]; [|by right].
  rewrite Nat.sub_0_r. destruct output as [|d output]; [done|].
  destruct i as [|i]; [by left|by right].
Qed.

(** A path that begins with [/] gives an output that does. *)
Lemma removeDotSegmentsLoop_absolute n path output :
  String.length path ≤ n →
  output = "" ∨ startsWith "/" output = true →
  startsWith "/" path = true ∨ (path = "" ∧ startsWith "/" output = true) →
  startsWith "/" (removeDotSegmentsLoop n path output) = true.
Proof.
  revert path output. induction n as [|n IH]; intros path output Hn Hout Hpath.
  { destruct path; [|simpl in Hn; lia]. by destruct Hpath as [?|[_ ?]]. }
  destruct path as [|c s]; [by destruct Hpath as [?|[_ ?]]|].
  destruct Hpath as [Hc|[? _]]; [|done].
  apply Ascii.eqb_eq in Hc as ->.
  cbn [removeDotSegmentsLoop String.length Nat.ltb Nat.leb].
  rewrite removeDotSegmentsStep_cons, firstSegment_cons.
  change (Ascii.eqb "/" "/") with true. cbn [andb].
  change (isDotSegment "") with false. cbn [andb].
  pose proof (afterFirst_length s) as Hlen. simpl in Hn.
  assert (Hslash : startsWith "/" match afterFirst s with "" => "/" | t => t end = true).
  { by destruct (afterFirst_slash s) as [->|[t ->]]. }
  assert (Hslash_length :
    sameAs "." (firstSegment s) = true ∨ sameAs ".." (firstSegment s) = true →
    String.length match afterFirst s with "" => "/" | t => t end ≤ n).
  { intros Hdot. destruct (afterFirst s) eqn:Hafter; [|lia].
    destruct s as [|d s]; [by destruct Hdot|]. simpl in Hn |- *. lia. }
  destruct (sameAs "." (firstSegment s)) eqn:Hdot.
  { apply IH; auto. }
  destruct (sameAs ".." (firstSegment s)) eqn:Hup.
  { apply IH; auto. by apply startsWith_removeLastSegment. }
  assert (Hnew : startsWith "/" (output +:+ String "/" (firstSegment s)) = true).
  { by destruct Hout as [->|Hout]; [|destruct output]. }
  apply IH; [lia|auto|].
  destruct (afterFirst_slash s) as [->|[t ->]]; auto.
Qed.

(** ** Dot segments *)

(** X9: what the three patterns of [removeDotSegments] accept:
    [isNoOpSegment] the paths that begin with [./] or [../] and the paths
    [.] and [..]; [isSlashDotSegment] the paths that begin with [/./] and
    the path [/.]; [isUpSegment] the paths that begin with [/../] and the
    path [/..]. *)
Theorem dotSegment_patterns (path : string) :
  test isNoOpSegment path
    = beginsWith "./" path || beginsWith "../" path
      || sameAs "." path || sameAs ".." path
  ∧ test isSlashDotSegment path = beginsWith "/./" path || sameAs "/." path
  ∧ test isUpSegment path = beginsWith "/../" path || sameAs "/.." path.
Proof.
  exact (conj (test_isNoOpSegment path)
           (conj (test_isSlashDotSegment path) (test_isUpSegment path))).
Qed.

(** X10: whatever the path, no segment of what [removeDotSegments] returns
    is [.] or [..]. *)
Theorem removeDotSegments_output (path : string) :
  dotFree (removeDotSegments path) = true.
Proof. apply removeDotSegmentsLoop_output_dotFree; [done|by left]. Qed.

(** X11: [removeDotSegments] returns a path without dot segments as it
    is. *)
Theorem removeDotSegments_dotFree (path : string) :
  dotFree path = true → removeDotSegments path = path.
Proof. intros Hpath. by apply removeDotSegmentsLoop_dotFree. Qed.

Lemma removeDotSegments_dotFree_witness :
  dotFree "/a/b.c//..d/" = true ∧ removeDotSegments "/a/b.c//..d/" = "/a/b.c//..d/".
Proof.
  assert (H : dotFree "/a/b.c//..d/" = true) by reflexivity.
  exact (conj H (removeDotSegments_dotFree _ H)).
Defined.

(** X12: [removeDotSegments] is idempotent. *)
Theorem removeDotSegments_idempotent (path : string) :
  removeDotSegments (removeDotSegments path) = removeDotSegments path.
Proof.
  apply removeDotSegmentsLoop_dotFree; [done|].
  apply removeDotSegmentsLoop_output_dotFree; [done|by left].
Qed.

(** X13: of a path that begins with [/], [removeDotSegments] returns a path
    that begins with [/]: it is never empty. *)
Theorem removeDotSegments_absolute (path : string) :
  startsWith "/" path = true → startsWith "/" (removeDotSegments path) = true.
Proof. intros Hpath. apply removeDotSegmentsLoop_absolute; auto. Qed.

Lemma removeDotSegments_absolute_witness :
  startsWith "/" "/a/../.." = true ∧ startsWith "/" (removeDotSegments "/a/../..") = true.
Proof.
  assert (H : startsWith "/" "/a/../.." = true) by reflexivity.
  exact (conj H (removeDotSegments_absolute _ H)).
Defined.

Lemma removeDotSegmentsLoop_length n path output :
  String.length (removeDotSegmentsLoop n path output)
  ≤ String.length output + String.length path.
Proof.
  revert path output. induction n as [|n IH]; intros path output; [simpl; lia|].
  destruct path as [|c s]; [simpl; lia|].
  cbn [removeDotSegmentsLoop String.length Nat.ltb Nat.leb].
  rewrite removeDotSegmentsStep_cons.
  pose proof (f_equal String.length (firstSegment_afterFirst s)) as Hs.
  rewrite length_app in Hs.
  assert (Hslash : String.length match afterFirst s with "" => "/" | t => t end
                   ≤ S (String.length s)).
  { destruct (afterFirst s); simpl in *; lia. }
  assert (Hlast : String.length (removeLastSegment output) ≤ String.length output).
  { unfold removeLastSegment, slice2. destruct (lastIndexOf "/" output); [|done].
    rewrite length_take. cbn [drop]. lia. }
  destruct (isDotSegment _).
  { etrans; [apply IH|]. lia. }
  destruct (_ && sameAs "." _).
  { etrans; [apply IH|]. lia. }
  destruct (_ && sameAs ".." _).
  { etrans; [apply IH|]. lia. }
  etrans; [apply IH|]. rewrite length_app. simpl. lia.
Qed.

(** X14: what [removeDotSegments] returns is never longer than the
    path. *)
Theorem removeDotSegments_length (path : string) :
  String.length (removeDotSegments path) ≤ String.length path.
Proof. apply (removeDotSegmentsLoop_length (String.length path) path ""). Qed.

(** ** Percent-encoding normalisation, twice *)

Lemma replaceTriplets_other f c s :
  Ascii.eqb "%" c = false →
  replaceTriplets f (String c s) = String c (replaceTriplets f s).
Proof. intros Hc. cbn [replaceTriplets]. rewrite Hc. by destruct s as [|? [|? ?]]. Qed.

Lemma replaceTriplets_triplet f h1 h2 rest :
  isHexdig h1 = true → isHexdig h2 = true →
  replaceTriplets f (triplet h1 h2 +:+ rest) = f (triplet h1 h2) +:+ replaceTriplets f rest.
Proof.
  intros H1 H2. unfold triplet. rewrite !app_cons, app_nil_l.
  cbn [replaceTriplets]. rewrite H1, H2. done.
Qed.

Lemma replaceTriplets_notPercent f s :
  allChars notPercent s = true → replaceTriplets f s = s.
Proof.
  intros Hs. rewrite <- (app_nil_r s) at 1.
  rewrite replaceTriplets_plain by done. apply app_nil_r.
Qed.

(** Upper-casing a hexadecimal digit keeps its value. *)
Lemma upper_hexdig h :
  isHexdig h = true →
  isHexdig (upper h) = true ∧ hexValue (upper h) = hexValue h
  ∧ upper (upper h) = upper h ∧ is_Some (hexValue h).
Proof.
  pose (f := λ h, implb (isHexdig h)
    (isHexdig (upper h) && bool_decide (hexValue (upper h) = hexValue h)
     && bool_decide (upper (upper h) = upper h)
     && bool_decide (is_Some (hexValue h)))).
  assert (Hf : forallb f allAscii = true) by (vm_compute; reflexivity).
  pose proof (forallb_allAscii f Hf h) as Hh. unfold f in Hh.
  intros H. rewrite H in Hh. cbn [implb] in Hh.
  apply andb_prop in Hh as [Hh H4]. apply andb_prop in Hh as [Hh H3].
  apply andb_prop in Hh as [H1 H2].
  apply bool_decide_eq_true_1 in H2, H3, H4. done.
Qed.

Lemma replaceTriplets_twice isAllowed n s :
  isAllowed "%" = false →
  String.length s ≤ n → wellEncoded s = true →
  let f := percentEncodedToChar isAllowed in
  replaceTriplets f (replaceTriplets f s) = replaceTriplets f s.
Proof.
  intros Hpercent. cbv zeta. revert s.
  induction n as [|n IH]; intros s Hn Hs.
  { by destruct s; [|simpl in Hn; lia]. }
  destruct s as [|c s]; [done|]. cbn [wellEncoded] in Hs. simpl in Hn.
  destruct (Ascii.eqb "%" c) eqn:Hc.
  - apply Ascii.eqb_eq in Hc as <-.
    destruct s as [|h1 [|h2 rest]]; try done.
    apply andb_prop in Hs as [[H1 H2]%andb_prop Hrest].
    change (String "%" (String h1 (String h2 rest))) with (triplet h1 h2 +:+ rest).
    rewrite replaceTriplets_triplet by done.
    destruct (upper_hexdig h1 H1) as (Hu1 & Hv1 & Huu1 & [v1 Hx1]).
    destruct (upper_hexdig h2 H2) as (Hu2 & Hv2 & Huu2 & [v2 Hx2]).
    rewrite (percentEncodedToChar_triplet _ _ _ _ _ Hx1 Hx2). cbv zeta.
    assert (Hrec : replaceTriplets (percentEncodedToChar isAllowed)
                     (replaceTriplets (percentEncodedToChar isAllowed) rest)
                   = replaceTriplets (percentEncodedToChar isAllowed) rest).
    { apply IH; [simpl in Hn; lia|done]. }
    destruct (isAllowed (fromCharCode (16 * v1 + v2))) eqn:Hallowed.
    + unfold fromCharCode in *. rewrite app_cons, app_nil_l.
      rewrite replaceTriplets_other; [by rewrite Hrec|].
      apply Ascii.eqb_neq. intros Heq. rewrite <- Heq in Hallowed. congruence.
    + rewrite replaceTriplets_triplet by done.
      rewrite <- Hv1 in Hx1. rewrite <- Hv2 in Hx2.
      rewrite (percentEncodedToChar_triplet _ _ _ _ _ Hx1 Hx2). cbv zeta.
      by rewrite Hallowed, Huu1, Huu2, Hrec.
  - rewrite replaceTriplets_other by done. rewrite replaceTriplets_other by done.
    f_equal. apply IH; [lia|done].
Qed.

(** ** Normalising twice *)

(** X15: on a query or fragment in which every [%] is followed by two
    hexadecimal digits, the normalisation of the percent-encoding is
    idempotent, as long as [%] itself is not left unescaped; this is so for
    URIs and for IRIs. *)
Theorem normalizeQuery_idempotent (isAllowed : string → bool) (query : string) :
  isAllowed "%" = false → wellEncoded query = true →
  normalizeQueryWith isAllowed (normalizeQueryWith isAllowed query)
  = normalizeQueryWith isAllowed query
  ∧ isAllowedUnescapedInQuery "%" = false
  ∧ isAllowedUnescapedInIQuery "%" = false.
Proof.
  intros Hpercent Hquery. split; [|split; vm_compute; reflexivity].
  unfold normalizeQueryWith. rewrite !replaceAll_percentEncoded.
  by apply (replaceTriplets_twice isAllowed (String.length query)).
Qed.

Lemma normalizeQuery_idempotent_witness :
  normalizeQueryWith isAllowedUnescapedInQuery
    (normalizeQueryWith isAllowedUnescapedInQuery "a=%7e&b=%2f%25")
  = normalizeQueryWith isAllowedUnescapedInQuery "a=%7e&b=%2f%25".
Proof.
  refine (proj1 (normalizeQuery_idempotent isAllowedUnescapedInQuery
                   "a=%7e&b=%2f%25" _ _)); vm_compute; reflexivity.
Defined.

(** ** Identifiers in normal form *)

Lemma normalizeQueryWith_plain isAllowed v :
  plain (Some v) = true → normalizeQueryWith isAllowed v = v.
Proof.
  intros Hv. unfold normalizeQueryWith. rewrite replaceAll_percentEncoded.
  by apply replaceTriplets_notPercent.
Qed.

Lemma composeIdentifier_normal strategy isAllowedPath isAllowedQuery isAllowedFragment
    (c : captures) :
  normalizePath strategy = normalizePathWith isAllowedPath →
  normalizeQuery strategy = normalizeQueryWith isAllowedQuery →
  normalizeFragment strategy = normalizeQueryWith isAllowedFragment →
  is_Some (prop c "scheme") → is_Some (prop c "path") →
  normalComponents c = true →
  composeIdentifier strategy c = Ok (recompose c).
Proof.
  unfold normalComponents, composeIdentifier, recompose.
  intros -> -> -> [scheme Hscheme] [path Hpath].
  rewrite Hscheme, Hpath. cbn [from_option default lowerCase id].
  intros Hc. apply andb_prop in Hc as [Hc Hf]. apply andb_prop in Hc as [Hc Hq].
  apply andb_prop in Hc as [Hc Hp]. apply andb_prop in Hc as [Hc Hdot].
  apply andb_prop in Hc as [Hs Ha]. apply bool_decide_eq_true_1 in Hs.
  assert (HA : match prop c "authority" with
               | Some authority => "//" +:+ toLowerCase authority
               | None => ""
               end
               = match prop c "authority" with
                 | Some authority => "//" +:+ authority
                 | None => ""
                 end).
  { destruct (prop c "authority") as [a|]; [|done].
    apply bool_decide_eq_true_1 in Ha. by rewrite Ha. }
  assert (HP : normalizePathWith isAllowedPath path = path).
  { unfold normalizePathWith. rewrite replaceAll_percentEncoded.
    unfold removeDotSegments. rewrite removeDotSegmentsLoop_dotFree by done.
    rewrite app_nil_l. by apply replaceTriplets_notPercent. }
  assert (HQ : match prop c "query" with
               | Some query => "?" +:+ normalizeQueryWith isAllowedQuery query
               | None => ""
               end
               = match prop c "query" with
                 | Some query => "?" +:+ query
                 | None => ""
                 end).
  { destruct (prop c "query") as [q|]; [|done]. by rewrite normalizeQueryWith_plain. }
  assert (HF : match prop c "fragment" with
               | Some fragment => "#" +:+ normalizeQueryWith isAllowedFragment fragment
               | None => ""
               end
               = match prop c "fragment" with
                 | Some fragment => "#" +:+ fragment
                 | None => ""
                 end).
  { destruct (prop c "fragment") as [f|]; [|done]. by rewrite normalizeQueryWith_plain. }
  rewrite Hs, HA, HP, HQ, HF. by rewrite !app_assoc.
Qed.

Lemma normalize_normal strategy pattern type isAllowedPath isAllowedQuery
    isAllowedFragment s c :
  parse strategy = createParser pattern type →
  pattern ∈ [uri; uriReference; absoluteUri; iri; iriReference; absoluteIri] →
  forallb (branchOk true) (outcomes pattern) = true →
  normalizePath strategy = normalizePathWith isAllowedPath →
  normalizeQuery strategy = normalizeQueryWith isAllowedQuery →
  normalizeFragment strategy = normalizeQueryWith isAllowedFragment →
  parse strategy s = Ok c → normalComponents c = true →
  normalize strategy s = Ok s.
Proof.
  intros Hparse Hpattern Houts HnormP HnormQ HnormF Hc Hnormal.
  unfold normalize. rewrite Hc. cbn [bind]. rewrite Hparse in Hc.
  pose proof (createParser_components true _ _ _ _ Houts Hc) as (Hscheme & Hpath & _).
  rewrite (composeIdentifier_normal strategy _ _ _ c HnormP HnormQ HnormF
             (Hscheme eq_refl) Hpath Hnormal).
  by rewrite (proj1 (createParser_recompose_patterns _ _ _ _ Hpattern Hc)).
Qed.

(** X16: [normalizeUri] returns a URI as it is when its scheme and
    authority are in lower case, its path has no dot segment, and its path,
    query and fragment hold no [%]; and so does [normalizeIri] with an
    IRI. *)
Theorem normalize_normal_form (s : string) (c : captures) :
  normalComponents c = true →
  (parseUri s = Ok c → normalizeUri s = Ok s)
  ∧ (parseIri s = Ok c → normalizeIri s = Ok s).
Proof.
  intros Hnormal. split; intros Hc.
  - apply (normalize_normal strategies.uri uri "URI" isAllowedUnescapedInPath
             isAllowedUnescapedInQuery isAllowedUnescapedInQuery s c eq_refl
             (list_elem_of_here _ _));
      [vm_compute; reflexivity|reflexivity..|exact Hc|exact Hnormal].
  - apply (normalize_normal strategies.iri iri "IRI" isAllowedUnescapedInIPath
             isAllowedUnescapedInIQuery isAllowedUnescapedInIQuery s c eq_refl
             (list_elem_of_further _ _ _
                (list_elem_of_further _ _ _
                   (list_elem_of_further _ _ _ (list_elem_of_here _ _)))));
      [vm_compute; reflexivity|reflexivity..|exact Hc|exact Hnormal].
Qed.

Lemma normalize_normal_form_witness :
  normalizeUri "http://u@h:8/P/a.b/?x=1#Top" = Ok "http://u@h:8/P/a.b/?x=1#Top".
Proof.
  assert (Hnormal : match parseUri "http://u@h:8/P/a.b/?x=1#Top" with
                    | Ok c => normalComponents c
                    | Throw _ => false
                    end = true) by (vm_compute; reflexivity).
  destruct (parseUri "http://u@h:8/P/a.b/?x=1#Top") as [c|e] eqn:Hc;
    [|discriminate Hnormal].
  exact (proj1 (normalize_normal_form _ c Hnormal) Hc).
Defined.

(** ** What [toRelative] returns and throws *)

Lemma toRelative_outcome strategy pattern absolute type atype uri relativeTo :
  parse strategy = createParser pattern type →
  parseAbsolute strategy = createParser absolute atype →
  forallb (branchOk true) (outcomes pattern) = true →
  forallb (branchOk true) (outcomes absolute) = true →
  match toRelative strategy uri relativeTo with
  | Ok _ => test absolute uri = true ∧ test pattern relativeTo = true
  | Throw e =>
      (test absolute uri = false ∧ e = invalid atype uri)
      ∨ (test absolute uri = true ∧ test pattern relativeTo = false
         ∧ e = invalid type relativeTo)
  end.
Proof.
  intros Hparse Habs Houts Haouts. unfold toRelative. rewrite Hparse, Habs.
  pose proof (createParser_test absolute atype uri) as Hatest.
  pose proof (createParser_test pattern type relativeTo) as Htest.
  destruct (createParser absolute atype uri) as [fromUri|e] eqn:Hfrom; [|by left].
  cbn [bind].
  destruct (createParser pattern type relativeTo) as [toUri|e] eqn:Hto;
    [|right; by destruct Htest].
  cbn [bind].
  pose proof (createParser_components true _ _ _ _ Haouts Hfrom) as (_ & [p Hp] & _).
  pose proof (createParser_components true _ _ _ _ Houts Hto) as (_ & [q Hq] & _).
  rewrite Hp, Hq. by repeat case_bool_decide.
Qed.

(** X17: [toRelativeUri] fails in two ways only: with [Invalid absolute-URI]
    when its first argument is no absolute URI, and otherwise with
    [Invalid URI] when its second argument is no URI.  In every other case
    it returns a string; [toRelativeIri] does the same with its
    productions. *)
Theorem toRelative_errors (uri relativeTo : string) :
  match toRelativeUri uri relativeTo with
  | Ok _ => isAbsoluteUri uri = true ∧ isUri relativeTo = true
  | Throw e =>
      (isAbsoluteUri uri = false ∧ e = invalid "absolute-URI" uri)
      ∨ (isAbsoluteUri uri = true ∧ isUri relativeTo = false
         ∧ e = invalid "URI" relativeTo)
  end
  ∧ match toRelativeIri uri relativeTo with
    | Ok _ => isAbsoluteIri uri = true ∧ isIri relativeTo = true
    | Throw e =>
        (isAbsoluteIri uri = false ∧ e = invalid "absolute-IRI" uri)
        ∨ (isAbsoluteIri uri = true ∧ isIri relativeTo = false
           ∧ e = invalid "IRI" relativeTo)
    end.
Proof.
  split.
  - apply (toRelative_outcome strategies.uri Grammar.uri absoluteUri "URI" "absolute-URI"
             uri relativeTo eq_refl eq_refl); vm_compute; reflexivity.
  - apply (toRelative_outcome strategies.iri Grammar.iri absoluteIri "IRI" "absolute-IRI"
             uri relativeTo eq_refl eq_refl); vm_compute; reflexivity.
Qed.

(** ** The components are where the delimiters are *)

(** What a group holds after a match was matched by one of its bodies. *)
Lemma matches_bodies (P : string → Prop) g len r s e s' e' :
  matches len r s e s' e' →
  (∀ a t t' e0 e1, a ∈ bodies g r → matches len a t e0 t' e1 →
     P (take (String.length t - String.length t') t)) →
  (∀ v, e !! g = Some (Some v) → P v) →
  ∀ v, e' !! g = Some (Some v) → P v.
Proof.
  induction 1 as
    [s e|p c s e Hp|s e Hl|e|a b s e s1 e1 s2 e2 H1 IH1 H2 IH2
    |a b s e s' e' _ IH|a b s e s' e' _ IH|h a s e s' e' H IH|a s e _
    |min max greedy a s e _|min max greedy a s e s1 e1 s2 e2 _ H1 IH1 _ H2 IH2];
    cbn [bodies]; intros HP He; try done.
  - apply IH2; [intros a0 t t' e0 e3 Ha0; apply HP, elem_of_app; auto|].
    apply IH1; [intros a0 t t' e0 e3 Ha0; apply HP, elem_of_app; auto|done].
  - apply IH; [intros a0 t t' e0 e3 Ha0; apply HP, elem_of_app; auto|done].
  - apply IH; [intros a0 t t' e0 e3 Ha0; apply HP, elem_of_app; auto|done].
  - intros v. destruct (decide (h = g)) as [->|Hne].
    + rewrite lookup_insert_eq. intros [= <-]. apply (HP a s s' e e'); [|exact H].
      apply list_elem_of_here.
    + rewrite lookup_insert_ne by done.
      apply IH; [intros a0 t t' e0 e3 Ha0; apply HP, elem_of_app; auto|done].
  - apply IH2; [done|]. apply IH1; [done|].
    intros v. rewrite lookup_reset. case_decide; [done|]. apply He.
Qed.

Lemma oneOf_cons x cs c : oneOf (String x cs) c = Ascii.eqb x c || oneOf cs c.
Proof.
  unfold oneOf. cbn [find]. destruct (Ascii.eqb x c); [done|].
  by destruct (find c cs).
Qed.

Lemma oneOf_nil c : oneOf "" c = false.
Proof. done. Qed.

Lemma span_app Q a t :
  allChars Q a = true →
  match t with "" => true | String d _ => negb (Q d) end = true →
  span Q (a +:+ t) = (a, t).
Proof.
  intros Ha Ht. induction a as [|c a IH].
  - destruct t as [|d t]; [done|]. rewrite app_nil_l. cbn [span].
    apply negb_true_iff in Ht. by rewrite Ht.
  - cbn [allChars] in Ha. apply andb_prop in Ha as [Hc Ha].
    rewrite app_cons. cbn [span]. by rewrite Hc, IH.
Qed.

(** A match of a starred pattern whose iterations begin with [/] consumes
    nothing or begins with [/]. *)
Lemma matches_slashes len min max greedy r s e s' e' :
  matches len (Quant min max greedy (Seq (lit "/") r)) s e s' e' →
  abEmpty (take (String.length s - String.length s') s) = true.
Proof.
  inversion 1 as [| | | | | | | | |? ? ? ? ? ? Hdone
                 |? ? ? ? ? ? s1 e1 ? ? Hmax Ha Hlen Hrest]; subst.
  - rewrite Nat.sub_diag.
    by match goal with |- abEmpty (take 0 ?x) = _ => destruct x end.
  - apply matches_seq_inv in Ha as (t & e2 & [-> ->]%matches_lit_inv & Ha).
    apply matches_suffix in Ha as [w ->]. apply matches_suffix in Hrest as [w' ->].
    cbn [String.length]. rewrite !length_app.
    replace (S (String.length w + (String.length w' + String.length s')) - String.length s')
      with (S (String.length w + String.length w')) by lia.
    done.
Qed.

(** The text behind the path: a query and a fragment with their marks. *)
Lemma splitFragment_tail fragment :
  splitFragment match fragment with Some f => "#" +:+ f | None => "" end = fragment.
Proof. by destruct fragment. Qed.

Lemma splitQuery_tail query fragment :
  from_option (allChars (noneOf "#")) true query = true →
  splitQuery (match query with Some q => "?" +:+ q | None => "" end
              +:+ match fragment with Some f => "#" +:+ f | None => "" end)
  = (query, match fragment with Some f => "#" +:+ f | None => "" end).
Proof.
  intros Hquery. unfold splitQuery. destruct query as [q|]; cbn [from_option] in Hquery.
  - rewrite !app_cons, app_nil_l. cbn [startsWith drop].
    change (Ascii.eqb "?" "?") with true. cbv iota.
    rewrite span_app; [done..|]. by destruct fragment.
  - rewrite app_nil_l. by destruct fragment.
Qed.

(** What follows the path begins with [?] or [#]. *)
Lemma tail_mark query fragment :
  match match query with Some q => "?" +:+ q | None => "" end
        +:+ match fragment with Some f => "#" +:+ f | None => "" end
  with "" => true | String d _ => oneOf "?#" d end = true.
Proof. by destruct query, fragment. Qed.

Lemma splitAuthority_hier authority path tail :
  from_option (allChars (noneOf "/?#")) true authority = true →
  match authority with Some _ => abEmpty path | None => negb (beginsWith "//" path) end = true →
  match tail with "" => true | String d _ => oneOf "?#" d end = true →
  splitAuthority (match authority with Some a => "//" +:+ a | None => "" end
                  +:+ path +:+ tail)
  = (authority, path +:+ tail).
Proof.
  intros Hauthority Hshape Htail. unfold splitAuthority.
  assert (Hmark : match tail with
                  | "" => true
                  | String d _ => negb (Ascii.eqb "/" d) && oneOf "/?#" d
                  end = true).
  { destruct tail as [|d tail]; [done|]. rewrite !oneOf_cons, oneOf_nil in *.
    destruct (Ascii.eqb "?" d) eqn:H1.
    { apply Ascii.eqb_eq in H1 as <-. done. }
    destruct (Ascii.eqb "#" d) eqn:H2; [|done].
    apply Ascii.eqb_eq in H2 as <-. done. }
  destruct authority as [a|]; cbn [from_option] in Hauthority.
  - rewrite !app_cons, app_nil_l. cbn [beginsWith drop].
    change (Ascii.eqb "/" "/") with true. cbn [andb].
    rewrite span_app; [done..|]. unfold noneOf.
    destruct path as [|c path].
    + rewrite app_nil_l. destruct tail as [|d tail]; [done|].
      apply andb_prop in Hmark as [_ ->]. done.
    + rewrite app_cons. apply Ascii.eqb_eq in Hshape as ->. done.
  - rewrite app_nil_l. apply negb_true_iff in Hshape.
    destruct path as [|c [|c' path]].
    + rewrite app_nil_l. destruct tail as [|d tail]; [done|].
      apply andb_prop in Hmark as [Hd _]. apply negb_true_iff in Hd.
      cbn [beginsWith]. by rewrite Hd.
    + rewrite app_cons, app_nil_l. cbn [beginsWith].
      destruct tail as [|d tail]; [by rewrite andb_false_r|].
      apply andb_prop in Hmark as [Hd _]. apply negb_true_iff in Hd.
      by rewrite Hd, andb_false_r.
    + rewrite !app_cons. cbn [beginsWith] in Hshape |- *.
      rewrite andb_true_r in Hshape. rewrite andb_true_r. by rewrite Hshape.
Qed.

Lemma splitIdentifier_recompose scheme authority path query fragment :
  allChars (noneOf ":") scheme = true →
  from_option (allChars (noneOf "/?#")) true authority = true →
  match authority with Some _ => abEmpty path | None => negb (beginsWith "//" path) end = true →
  allChars (noneOf "?#") path = true →
  from_option (allChars (noneOf "#")) true query = true →
  splitIdentifier
    ((scheme +:+ ":")
     +:+ match authority with Some a => "//" +:+ a | None => "" end
     +:+ path
     +:+ match query with Some q => "?" +:+ q | None => "" end
     +:+ match fragment with Some f => "#" +:+ f | None => "" end)
  = (Some scheme, authority, Some path, query, fragment).
Proof.
  intros Hscheme Hauthority Hshape Hpath Hquery. unfold splitIdentifier.
  rewrite (app_assoc scheme). rewrite (span_app _ scheme) by done.
  rewrite app_cons, app_nil_l. cbn [drop].
  pose proof (tail_mark query fragment) as Htail.
  rewrite (splitAuthority_hier authority path _ Hauthority Hshape Htail).
  rewrite span_app; [|done|].
  - by rewrite splitQuery_tail, splitFragment_tail.
  - unfold noneOf. destruct (_ +:+ _) as [|d ?]; [done|]. by rewrite Htail.
Qed.

Lemma createParser_alphabet Q G pattern type s c :
  captured Q G pattern = true → G "path2" = G "path" →
  createParser pattern type s = Ok c →
  ∀ g v, G g = true → prop c g = Some v → allChars Q v = true.
Proof.
  intros Hpattern HG (groups & Hexec & ->)%createParser_Ok.
  apply exec_matches in Hexec as (t & t' & Hm).
  assert (Hgroups : ∀ g v, G g = true → prop groups g = Some v → allChars Q v = true).
  { eapply matches_captured in Hm; [|done|].
    - intros g v Hg Hv. apply (Hm g v); [done|].
      unfold prop in Hv. destruct (groups !! g) as [[x|]|]; by simplify_eq/=.
    - apply capturesIn_reset. intros g v _. by rewrite lookup_empty. }
  intros g v Hg. destruct (decide (g = "path2")) as [->|Hne].
  { by rewrite prop_delete_eq. }
  rewrite prop_delete_ne by done. case_bool_decide; [|by apply Hgroups].
  destruct (decide (g = "path")) as [->|Hp].
  - rewrite prop_insert_eq. apply Hgroups. by rewrite HG.
  - rewrite prop_insert_ne by done. by apply Hgroups.
Qed.

(** Behind an authority the path is empty or begins with [/]. *)
Lemma createParser_abEmpty pattern type s c :
  Forall (λ a, ∃ min max greedy r, a = Quant min max greedy (Seq (lit "/") r))
    (bodies "path" pattern) →
  createParser pattern type s = Ok c →
  ∀ a p, prop c "authority" = Some a → prop c "path" = Some p → abEmpty p = true.
Proof.
  intros Hbodies (groups & Hexec & ->)%createParser_Ok.
  apply exec_matches in Hexec as (t & t' & Hm).
  assert (Hgroups : ∀ v, groups !! "path" = Some (Some v) → abEmpty v = true).
  { apply (matches_bodies (λ w, abEmpty w = true) "path" _ _ _ _ _ _ Hm).
    - intros a t0 t1 e0 e1 Ha Hma. rewrite Forall_forall in Hbodies.
      destruct (Hbodies a Ha) as (min & max & greedy & r & ->).
      by eapply matches_slashes.
    - intros v. rewrite lookup_reset. case_decide; [done|]. by rewrite lookup_empty. }
  intros a p. rewrite !prop_delete_ne by done. case_bool_decide as Hnone.
  - rewrite prop_insert_ne by done. by rewrite Hnone.
  - intros _ Hp. apply Hgroups. unfold prop in Hp.
    destruct (groups !! "path") as [[x|]|]; by simplify_eq/=.
Qed.

(** The five components of what a parser of identifiers with a scheme
    returns are those that the text shows. *)
Lemma createParser_split pattern type s c :
  pattern ∈ [uri; uriReference; absoluteUri; iri; iriReference; absoluteIri] →
  forallb (branchOk true) (outcomes pattern) = true →
  captured (noneOf ":") (String.eqb "scheme") pattern = true →
  captured (noneOf "/?#") (String.eqb "authority") pattern = true →
  captured (noneOf "?#") (λ g, String.eqb "path" g || String.eqb "path2" g) pattern = true →
  captured (noneOf "#") (String.eqb "query") pattern = true →
  Forall (λ a, ∃ min max greedy r, a = Quant min max greedy (Seq (lit "/") r))
    (bodies "path" pattern) →
  createParser pattern type s = Ok c →
  five c = splitIdentifier s.
Proof.
  intros Hpattern Houts Hscheme Hauthority Hpath Hquery Hbodies Hc.
  destruct (createParser_recompose_patterns _ _ _ _ Hpattern Hc) as [Hs Hslashes].
  destruct (createParser_components true _ _ _ _ Houts Hc) as (Hsch & [p Hp] & _).
  destruct (Hsch eq_refl) as [sch Hsc]. clear Hsch.
  pose proof (λ Q G H HG, createParser_alphabet Q G _ _ _ _ H HG Hc) as Halphabet.
  pose proof (createParser_abEmpty _ _ _ _ Hbodies Hc) as Hshape.
  rewrite <- Hs. unfold five, recompose. rewrite Hsc, Hp. cbn [default].
  symmetry. apply splitIdentifier_recompose.
  - by apply (Halphabet _ _ Hscheme eq_refl "scheme").
  - destruct (prop c "authority") as [a|] eqn:Ha; [|done].
    by apply (Halphabet _ _ Hauthority eq_refl "authority").
  - destruct (prop c "authority") as [a|] eqn:Ha; [by eapply Hshape|].
    destruct (Hslashes eq_refl) as (p' & Hp' & Hb).
    rewrite Hp in Hp'. injection Hp' as <-. by rewrite Hb.
  - by apply (Halphabet _ _ Hpath eq_refl "path").
  - destruct (prop c "query") as [q|] eqn:Hq; [|done].
    by apply (Halphabet _ _ Hquery eq_refl "query").
Qed.

(** X18: the scheme, authority, path, query and fragment that [parseUri],
    [parseAbsoluteUri], [parseIri] and [parseAbsoluteIri] return are those
    that the text shows at its delimiters: the scheme is what precedes the
    first [:]; there is an authority exactly when [//] follows, and it ends
    before the next [/], [?] or [#]; the path ends before the next [?] or
    [#]; there is a query exactly when [?] follows, and it ends before the
    next [#]; the fragment is what follows that [#].  So two of these
    parsers that accept the same string agree on these components. *)
Theorem parse_split (s : string) (c : captures) :
  parseUri s = Ok c ∨ parseAbsoluteUri s = Ok c
  ∨ parseIri s = Ok c ∨ parseAbsoluteIri s = Ok c →
  five c = splitIdentifier s.
Proof.
  assert (Hshape : ∀ r,
    Forall (λ a, ∃ min max greedy r, a = Quant min max greedy (Seq (lit "/") r))
      [star (seqs [lit "/"; r])]).
  { intros r. constructor; [by eexists _, _, _, _|constructor]. }
  intros [H|[H|[H|H]]].
  - apply (createParser_split uri "URI" s c); [names_in|vm_compute; reflexivity..| |exact H].
    exact (Hshape segment).
  - apply (createParser_split absoluteUri "absolute-URI" s c);
      [names_in|vm_compute; reflexivity..| |exact H].
    exact (Hshape segment).
  - apply (createParser_split iri "IRI" s c); [names_in|vm_compute; reflexivity..| |exact H].
    exact (Hshape isegment).
  - apply (createParser_split absoluteIri "absolute-IRI" s c);
      [names_in|vm_compute; reflexivity..| |exact H].
    exact (Hshape isegment).
Qed.

Lemma parse_split_witness :
  ∃ c, parseUri "http://u@h:8/p/q?x=1#top" = Ok c
       ∧ five c = (Some "http", Some "u@h:8", Some "/p/q", Some "x=1", Some "top").
Proof.
  assert (Hscheme : propOf (parseUri "http://u@h:8/p/q?x=1#top") "scheme"
                    = Ok (Some "http")) by (vm_compute; reflexivity).
  destruct (parseUri "http://u@h:8/p/q?x=1#top") as [c|e] eqn:Hc;
    [|discriminate Hscheme].
  exists c. split; [reflexivity|].
  exact (parse_split _ c (or_introl Hc)).
Defined.

(** ** Recognisers that accept more *)

Lemma is_Some_orElse x y : is_Some (orElse x y) ↔ is_Some x ∨ is_Some y.
Proof.
  destruct x as [a|]; cbn [orElse].
  - split; [by left|eauto].
  - split; [by right|]. intros [[? ?]|?]; done.
Qed.

Lemma repeatMatcher_S (step : cont → cont) gs greedy k n min max s e :
  max ≠ Some 0 →
  repeatMatcher step gs greedy k (S n) min max s e =
    let iter :=
      step (λ s' e',
              if (min =? 0) && (String.length s' =? String.length s)
              then None
              else repeatMatcher step gs greedy k n (pred min) (pred <$> max) s' e')
           s (reset gs e) in
    if 0 <? min then iter
    else if greedy then orElse iter (k s e)
    else orElse (k s e) iter.
Proof. by destruct max as [[|?]|]. Qed.

(** Whether a repetition succeeds depends neither on the captures nor on
    its greediness. *)
Lemma repeatMatcher_weaker (step step' : cont → cont) gs gs' greedy greedy' k k' n min max :
  (∀ k k', weaker k k' → weaker (step k) (step' k')) →
  weaker k k' →
  weaker (λ s e, repeatMatcher step gs greedy k n min max s e)
         (λ s e, repeatMatcher step' gs' greedy' k' n min max s e).
Proof.
  intros Hstep Hk. revert min max.
  induction n as [|n IH]; intros min max s e e'.
  { destruct max as [[|?]|]; apply Hk. }
  destruct (decide (max = Some 0)) as [->|Hmax]; [apply Hk|].
  rewrite !repeatMatcher_S by done. cbv zeta.
  assert (Hiter : ∀ e0 e0',
    is_Some (step (λ s' e1,
               if (min =? 0) && (String.length s' =? String.length s) then None
               else repeatMatcher step gs greedy k n (pred min) (pred <$> max) s' e1)
             s e0) →
    is_Some (step' (λ s' e1,
               if (min =? 0) && (String.length s' =? String.length s) then None
               else repeatMatcher step' gs' greedy' k' n (pred min) (pred <$> max) s' e1)
             s e0')).
  { intros e0 e0'. apply Hstep. intros s1 e1 e1'.
    destruct ((min =? 0) && (String.length s1 =? String.length s)); [done|]. apply IH. }
  destruct (0 <? min); [apply Hiter|].
  intros H.
  assert (H' : is_Some (step (λ s' e1,
               if (min =? 0) && (String.length s' =? String.length s) then None
               else repeatMatcher step gs greedy k n (pred min) (pred <$> max) s' e1)
             s (reset gs e)) ∨ is_Some (k s e)).
  { destruct greedy; apply is_Some_orElse in H; tauto. }
  destruct H' as [H'|H'].
  - apply (Hiter _ (reset gs' e')) in H'. destruct greedy'; apply is_Some_orElse; tauto.
  - apply (Hk _ _ e') in H'. destruct greedy'; apply is_Some_orElse; tauto.
Qed.

Lemma repeatMatcher_skip (step : cont → cont) gs greedy k n max s e :
  is_Some (k s e) → is_Some (repeatMatcher step gs greedy k n 0 max s e).
Proof.
  intros Hk. destruct n as [|n]; [by destruct max as [[|?]|]|].
  destruct (decide (max = Some 0)) as [->|Hmax]; [done|].
  rewrite repeatMatcher_S by done. cbv zeta. cbn [Nat.ltb Nat.leb].
  destruct greedy; apply is_Some_orElse; tauto.
Qed.

Lemma weaker_accept : weaker accept accept.
Proof. intros s e e' _. by eexists. Qed.

Lemma run_below r' :
  ∀ r,
    (below true r r' = true →
     ∀ len k k', weaker k k' → weaker (run len r k) (run len r' k'))
    ∧ (below false r r' = true →
       ∀ len k k', weaker k k' → weaker (run len r' k) (run len r k')).
Proof.
  induction r' as [|p'| | |a' IHa b' IHb|a' IHa b' IHb|min' max' greedy' a' IHa|g' a' IHa|a' IHa];
    intros r.
  - destruct r; try done; split; intros _ len k k' Hk; apply Hk.
  - destruct r as [|p| | | | | | |]; try done. cbn [below].
    split; intros Hp len k k' Hk [|c s] e e'; cbn [run]; try done;
      pose proof (forallb_allAscii _ Hp c) as Hc; cbv beta in Hc.
    + destruct (p c); [|done]. cbn [implb] in Hc. rewrite Hc. apply Hk.
    + destruct (p' c); [|done]. cbn [implb] in Hc. rewrite Hc. apply Hk.
  - destruct r; try done; split; intros _ len k k' Hk s e e'; cbn [run];
      (destruct (String.length s =? len); [apply Hk|done]).
  - destruct r; try done; split; intros _ len k k' Hk s e e'; cbn [run];
      (destruct s; [apply Hk|done]).
  - cbn [below]. split.
    + match goal with |- context [if ?X then true else _] => destruct X eqn:HX end.
      * intros _ len k k' Hk. destruct r as [| | | |a b| | | |]; try done.
        destruct (below true a a') eqn:Ha; [|done]. cbn [run].
        apply (proj1 (IHa a) Ha). by apply (proj1 (IHb b) HX).
      * destruct a' as [| | | | | |[|?] max g x| |]; try done.
        intros H len k k' Hk s e e' Hr. cbn [run].
        apply repeatMatcher_skip. by apply (proj1 (IHb r) H len k k' Hk s e).
    + match goal with |- context [if ?X then true else _] => destruct X eqn:HX end;
        [|done].
      intros _ len k k' Hk. destruct r as [| | | |a b| | | |]; try done.
      destruct (below false a a') eqn:Ha; [|done]. cbn [run].
      apply (proj2 (IHa a) Ha). by apply (proj2 (IHb b) HX).
  - cbn [below]. split.
    + match goal with |- context [if ?X then true else _] => destruct X eqn:HX end.
      * intros _ len k k' Hk s e e' Hr. cbn [run]. apply is_Some_orElse.
        destruct r as [| | | | |a b| | |]; try done.
        destruct (below true a a') eqn:Ha; [|done]. cbn [run] in Hr.
        apply is_Some_orElse in Hr as [Hr|Hr].
        -- left. by apply (proj1 (IHa a) Ha len k k' Hk s e).
        -- right. by apply (proj1 (IHb b) HX len k k' Hk s e).
      * intros H len k k' Hk s e e' Hr. cbn [run]. apply is_Some_orElse.
        destruct (below true r a') eqn:Ha.
        -- left. by apply (proj1 (IHa r) Ha len k k' Hk s e).
        -- right. by apply (proj1 (IHb r) H len k k' Hk s e).
    + match goal with |- context [if ?X then true else _] => destruct X eqn:HX end;
        [|done].
      intros _ len k k' Hk s e e' Hr.
      destruct r as [| | | | |a b| | |]; try done.
      destruct (below false a a') eqn:Ha; [|done]. cbn [run] in Hr |- *.
      apply is_Some_orElse. apply is_Some_orElse in Hr as [Hr|Hr].
      * left. by apply (proj2 (IHa a) Ha len k k' Hk s e).
      * right. by apply (proj2 (IHb b) HX len k k' Hk s e).
  - destruct r as [| | | | | |min max greedy a| |]; try done. cbn [below].
    destruct ((min =? min') && bool_decide (max = max')) eqn:Hq; [|done].
    apply andb_prop in Hq as [Hmin Hmax].
    apply Nat.eqb_eq in Hmin as ->. apply bool_decide_eq_true_1 in Hmax as ->.
    split; intros Ha len k k' Hk s e e'; cbn [run]; apply repeatMatcher_weaker; try done.
    + intros k1 k2. apply (proj1 (IHa a) Ha).
    + intros k1 k2. apply (proj2 (IHa a) Ha).
  - destruct r as [| | | | | | |g a|]; try done. cbn [below].
    split; intros Ha len k k' Hk s e e'; cbn [run].
    + apply (proj1 (IHa a) Ha). intros s1 e1 e1'. apply Hk.
    + apply (proj2 (IHa a) Ha). intros s1 e1 e1'. apply Hk.
  - destruct r as [| | | | | | | |a]; try done. cbn [below negb].
    split; intros Ha len k k' Hk s e e'; cbn [run].
    + destruct (run len a accept s e) eqn:Hrun; [by intros [? ?]|].
      destruct (run len a' accept s e') eqn:Hrun'; [|apply Hk].
      assert (Hx : is_Some (run len a accept s e)).
      { apply (proj2 (IHa a) Ha len accept accept weaker_accept s e').
        by rewrite Hrun'. }
      rewrite Hrun in Hx. by destruct Hx.
    + destruct (run len a' accept s e) eqn:Hrun; [by intros [? ?]|].
      destruct (run len a accept s e') eqn:Hrun'; [|apply Hk].
      assert (Hx : is_Some (run len a' accept s e)).
      { apply (proj1 (IHa a) Ha len accept accept weaker_accept s e').
        by rewrite Hrun'. }
      rewrite Hrun in Hx. by destruct Hx.
Qed.

Lemma test_below r r' s :
  startsAtBos r = true → startsAtBos r' = true → below true r r' = true →
  test r s = true → test r' s = true.
Proof.
  intros Hr Hr' Hbelow. unfold test. rewrite !exec_startsAtBos by done.
  intros H%bool_decide_eq_true_1. apply bool_decide_eq_true_2.
  rewrite fmap_is_Some in H |- *.
  by apply (proj1 (run_below r' r) Hbelow _ accept accept weaker_accept s
              (reset (names r) ∅)).
Qed.

(** X8: the URI recognisers accept only strings made of unreserved
    characters, sub-delimiters, [:/?#[]@] and [%]: no space, control
    character, quote, angle bracket, backslash, caret, backquote, brace or
    bar, and no character outside ASCII.  The IRI recognisers accept the
    characters of [iunreserved] and of [iprivate] besides, and no
    other. *)
Theorem recognisers_alphabet (s : string) :
  (isUri s = true ∨ isUriReference s = true ∨ isAbsoluteUri s = true →
   allChars isUriChar s = true)
  ∧ (isIri s = true ∨ isIriReference s = true ∨ isAbsoluteIri s = true →
     allChars isIriChar s = true).
Proof.
  assert (Hgen : ∀ (Q : ascii → bool) pattern,
    pattern ∈ [uri; uriReference; absoluteUri; iri; iriReference; absoluteIri] →
    captured Q (λ _, true) pattern = true →
    Q ":"%char = true → Q "/"%char = true → Q "?"%char = true → Q "#"%char = true →
    test pattern s = true →
    allChars Q s = true).
  { intros Q pattern Hin Hpattern ? ? ? ? Htest.
    pose proof (createParser_test pattern "" s) as Hc.
    destruct (createParser pattern "" s) as [c|e] eqn:Hparsed;
      [|destruct Hc; congruence].
    rewrite <- (proj1 (createParser_recompose_patterns _ _ _ _ Hin Hparsed)).
    apply recompose_allChars; try done.
    by eapply createParser_capturesIn. }
  assert (Hreference : ∀ r r',
    (∀ groups, exec r s = Some groups → exec r' s = Some groups) →
    test r s = true → test r' s = true).
  { intros r r' Hexec [groups Hg]%bool_decide_eq_true_1.
    apply bool_decide_eq_true_2. rewrite (Hexec groups Hg). by eexists. }
  split.
  - intros H.
    assert (Hr : isUriReference s = true).
    { destruct H as [H|[H|H]]; [|done|].
      - apply (Hreference uri uriReference); [|done].
        intros groups. apply exec_reference_of_uri.
      - apply (Hreference uri uriReference);
          [intros groups; apply exec_reference_of_uri|].
        apply (test_below absoluteUri uri); [vm_compute; reflexivity..|done]. }
    apply (Hgen isUriChar uriReference);
      [names_in|vm_compute; reflexivity|reflexivity..|exact Hr].
  - intros H.
    assert (Hr : isIriReference s = true).
    { destruct H as [H|[H|H]]; [|done|].
      - apply (Hreference iri iriReference); [|done].
        intros groups. apply exec_reference_of_uri.
      - apply (Hreference iri iriReference);
          [intros groups; apply exec_reference_of_uri|].
        apply (test_below absoluteIri iri); [vm_compute; reflexivity..|done]. }
    apply (Hgen isIriChar iriReference);
      [names_in|vm_compute; reflexivity|reflexivity..|exact Hr].
Qed.

Lemma recognisers_alphabet_witness :
  isUri "http://a/b?c#d" = true ∧ allChars isUriChar "http://a/b?c#d" = true.
Proof.
  assert (H : isUri "http://a/b?c#d" = true) by (vm_compute; reflexivity).
  exact (conj H (proj1 (recognisers_alphabet _) (or_introl H))).
Defined.

(** X19: the recognisers are ordered as the productions are: an absolute
    URI is a URI and a URI is a URI-reference, and likewise for IRIs; and
    whatever is a URI, a URI-reference or an absolute URI is an IRI, an
    IRI-reference or an absolute IRI. *)
Theorem recognisers_inclusions (s : string) :
  (isAbsoluteUri s = true → isUri s = true)
  ∧ (isUri s = true → isUriReference s = true)
  ∧ (isAbsoluteIri s = true → isIri s = true)
  ∧ (isIri s = true → isIriReference s = true)
  ∧ (isAbsoluteUri s = true → isAbsoluteIri s = true)
  ∧ (isUri s = true → isIri s = true)
  ∧ (isUriReference s = true → isIriReference s = true).
Proof.
  assert (Hreference : ∀ r r',
    (∀ groups, exec r s = Some groups → exec r' s = Some groups) →
    test r s = true → test r' s = true).
  { intros r r' Hexec [groups Hg]%bool_decide_eq_true_1.
    apply bool_decide_eq_true_2. rewrite (Hexec groups Hg). by eexists. }
  repeat apply conj.
  - apply (test_below absoluteUri uri); vm_compute; reflexivity.
  - apply (Hreference uri uriReference). intros groups. apply exec_reference_of_uri.
  - apply (test_below absoluteIri iri); vm_compute; reflexivity.
  - apply (Hreference iri iriReference). intros groups. apply exec_reference_of_uri.
  - apply (test_below absoluteUri absoluteIri); vm_compute; reflexivity.
  - apply (test_below uri iri); vm_compute; reflexivity.
  - apply (test_below uriReference iriReference); vm_compute; reflexivity.
Qed.

Lemma recognisers_inclusions_witness :
  isAbsoluteUri "http://a/b?c" = true ∧ isUri "http://a/b?c" = true.
Proof.
  assert (H : isAbsoluteUri "http://a/b?c" = true) by (vm_compute; reflexivity).
  exact (conj H (proj1 (recognisers_inclusions _) H)).
Defined.

(** ** An absolute identifier, parsed as an identifier *)

Lemma createParser_missing pattern type s c g :
  g ∉ names pattern → g ≠ "path" →
  createParser pattern type s = Ok c → prop c g = None.
Proof.
  intros Hg Hpath (groups & Hexec & ->)%createParser_Ok.
  apply exec_matches in Hexec as (t & t' & Hm).
  pose proof (matches_frame _ _ _ _ _ _ g Hm Hg) as Hframe.
  rewrite lookup_reset, decide_False, lookup_empty in Hframe by done.
  destruct (decide (g = "path2")) as [->|Hne]; [apply prop_delete_eq|].
  rewrite prop_delete_ne by done.
  case_bool_decide; [rewrite prop_insert_ne by done|]; unfold prop; by rewrite Hframe.
Qed.

Lemma composeIdentifier_five strategy (c c' : captures) :
  five c = five c' → composeIdentifier strategy c = composeIdentifier strategy c'.
Proof.
  unfold five, composeIdentifier. intros [= Hs Ha Hp Hq Hf].
  by rewrite Hs, Ha, Hp, Hq, Hf.
Qed.

(** What parses as an absolute identifier parses as an identifier, with
    the same components and no fragment. *)
Lemma createParser_of_absolute absolute pattern atype type s b :
  absolute ∈ [absoluteUri; absoluteIri] →
  (absolute = absoluteUri → pattern = uri) →
  (absolute = absoluteIri → pattern = iri) →
  createParser absolute atype s = Ok b →
  prop b "fragment" = None
  ∧ ∃ c, createParser pattern type s = Ok c ∧ five c = five b.
Proof.
  intros Habsolute Huri Hiri Hb.
  assert (Hshape : ∀ r,
    Forall (λ a, ∃ min max greedy r, a = Quant min max greedy (Seq (lit "/") r))
      [star (seqs [lit "/"; r])]).
  { intros r. constructor; [by eexists _, _, _, _|constructor]. }
  pose proof (createParser_test absolute atype s) as Htest. rewrite Hb in Htest.
  pose proof (createParser_test pattern type s) as Hc.
  apply elem_of_cons in Habsolute as [->| ->%list_elem_of_singleton].
  - rewrite (Huri eq_refl) in *. split.
    { apply (createParser_missing absoluteUri atype s b "fragment"); [|done..].
      rewrite (eq_refl : names absoluteUri
        = ["scheme"; "authority"; "userinfo"; "host"; "port"; "path"; "path2"; "query"]).
      names_out. }
    apply (test_below absoluteUri uri) in Htest; [|vm_compute; reflexivity..].
    destruct (createParser uri type s) as [c|e] eqn:Hparsed;
      [|destruct Hc; congruence].
    exists c. split; [done|].
    rewrite (createParser_split uri type s c); [|names_in|vm_compute; reflexivity..| |done].
    + symmetry. apply (createParser_split absoluteUri atype s b);
        [names_in|vm_compute; reflexivity..| |done].
      exact (Hshape segment).
    + exact (Hshape segment).
  - rewrite (Hiri eq_refl) in *. split.
    { apply (createParser_missing absoluteIri atype s b "fragment"); [|done..].
      rewrite (eq_refl : names absoluteIri
        = ["scheme"; "authority"; "userinfo"; "host"; "port"; "path"; "path2"; "query"]).
      names_out. }
    apply (test_below absoluteIri iri) in Htest; [|vm_compute; reflexivity..].
    destruct (createParser iri type s) as [c|e] eqn:Hparsed;
      [|destruct Hc; congruence].
    exists c. split; [done|].
    rewrite (createParser_split iri type s c); [|names_in|vm_compute; reflexivity..| |done].
    + symmetry. apply (createParser_split absoluteIri atype s b);
        [names_in|vm_compute; reflexivity..| |done].
      exact (Hshape isegment).
    + exact (Hshape isegment).
Qed.

(** ** The empty reference, and an identifier relative to itself *)

Lemma resolveReference_empty strategy pattern absolute reference type atype rtype base :
  parse strategy = createParser pattern type →
  parseAbsolute strategy = createParser absolute atype →
  parseReference strategy = createParser reference rtype →
  match createParser reference rtype "" with
  | Ok r => bool_decide (five r = (None, None, Some "", None, None))
  | Throw _ => false
  end = true →
  (∀ b, createParser absolute atype base = Ok b →
        prop b "fragment" = None
        ∧ ∃ c, createParser pattern type base = Ok c ∧ five c = five b) →
  test absolute base = true →
  resolveReference strategy "" base = normalize strategy base.
Proof.
  intros Hparse Habsolute Hreference Hempty Hof Htest.
  unfold resolveReference, normalize. rewrite Hparse, Habsolute, Hreference.
  destruct (createParser reference rtype "") as [r|] eqn:Hr; [|done].
  apply bool_decide_eq_true_1 in Hempty. injection Hempty as Hs Ha Hp Hq Hf.
  pose proof (createParser_test absolute atype base) as Hb.
  destruct (createParser absolute atype base) as [b|e] eqn:Hparsed;
    [|destruct Hb; congruence].
  destruct (Hof b eq_refl) as (Hfragment & c & -> & Hfive).
  cbn [bind]. rewrite bool_decide_eq_true_2 by done. cbn [bind].
  rewrite bool_decide_eq_true_2 by (by prop_simpl).
  rewrite bool_decide_eq_true_2 by (by prop_simpl).
  rewrite bool_decide_eq_true_2 by (by prop_simpl).
  cbn [bind]. apply composeIdentifier_five. rewrite Hfive.
  unfold five. prop_simpl. by rewrite Hf, Hfragment.
Qed.

(** X20: resolving the empty reference against an absolute URI gives the
    normalisation of that URI; and likewise with [resolveIri] and an
    absolute IRI. *)
Theorem resolve_empty_reference (base : string) :
  (isAbsoluteUri base = true → resolveUri "" base = normalizeUri base)
  ∧ (isAbsoluteIri base = true → resolveIri "" base = normalizeIri base).
Proof.
  split.
  - apply (resolveReference_empty strategies.uri uri absoluteUri uriReference
             "URI" "absolute-URI" "URI-reference" base eq_refl eq_refl eq_refl);
      [vm_compute; reflexivity|].
    intros b. apply createParser_of_absolute; [names_in|done..].
  - apply (resolveReference_empty strategies.iri iri absoluteIri iriReference
             "IRI" "absolute-IRI" "IRI-reference" base eq_refl eq_refl eq_refl);
      [vm_compute; reflexivity|].
    intros b. apply createParser_of_absolute; [names_in|done..].
Qed.

Lemma resolve_empty_reference_witness :
  isAbsoluteUri "HTTP://A/b/../c?q" = true
  ∧ resolveUri "" "HTTP://A/b/../c?q" = normalizeUri "HTTP://A/b/../c?q".
Proof.
  assert (H : isAbsoluteUri "HTTP://A/b/../c?q" = true) by (vm_compute; reflexivity).
  exact (conj H (proj1 (resolve_empty_reference _) H)).
Defined.

Lemma toRelative_self strategy pattern absolute type atype s :
  parse strategy = createParser pattern type →
  parseAbsolute strategy = createParser absolute atype →
  forallb (branchOk true) (outcomes absolute) = true →
  (∀ b, createParser absolute atype s = Ok b →
        prop b "fragment" = None
        ∧ ∃ c, createParser pattern type s = Ok c ∧ five c = five b) →
  test absolute s = true →
  ∃ b, parseAbsolute strategy s = Ok b
       ∧ toRelative strategy s s
         = Ok match prop b "query" with Some query => "?" +:+ query | None => "" end.
Proof.
  intros Hparse Habsolute Houts Hof Htest.
  unfold toRelative. rewrite Hparse, Habsolute.
  pose proof (createParser_test absolute atype s) as Hb.
  destruct (createParser absolute atype s) as [b|e] eqn:Hparsed;
    [|destruct Hb; congruence].
  exists b. split; [done|].
  destruct (Hof b eq_refl) as (Hfragment & c & -> & Hfive).
  injection Hfive as Hs Ha Hp Hq Hf.
  pose proof (createParser_components true _ _ _ _ Houts Hparsed) as (_ & [p Hpath] & _).
  cbn [bind]. rewrite Hs, Ha, Hp, Hq, Hf, Hfragment, Hpath.
  rewrite !bool_decide_eq_false_2 by (by intros ?).
  rewrite bool_decide_eq_true_2 by done.
  by destruct (prop b "query").
Qed.

(** X21: the reference from an absolute URI to itself is its query behind
    a [?], and the empty reference when it has no query; and likewise with
    [toRelativeIri] and an absolute IRI. *)
Theorem toRelative_to_itself (s : string) :
  (isAbsoluteUri s = true →
   ∃ b, parseAbsoluteUri s = Ok b
        ∧ toRelativeUri s s
          = Ok match prop b "query" with Some query => "?" +:+ query | None => "" end)
  ∧ (isAbsoluteIri s = true →
     ∃ b, parseAbsoluteIri s = Ok b
          ∧ toRelativeIri s s
            = Ok match prop b "query" with Some query => "?" +:+ query | None => "" end).
Proof.
  split.
  - apply (toRelative_self strategies.uri uri absoluteUri "URI" "absolute-URI" s
             eq_refl eq_refl); [vm_compute; reflexivity|].
    intros b. apply createParser_of_absolute; [names_in|done..].
  - apply (toRelative_self strategies.iri iri absoluteIri "IRI" "absolute-IRI" s
             eq_refl eq_refl); [vm_compute; reflexivity|].
    intros b. apply createParser_of_absolute; [names_in|done..].
Qed.

Lemma toRelative_to_itself_witness :
  isAbsoluteUri "http://a/b?q=1" = true ∧ toRelativeUri "http://a/b?q=1" "http://a/b?q=1" = Ok "?q=1".
Proof.
  assert (H : isAbsoluteUri "http://a/b?q=1" = true) by (vm_compute; reflexivity).
  split; [exact H|].
  destruct (proj1 (toRelative_to_itself _) H) as (b & Hb & ->).
  assert (Hq : propOf (parseAbsoluteUri "http://a/b?q=1") "query" = Ok (Some "q=1"))
    by (vm_compute; reflexivity).
  rewrite Hb in Hq. cbn [propOf] in Hq. injection Hq as ->. reflexivity.
Defined.

(** ** The parts of the authority *)

Lemma string_app_inv_tail (a b t : string) : a +:+ t = b +:+ t → a = b.
Proof.
  intros H. pose proof (f_equal String.length H) as Hlen. rewrite !length_app in Hlen.
  rewrite <- (take_app a t), <- (take_app b t), H.
  f_equal. lia.
Qed.

Lemma authorityBody_spec userinfoBody hostBody portBody len s e s' e' :
  names userinfoBody = [] → names hostBody = [] → names portBody = [] →
  prop e "userinfo" = None → prop e "port" = None →
  matches len (authorityBody userinfoBody hostBody portBody) s e s' e' →
  is_Some (prop e' "host") ∧ s = recomposeAuthority e' +:+ s'.
Proof.
  intros Hub Hhb Hpb Hu0 Hp0 (s1 & e1 & Huser & Hm)%matches_seq_inv.
  apply matches_seq_inv in Hm as (s2 & e2 & (h & -> & Hh & Hframe2)%matches_group_prop & Hm).
  apply matches_seq_inv in Hm as (s3 & e3 & Hport & Hm).
  apply matches_empty_inv in Hm as [-> ->].
  rewrite Hhb in Hframe2.
  assert (Huserinfo :
    s = match prop e1 "userinfo" with Some u => u +:+ "@" | None => "" end +:+ h +:+ s2
    ∧ prop e1 "port" = None).
  { apply matches_opt_inv in Huser as [[-> ->]|Huser]; [by rewrite Hu0|].
    apply matches_seq_inv in Huser as (t1 & f1 & (u & -> & Hu & Hframe1)%matches_group_prop & Huser).
    apply matches_seq_inv in Huser as (t2 & f2 & [-> ->]%matches_lit_inv & Huser).
    apply matches_empty_inv in Huser as [<- <-]. rewrite Hu. split.
    - by rewrite !app_assoc.
    - rewrite Hframe1 by (done || rewrite Hub; apply not_elem_of_nil).
      rewrite prop_reset. cbn [names]. rewrite Hub. cbn [app].
      rewrite decide_False; [done|]. by intros ?%list_elem_of_singleton. }
  destruct Huserinfo as [-> Hp1].
  assert (Hkeep : ∀ g, g ≠ "host" → prop e2 g = prop e1 g).
  { intros g Hg. apply Hframe2; [done|apply not_elem_of_nil]. }
  assert (Hports :
    s2 = match prop e3 "port" with Some p => ":" +:+ p | None => "" end +:+ s3
    ∧ prop e3 "userinfo" = prop e2 "userinfo" ∧ prop e3 "host" = prop e2 "host").
  { apply matches_opt_inv in Hport as [[-> ->]|Hport].
    { by rewrite (Hkeep "port"), Hp1 by done. }
    apply matches_seq_inv in Hport as (t1 & f1 & [-> ->]%matches_lit_inv & Hport).
    apply matches_seq_inv in Hport as (t2 & f2 & (p & -> & Hp & Hframe3)%matches_group_prop & Hport).
    apply matches_empty_inv in Hport as [<- <-]. rewrite Hp. split; [done|].
    rewrite !Hframe3 by (done || rewrite Hpb; apply not_elem_of_nil).
    rewrite !prop_reset. cbn [names]. rewrite Hpb. cbn [app].
    rewrite !decide_False; [done|by intros ?%list_elem_of_singleton..]. }
  destruct Hports as (-> & Hu3 & Hh3).
  unfold recomposeAuthority. rewrite Hu3, Hh3, (Hkeep "userinfo"), Hh by done.
  split; [by eauto|]. cbn [default]. by rewrite !app_assoc.
Qed.

Lemma hierPart_authority userinfoBody hostBody portBody pathBody path2Body
    len s e s' e' :
  names userinfoBody = [] → names hostBody = [] → names portBody = [] →
  names pathBody = [] → names path2Body = [] →
  prop e "authority" = None → prop e "userinfo" = None → prop e "port" = None →
  matches len (hierPart (authorityBody userinfoBody hostBody portBody) pathBody path2Body)
    s e s' e' →
  ∀ a, prop e' "authority" = Some a →
       is_Some (prop e' "host") ∧ a = recomposeAuthority e'.
Proof.
  intros Hub Hhb Hpb Hpath Hpath2 Ha0 Hu0 Hp0 [Hm|Hm]%matches_alt_inv a.
  - apply matches_seq_inv in Hm as (s1 & e1 & Hslashes & Hm).
    apply matches_seq_inv in Hslashes as (? & ? & [-> ->]%matches_lit_inv & Hslashes).
    apply matches_seq_inv in Hslashes as (? & ? & [-> ->]%matches_lit_inv & Hslashes).
    apply matches_empty_inv in Hslashes as [-> ->].
    apply matches_seq_inv in Hm as (s2 & e2 & Hauthority & Hm).
    apply matches_group_inv in Hauthority as (w & e3 & Hbody & -> & ->).
    apply matches_seq_inv in Hm as (s3 & e4 & (p & -> & Hp & Hframe)%matches_group_prop & Hm).
    apply matches_empty_inv in Hm as [-> ->].
    apply authorityBody_spec in Hbody as [Hhost Hw]; [|done..].
    apply string_app_inv_tail in Hw. rewrite Hpath in Hframe.
    assert (Hkeep : ∀ g, g ≠ "path" → g ≠ "authority" → prop e4 g = prop e3 g).
    { intros g Hg Hg'. rewrite Hframe by (done || apply not_elem_of_nil).
      by rewrite prop_insert_ne. }
    rewrite Hframe by (done || apply not_elem_of_nil). rewrite prop_insert_eq.
    intros [= <-]. unfold recomposeAuthority. rewrite !Hkeep by done.
    split; [done|]. by rewrite Hw.
  - apply matches_group_inv in Hm as (p & e1 & Hm & -> & ->).
    rewrite prop_insert_ne by done. unfold prop.
    rewrite (matches_frame _ _ _ _ _ _ "authority" Hm).
    + fold (prop e "authority"). by rewrite Ha0.
    + cbn [names app]. rewrite Hpath2. cbn. apply not_elem_of_nil.
Qed.

Lemma createParser_authority head userinfoBody hostBody portBody pathBody path2Body
    queryBody tail pattern type s c :
  pattern = production head
              (hierPart (authorityBody userinfoBody hostBody portBody) pathBody path2Body)
              (optionalPart "?" "query" queryBody) tail →
  head = schemeHead ∨ head = optionalSchemeHead →
  tail = Seq Eos Empty
  ∨ (∃ body, tail = Seq (optionalPart "#" "fragment" body) (Seq Eos Empty)
             ∧ names body = []) →
  names userinfoBody = [] → names hostBody = [] → names portBody = [] →
  names pathBody = [] → names path2Body = [] → names queryBody = [] →
  createParser pattern type s = Ok c →
  ∀ a, prop c "authority" = Some a →
       is_Some (prop c "host") ∧ a = recomposeAuthority c.
Proof.
  intros -> Hhead Htail Hub Hhb Hpb Hpath Hpath2 Hquery
    (groups & Hexec & ->)%createParser_Ok.
  rewrite exec_startsAtBos in Hexec by done.
  destruct (run _ _ accept s _) as [[t' g]|] eqn:Hrun; [|done].
  cbn in Hexec. injection Hexec as Heq. subst g.
  apply run_sound in Hrun as (t & e & Hm & Haccept).
  injection Haccept as Ht He. subst t e.
  assert (Hinit : ∀ h, prop (reset (names (production head
                   (hierPart (authorityBody userinfoBody hostBody portBody) pathBody path2Body)
                   (optionalPart "?" "query" queryBody) tail)) ∅) h = None).
  { intros h. rewrite prop_reset. by case_decide. }
  revert Hm Hinit. generalize (reset (names (production head
                   (hierPart (authorityBody userinfoBody hostBody portBody) pathBody path2Body)
                   (optionalPart "?" "query" queryBody) tail)) ∅).
  intros e Hm Hinit.
  apply matches_seq_inv in Hm as (s0 & e0 & Hbos & Hm).
  apply matches_bos_inv in Hbos as (_ & -> & ->).
  assert (Hrest : ∃ s1 e1,
    matches (String.length s)
      (Seq (hierPart (authorityBody userinfoBody hostBody portBody) pathBody path2Body)
         (Seq (optionalPart "?" "query" queryBody) tail)) s1 e1 t' groups
    ∧ ∀ h, h ≠ "scheme" → prop e1 h = None).
  { destruct Hhead as [-> | ->];
      [apply schemeHead_spec in Hm as (s1 & e1 & Hm & _ & Hframe)
      |apply optionalSchemeHead_spec in Hm as (s1 & e1 & Hm & _ & Hframe)];
      try done; exists s1, e1; (split; [done|]);
      intros h Hh; by rewrite Hframe. }
  destruct Hrest as (s1 & e1 & Hrest & Hinit1).
  apply matches_seq_inv in Hrest as (s2 & e2 & Hhier & Hrest).
  apply matches_seq_inv in Hrest as (s3 & e3 & Hq & Htl).
  pose proof (hierPart_authority _ _ _ _ _ _ _ _ _ _ Hub Hhb Hpb Hpath Hpath2
                (Hinit1 "authority" ltac:(done)) (Hinit1 "userinfo" ltac:(done))
                (Hinit1 "port" ltac:(done)) Hhier) as Hparts.
  assert (Hnames : names (authorityBody userinfoBody hostBody portBody)
                   = ["userinfo"; "host"; "port"]).
  { cbn [authorityBody names lit]. by rewrite Hub, Hhb, Hpb. }
  assert (Hframe2 : prop e2 "query" = None ∧ prop e2 "fragment" = None).
  { destruct (hierPart_spec _ _ _ _ _ _ _ _ Hnames Hpath Hpath2 Hhier)
      as [(a & p & _ & _ & _ & Hf)|(p & _ & _ & _ & Hf)].
    - rewrite !Hf by names_out. by rewrite !Hinit1.
    - rewrite !Hf by done. by rewrite !Hinit1. }
  destruct Hframe2 as [Hq2 Hf2].
  apply optionalPart_spec in Hq as [_ Hframe3]; [|done..].
  assert (Hframe4 : ∀ h, h ≠ "fragment" → prop groups h = prop e3 h).
  { destruct Htail as [-> | (body & -> & Hbody)].
    - apply endTail_spec in Htl as [_ Hf]; [done|]. by rewrite Hframe3.
    - apply fragmentTail_spec in Htl as [_ Hf]; [done|done|]. by rewrite Hframe3. }
  assert (Hkeep : ∀ h, h ≠ "fragment" → h ≠ "query" → prop groups h = prop e2 h).
  { intros h H1 H2. by rewrite Hframe4, Hframe3. }
  assert (Hgroups : ∀ a, prop groups "authority" = Some a →
            is_Some (prop groups "host") ∧ a = recomposeAuthority groups).
  { intros a. unfold recomposeAuthority. rewrite !Hkeep by done. apply Hparts. }
  intros a. unfold recomposeAuthority. rewrite !prop_delete_ne by done.
  case_bool_decide as Hnone.
  - rewrite !prop_insert_ne by done. by rewrite Hnone.
  - apply Hgroups.
Qed.

(** X22: whenever a parser returns an authority it returns a host, and the
    authority is the userinfo with its [@], the host, and the port behind
    its [:], in this order and with the absent parts left out. *)
Theorem parse_authority (s : string) (c : captures) (authority : string) :
  parseUri s = Ok c ∨ parseUriReference s = Ok c ∨ parseAbsoluteUri s = Ok c
  ∨ parseIri s = Ok c ∨ parseIriReference s = Ok c ∨ parseAbsoluteIri s = Ok c →
  prop c "authority" = Some authority →
  is_Some (prop c "host") ∧ authority = recomposeAuthority c.
Proof.
  intros [H|[H|[H|[H|[H|H]]]]].
  - exact (createParser_authority schemeHead _ _ _ _ _ _ _ uri "URI" s c
             eq_refl (or_introl eq_refl)
             (or_intror (ex_intro _ _ (conj eq_refl eq_refl)))
             eq_refl eq_refl eq_refl eq_refl eq_refl eq_refl H authority).
  - exact (createParser_authority optionalSchemeHead _ _ _ _ _ _ _ uriReference
             "URI-reference" s c eq_refl (or_intror eq_refl)
             (or_intror (ex_intro _ _ (conj eq_refl eq_refl)))
             eq_refl eq_refl eq_refl eq_refl eq_refl eq_refl H authority).
  - exact (createParser_authority schemeHead _ _ _ _ _ _ _ absoluteUri "absolute-URI" s c
             eq_refl (or_introl eq_refl) (or_introl eq_refl)
             eq_refl eq_refl eq_refl eq_refl eq_refl eq_refl H authority).
  - exact (createParser_authority schemeHead _ _ _ _ _ _ _ iri "IRI" s c
             eq_refl (or_introl eq_refl)
             (or_intror (ex_intro _ _ (conj eq_refl eq_refl)))
             eq_refl eq_refl eq_refl eq_refl eq_refl eq_refl H authority).
  - exact (createParser_authority optionalSchemeHead _ _ _ _ _ _ _ iriReference
             "IRI-reference" s c eq_refl (or_intror eq_refl)
             (or_intror (ex_intro _ _ (conj eq_refl eq_refl)))
             eq_refl eq_refl eq_refl eq_refl eq_refl eq_refl H authority).
  - exact (createParser_authority schemeHead _ _ _ _ _ _ _ absoluteIri "absolute-IRI" s c
             eq_refl (or_introl eq_refl) (or_introl eq_refl)
             eq_refl eq_refl eq_refl eq_refl eq_refl eq_refl H authority).
Qed.

Lemma parse_authority_witness :
  ∃ c, parseUri "http://u:p@[::1]:8/x" = Ok c
       ∧ recomposeAuthority c = "u:p@[::1]:8".
Proof.
  assert (Ha : propOf (parseUri "http://u:p@[::1]:8/x") "authority"
               = Ok (Some "u:p@[::1]:8")) by (vm_compute; reflexivity).
  destruct (parseUri "http://u:p@[::1]:8/x") as [c|e] eqn:Hc; [|discriminate Ha].
  exists c. split; [reflexivity|]. injection Ha as Ha.
  symmetry. exact (proj2 (parse_authority _ c _ (or_introl Hc) Ha)).
Defined.
